(** * diagram-to-vector: the Excalidraw importer and the diagram converter

    A shallow embedding of [scripts/parse_excalidraw.py] and
    [scripts/convert.py].

    Modelling conventions.
    - A Python [str] is a [string] whose characters are the code points
      below 256 (Latin-1), on which [lower], [isdigit] and [strip] are the
      ones of Python; comparison of strings is by code point, as in
      Python.  Where a property speaks of the lowercase form of a text, it
      is stated on [lower text], so that it reads the same for a text
      whose lowercase form Python builds from other code points.
    - A JSON object is a record whose optional keys are [option] fields;
      [d.get(k, v)] is [default v (k d)] and [d[k]] on a missing key raises
      [KeyError].  A key whose [null] the code tells from its absence (a
      binding of a connector, the name of a frame, the label of a group)
      has a value of its own for [null].
    - The numbers of a diagram and of an Excalidraw file are ints ([Z]):
      [round] is the identity on them, and [min], [max], [+] and [-] are
      exact.  Floats come up in [to_svg] only, which halves the sizes:
      they are the values of a type [float] given with its operations
      (class [Floats]), so that what is proved holds whatever Python's
      floats do, [OverflowError] included.
    - A [dict] keyed by strings is a [gmap], a [set] of strings a [gset];
      on ints the order in which [min] and [max] meet the values of the
      node dictionary does not matter.
    - [sorted(..., key=...)] is the stable sort by key.
    - A function that can raise returns a [result]; a mutable argument is
      returned with the value. *)

From Stdlib Require Import ZArith Ascii String.
From stdpp Require Import gmap strings list fin_maps pretty sorting.

Local Open Scope Z_scope.

(** ** Characters and strings *)

Definition code (c : ascii) : N := N_of_ascii c.

Definition in_range (lo hi : N) (c : ascii) : bool :=
  ((lo <=? code c) && (code c <=? hi))%N.

(** [a-z], [A-Z], [0-9] of the regular expressions. *)
Definition is_az (c : ascii) : bool := in_range 97 122 c.
Definition is_AZ (c : ascii) : bool := in_range 65 90 c.
Definition is_09 (c : ascii) : bool := in_range 48 57 c.

(** [str.isdigit] on one character: the decimal digits and the three
    superscript digits of Latin-1. *)
Definition isdigit (c : ascii) : bool :=
  is_09 c || (code c =? 178)%N || (code c =? 179)%N || (code c =? 185)%N.

(** [str.lower] on one character: [A-Z] and the upper-case letters
    U+00C0..U+00DE (the multiplication sign U+00D7 has no case). *)
Definition lower_char (c : ascii) : ascii :=
  if is_AZ c || (in_range 192 222 c && negb (code c =? 215)%N)
  then ascii_of_N (code c + 32) else c.

Fixpoint lower (s : string) : string :=
  match s with
  | EmptyString => EmptyString
  | String c s' => String (lower_char c) (lower s')
  end.

(** [re.sub(cls+, repl, s)] for a character class [cls]: every maximal run
    of characters of the class is replaced by [repl].  [in_run] says that
    the previous character belonged to a run already replaced. *)
Fixpoint re_sub_go (cls : ascii -> bool) (repl : string) (in_run : bool)
    (s : string) : string :=
  match s with
  | EmptyString => EmptyString
  | String c s' =>
      if cls c then
        if in_run then re_sub_go cls repl true s'
        else repl +:+ re_sub_go cls repl true s'
      else String c (re_sub_go cls repl false s')
  end.

Definition re_sub (cls : ascii -> bool) (repl s : string) : string :=
  re_sub_go cls repl false s.

Definition is_empty (s : string) : bool :=
  match s with EmptyString => true | _ => false end.

(** [s.lstrip(chars)], [s.rstrip(chars)] and [s.strip(chars)]. *)
Fixpoint lstrip (cls : ascii -> bool) (s : string) : string :=
  match s with
  | EmptyString => EmptyString
  | String c s' => if cls c then lstrip cls s' else s
  end.

Fixpoint rstrip (cls : ascii -> bool) (s : string) : string :=
  match s with
  | EmptyString => EmptyString
  | String c s' =>
      let r := rstrip cls s' in
      if cls c && is_empty r then EmptyString else String c r
  end.

Definition strip (cls : ascii -> bool) (s : string) : string :=
  rstrip cls (lstrip cls s).

Definition is_underscore (c : ascii) : bool := (code c =? 95)%N.

(** Whitespace of [str.strip()] below code point 256. *)
Definition isspace (c : ascii) : bool :=
  in_range 9 13 c || in_range 28 32 c || (code c =? 133)%N || (code c =? 160)%N.

(** Truth value of a Python string and of an optional string. *)
Definition truthy (s : string) : bool := negb (is_empty s).

Definition truthy_opt (o : option string) : bool :=
  match o with Some s => truthy s | None => false end.

(** [a or b] on strings. *)
Definition str_or (a b : string) : string := if truthy a then a else b.

Definition head_char (s : string) : option ascii :=
  match s with EmptyString => None | String c _ => Some c end.

(** ** Exceptions and results *)

(** Exceptions and results of the methods that can raise. *)
Inductive exn :=
  | KeyError (key : string)
  | AttributeError (attribute : string)
  | OverflowError.

Inductive result (A : Type) :=
  | Ok (a : A)
  | Raise (e : exn).
Arguments Ok {A} a.
Arguments Raise {A} e.

#[global] Instance result_ret : MRet result := fun A a => Ok a.

#[global] Instance result_bind : MBind result := fun A B k r =>
  match r with Ok a => k a | Raise e => Raise e end.

(** [d[key]] for an optional key. *)
Definition index {A} (key : string) (o : option A) : result A :=
  match o with Some a => Ok a | None => Raise (KeyError key) end.

Definition succeeds {A} (r : result A) : bool :=
  match r with Ok _ => true | Raise _ => false end.

(** A loop that threads an accumulator and stops at the first exception. *)
Fixpoint for_each {A S} (body : S -> A -> result S) (acc : S) (l : list A) : result S :=
  match l with
  | [] => Ok acc
  | a :: l' => acc' ← body acc a; for_each body acc' l'
  end.

(** ** Floats *)

(** Python's [float] as far as the converter uses it.  The numbers of a
    diagram are ints; the only floats are the ones [to_svg] makes of them
    for the midpoints of the boxes: the true division [z / 2] of an int,
    the conversion of an int that is added to a float (both raise
    [OverflowError] when the int is too large, which is [None] here), the
    sum of two floats, and [str].  The type and the four operations are
    taken as given: nothing is assumed about them except where a property
    says so. *)
Class Floats := {
  float : Type;
  float_of_int : Z -> option float;
  half_of_int : Z -> option float;
  float_add : float -> float -> float;
  float_str : float -> string
}.

Section FloatArithmetic.
Context `{FL : Floats}.

(** The float of an int that meets a float in a sum. *)
Definition to_float (z : Z) : result float :=
  match float_of_int z with Some f => Ok f | None => Raise OverflowError end.

(** [z / 2] for an int [z]. *)
Definition int_half (z : Z) : result float :=
  match half_of_int z with Some f => Ok f | None => Raise OverflowError end.

(** [z + f] and [f + z] for an int [z] and a float [f]. *)
Definition int_add_float (z : Z) (f : float) : result float :=
  g ← to_float z; Ok (float_add g f).

Definition float_add_int (f : float) (z : Z) : result float :=
  g ← to_float z; Ok (float_add f g).

(** [x + w/2] and [x + w/2 + o] for ints [x], [w] and [o]. *)
Definition middle (x w : Z) : result float :=
  half ← int_half w; int_add_float x half.

Definition middle_plus (x w o : Z) : result float :=
  m ← middle x w; float_add_int m o.

End FloatArithmetic.

(** ** The intermediate format *)

(** The [style] object of a node. *)
Record Style := {
  fillColor : option string;
  strokeColor : option string;
  strokeWidth : option Z
}.

(** A node of the intermediate format.  [n_id] is the one key the
    converter indexes directly at construction; the [confidence] key is
    written by the importer and read by nobody, and is left out. *)
Record Node := {
  n_id : string;
  n_type : option string;
  n_label : option string;
  n_x : option Z;
  n_y : option Z;
  n_width : option Z;
  n_height : option Z;
  n_style : option Style
}.

(** The [style] object of an edge. *)
Record EdgeStyle := { strokeStyle : option string }.

Record Edge := {
  e_id : option string;
  e_from : option string;
  e_to : option string;
  e_type : option string;
  e_label : option string;
  e_style : option EdgeStyle
}.

(** A group; a missing [nodeIds] key reads as the empty list everywhere.
    The [label] key can hold [null], which the importer writes for a frame
    whose name is [null]: [g_label] is [None] when the key is absent and
    [Some None] when its value is [null]. *)
Record Group := {
  g_id : option string;
  g_label : option (option string);
  g_nodeIds : list string
}.

(** [group.get('label', '')], a string or [None], and its text in an
    f-string. *)
Definition group_label (g : Group) : option string := default (Some EmptyString) (g_label g).

Definition str_opt (v : option string) : string := default "None" v.

(** The diagram JSON: what the importer writes and the converter reads.
    The keys [source], [sourceFile] and [overallConfidence], which nothing
    reads, are left out. *)
Record Diagram := {
  d_title : option string;
  d_diagramType : option string;
  d_nodes : list Node;
  d_edges : list Edge;
  d_groups : list Group
}.

(** ** parse_excalidraw.py *)

(** The [while] loop of [sanitize_id]: [fuel] bounds the number of
    iterations; [suffix_loop_free] below shows that the bound used by
    [sanitize_id] is never reached. *)
Fixpoint suffix_loop (fuel : nat) (existing : gset string) (orig : string)
    (sanitized : string) (i : N) : string :=
  match fuel with
  | O => sanitized
  | S fuel' =>
      if decide (sanitized ∈ existing)
      then suffix_loop fuel' existing orig (orig +:+ "_" +:+ pretty i)%string (i + 1)%N
      else sanitized
  end.

(** The character class [[^a-zA-Z0-9]]. *)
Definition not_alnum (c : ascii) : bool := negb (is_az c || is_AZ c || is_09 c).

(** The part of [sanitize_id] before the collision set is looked at. *)
Definition sanitize_base (text : string) : string :=
  let text := if is_empty text then "node" else text in
  let sanitized := re_sub not_alnum "_" (lower text) in
  let sanitized := strip is_underscore (re_sub is_underscore "_" sanitized) in
  if is_empty sanitized || from_option isdigit false (head_char sanitized)
  then "node_" +:+ sanitized
  else sanitized.

(** [sanitize_id(text, existing)].  The set is a mutable argument: the
    result carries the set as the call leaves it.  [if existing:] is false
    for [None] and for the empty set. *)
Definition sanitize_id (text : string) (existing : option (gset string))
    : string * option (gset string) :=
  let sanitized := sanitize_base text in
  match existing with
  | Some ex =>
      if decide (ex = ∅) then (sanitized, existing)
      else
        let sanitized := suffix_loop (S (size ex)) ex sanitized sanitized 2 in
        (sanitized, Some ({[sanitized]} ∪ ex))
  | None => (sanitized, None)
  end.

(** The value of a [startBinding] or [endBinding] key: [null], or an
    object with an optional [elementId]. *)
Inductive Binding :=
  | BindingNull
  | BindingObject (elementId : option string).

(** An element of the [elements] array of an Excalidraw file, with the
    keys the importer reads.  [el_isDeleted] is the truth value of
    [el.get('isDeleted')].  The geometry keys, when present, hold ints, on
    which [round] is the identity.  [el_name] is [None] when the key is
    absent and [Some None] when its value is [null], as Excalidraw writes
    it for a frame without a name. *)
Record Element := {
  el_id : option string;
  el_type : option string;
  el_isDeleted : bool;
  el_text : option string;
  el_containerId : option string;
  el_x : option Z;
  el_y : option Z;
  el_width : option Z;
  el_height : option Z;
  el_backgroundColor : option string;
  el_strokeColor : option string;
  el_strokeStyle : option string;
  el_startBinding : option Binding;
  el_endBinding : option Binding;
  el_frameId : option string;
  el_name : option (option string)
}.

Definition excalidraw_shape (shape : string) : string :=
  if decide (shape = "rectangle") then "rectangle"
  else if decide (shape = "diamond") then "diamond"
  else if decide (shape = "ellipse") then "ellipse"
  else if decide (shape = "arrow") then "arrow"
  else if decide (shape = "line") then "line"
  else if decide (shape = "text") then "text"
  else "rectangle".

Fixpoint find_bound_text (eid : option string) (elements : list Element) : string :=
  match elements with
  | [] => ""
  | el :: rest =>
      if bool_decide (el_type el = Some "text") && bool_decide (el_containerId el = eid)
      then default "" (el_text el)
      else find_bound_text eid rest
  end.

(** The mutable locals of [parse_excalidraw] that the first pass writes. *)
Record PassState := {
  id_map : gmap (option string) string;
  existing : gset string;
  nodes : list Node
}.

(** The test at the head of the first loop: connectors, free text and
    deleted elements are skipped. *)
Definition skipped (el : Element) : bool :=
  bool_decide (el_type el = Some "arrow") || bool_decide (el_type el = Some "line")
  || bool_decide (el_type el = Some "text") || el_isDeleted el.

(** The [style] dictionary the first pass builds; [None] when it stays
    empty. *)
Definition shape_style (el : Element) : option Style :=
  let fill :=
    if truthy_opt (el_backgroundColor el)
       && negb (bool_decide (el_backgroundColor el = Some "transparent"))
    then el_backgroundColor el else None in
  let stroke := if truthy_opt (el_strokeColor el) then el_strokeColor el else None in
  match fill, stroke with
  | None, None => None
  | _, _ => Some {| fillColor := fill; strokeColor := stroke; strokeWidth := None |}
  end.

(** The label expression of the first pass, with [count] the length of
    [nodes] when it is evaluated. *)
Definition shape_label (elements : list Element) (el : Element) (count : nat) : string :=
  str_or (str_or (find_bound_text (el_id el) elements) (default EmptyString (el_text el)))
         ("Shape " +:+ pretty (N.of_nat count + 1)%N).

(** One iteration of the first loop of [parse_excalidraw]. *)
Definition shape_step (elements : list Element) (st : PassState) (el : Element)
    : PassState :=
  if skipped el then st
  else
    let label := shape_label elements el (length (nodes st)) in
    let '(nid, ex) := sanitize_id label (Some (existing st)) in
    let node := {|
      n_id := nid;
      n_type := Some (excalidraw_shape (default "" (el_type el)));
      n_label := Some (strip isspace label);
      n_x := Some (default 0 (el_x el));
      n_y := Some (default 0 (el_y el));
      n_width := Some (default 100 (el_width el));
      n_height := Some (default 50 (el_height el));
      n_style := shape_style el |} in
    {| id_map := <[el_id el := nid]> (id_map st);
       existing := default (existing st) ex;
       nodes := nodes st ++ [node] |}.

(** The first pass of [parse_excalidraw] over the elements of a file. *)
Definition first_pass (elements : list Element) : PassState :=
  foldl (shape_step elements) {| id_map := ∅; existing := ∅; nodes := [] |} elements.

(** The [nodes] list once the first pass is over; the later passes do not
    touch it. *)
Definition parse_nodes (elements : list Element) : list Node :=
  nodes (first_pass elements).

(** [el.get(key, {}).get('elementId')] for a binding key. *)
Definition binding_elementId (b : option Binding) : result (option string) :=
  match b with
  | None => Ok None
  | Some BindingNull => Raise (AttributeError "get")
  | Some (BindingObject elementId) => Ok elementId
  end.

(** One iteration of the second loop: connectors bound at both ends to
    shapes of the first pass become edges. *)
Definition connector_step (elements : list Element)
    (id_map : gmap (option string) string) (edges : list Edge) (el : Element)
    : result (list Edge) :=
  if negb (bool_decide (el_type el = Some "arrow") || bool_decide (el_type el = Some "line"))
     || el_isDeleted el
  then Ok edges
  else
    start ← binding_elementId (el_startBinding el);
    end_ ← binding_elementId (el_endBinding el);
    if negb (truthy_opt start) || negb (truthy_opt end_) then Ok edges
    else
      let fr := id_map !! start in
      let to := id_map !! end_ in
      if negb (truthy_opt fr) || negb (truthy_opt to) then Ok edges
      else
        let label := find_bound_text (el_id el) elements in
        Ok (edges ++ [{|
          e_id := Some (default EmptyString fr +:+ "_to_" +:+ default EmptyString to);
          e_from := fr;
          e_to := to;
          e_type := Some (if bool_decide (el_type el = Some "arrow") then "arrow" else "line");
          e_label := if truthy label then Some (strip isspace label) else None;
          e_style := if bool_decide (el_strokeStyle el = Some "dashed")
                     then Some {| strokeStyle := Some "dashed" |} else None |}]).

(** The list [contained] of the third loop: [e['id']] raises for an
    element without an id. *)
Fixpoint contained_in (frame_id : option string) (id_map : gmap (option string) string)
    (elements : list Element) : result (list string) :=
  match elements with
  | [] => Ok []
  | e :: rest =>
      if bool_decide (el_frameId e = frame_id) && bool_decide (is_Some (id_map !! el_id e))
      then
        eid ← index "id" (el_id e);
        nid ← index eid (id_map !! Some eid);
        more ← contained_in frame_id id_map rest;
        Ok (nid :: more)
      else contained_in frame_id id_map rest
  end.

(** [el.get('name', 'Group')]: a string, or [None] for a [null] name. *)
Definition frame_name (el : Element) : option string :=
  default (Some "Group") (el_name el).

(** One iteration of the third loop: frames become groups.  The state is
    the collision set and the list [groups].  [sanitize_id] takes [None]
    for the empty text: both fail the test [if not text]. *)
Definition frame_step (elements : list Element) (id_map : gmap (option string) string)
    (st : gset string * list Group) (el : Element) : result (gset string * list Group) :=
  let '(existing, groups) := st in
  if bool_decide (el_type el = Some "frame") && negb (el_isDeleted el)
  then
    let '(gid, ex) :=
      sanitize_id (default EmptyString (frame_name el)) (Some existing) in
    contained ← contained_in (el_id el) id_map elements;
    match contained with
    | [] => Ok (default existing ex, groups)
    | _ => Ok (default existing ex,
               groups ++ [{| g_id := Some gid;
                             g_label := Some (frame_name el);
                             g_nodeIds := contained |}])
    end
  else Ok st.

(** [parse_excalidraw], from the [elements] array of the file read. *)
Definition parse_excalidraw (elements : list Element) : result Diagram :=
  let st := first_pass elements in
  edges ← for_each (connector_step elements (id_map st)) [] elements;
  frames ← for_each (frame_step elements (id_map st)) (existing st, []) elements;
  Ok {| d_title := None;
        d_diagramType :=
          Some (if existsb (fun n => bool_decide (n_type n = Some "diamond")) (nodes st)
                then "flowchart" else "architecture");
        d_nodes := nodes st;
        d_edges := edges;
        d_groups := snd frames |}.

(** *** The sanitization rule as the specification words it *)

(** The character class outside [[a-z0-9]]. *)
Definition spec_outside (c : ascii) : bool := negb (is_az c || is_09 c).

Definition spec_sanitize (text : string) : string :=
  let s := lower text in
  let s := re_sub spec_outside "_" s in
  let s := re_sub is_underscore "_" s in
  let s := strip is_underscore s in
  let s := if is_empty s then "node" else s in
  match head_char s with
  | Some c => if is_09 c then "node_" +:+ s else s
  | None => s
  end.

(** Some character, resp. every character, of a string satisfies [p]. *)
Fixpoint str_exists (p : ascii -> bool) (s : string) : bool :=
  match s with
  | EmptyString => false
  | String c s' => p c || str_exists p s'
  end.

Fixpoint str_forall (p : ascii -> bool) (s : string) : bool :=
  match s with
  | EmptyString => true
  | String c s' => p c && str_forall p s'
  end.

(** The input has a letter or a digit of [[a-zA-Z0-9]]. *)
Definition has_alnum (s : string) : bool := str_exists (fun c => negb (not_alnum c)) s.

(** The string both definitions work on once the runs are replaced,
    collapsed and stripped. *)
Definition cleaned (text : string) : string :=
  strip is_underscore (re_sub is_underscore "_" (re_sub spec_outside "_" (lower text))).

(** The candidate [orig_i] of the suffix loop. *)
Definition candidate (orig : string) (i : N) : string := orig +:+ "_" +:+ pretty i.

(** The number of elements of a list that the first pass turns into nodes. *)
Definition shapes_in (l : list Element) : nat :=
  length (filter (fun e => skipped e = false) l).

(** *** The label rule as the specification words it *)

(** The first text element whose container reference is [eid]. *)
Definition first_bound (eid : option string) (elements : list Element)
    : option Element :=
  snd <$> list_find (fun t => el_type t = Some "text" /\ el_containerId t = eid) elements.

(** [processed] is the number of shapes handled before this one. *)
Definition spec_label (el : Element) (elements : list Element) (processed : nat)
    : string :=
  match first_bound (el_id el) elements with
  | Some t =>
      if truthy (default "" (el_text t)) then default "" (el_text t)
      else if truthy_opt (el_text el) then default "" (el_text el)
      else "Shape " +:+ pretty (processed + 1)%nat
  | None =>
      if truthy_opt (el_text el) then default "" (el_text el)
      else "Shape " +:+ pretty (processed + 1)%nat
  end.

(** ** convert.py *)

(** The attributes of a [DiagramConverter] instance. *)
Record DiagramConverter := {
  c_nodes : gmap string Node;
  c_edges : list Edge;
  c_groups : list Group;
  c_title : string;
  c_layout_override : option string
}.

(** *** Text helpers *)

Definition dq : string := String "034"%char EmptyString.
Definition nl : string := String "010"%char EmptyString.

(** [sep.join(l)]. *)
Fixpoint join (sep : string) (l : list string) : string :=
  match l with
  | [] => EmptyString
  | [a] => a
  | a :: l' => a +:+ sep +:+ join sep l'
  end.

(** [s.replace(c, r)] for a one-character [c]. *)
Fixpoint replace (c : ascii) (r : string) (s : string) : string :=
  match s with
  | EmptyString => EmptyString
  | String a s' =>
      if bool_decide (a = c) then r +:+ replace c r s' else String a (replace c r s')
  end.

(** [html.escape(s)] with its default [quote=True]. *)
Definition html_escape (s : string) : string :=
  replace "'"%char "&#x27;"
    (replace "034"%char "&quot;"
      (replace ">"%char "&gt;" (replace "<"%char "&lt;" (replace "&"%char "&amp;" s)))).

(** [str(n)] for an int. *)
Definition str_int (n : Z) : string := pretty n.

(** [str(h / 2)]: the float with value [h/2], for [h] an int whose half is
    exactly representable and below 10^16 in magnitude. *)
Definition str_half (h : Z) : string :=
  (if h <? 0 then "-" else EmptyString)
    +:+ pretty (Z.abs h / 2) +:+ (if Z.even h then ".0" else ".5").

(** *** Sorting *)

Section Sorting.
Context {A : Type} (key : A -> string).

Fixpoint insert_by (a : A) (l : list A) : list A :=
  match l with
  | [] => [a]
  | b :: l' =>
      if String.leb (key a) (key b) then a :: l else b :: insert_by a l'
  end.

(** [sorted(l, key=key)]: stable, ascending by code point. *)
Definition sorted (l : list A) : list A := foldr insert_by [] l.

(** The order [sorted] sorts by. *)
Definition key_le (a b : A) : Prop := String.le (key a) (key b).

End Sorting.

(** [max(l)] and [min(l)] of a list the caller knows to be non-empty. *)
Definition max_list (l : list Z) : Z :=
  match l with [] => 0 | a :: l' => foldl Z.max a l' end.

Definition min_list (l : list Z) : Z :=
  match l with [] => 0 | a :: l' => foldl Z.min a l' end.

(** *** The converter *)

Definition empty_style : Style :=
  {| fillColor := None; strokeColor := None; strokeWidth := None |}.

(** [DiagramConverter.__init__]: a later node replaces an earlier one with
    the same id. *)
Definition init (data : Diagram) (layout_mode : option string) : DiagramConverter :=
  {| c_nodes := foldl (fun m n => <[n_id n := n]> m) ∅ (d_nodes data);
     c_edges := d_edges data;
     c_groups := d_groups data;
     c_title := default EmptyString (d_title data);
     c_layout_override := layout_mode |}.

Definition DEFAULT_LAYOUTS (fmt : string) : option string :=
  if bool_decide (fmt = "mermaid") then Some "structure"
  else if bool_decide (fmt = "graphviz") then Some "structure"
  else if bool_decide (fmt = "drawio") then Some "position"
  else if bool_decide (fmt = "svg") then Some "position"
  else None.

Definition get_layout (c : DiagramConverter) (fmt : string) : string :=
  if truthy_opt (c_layout_override c) then default EmptyString (c_layout_override c)
  else default "structure" (DEFAULT_LAYOUTS fmt).

(** [self.nodes.values()]. *)
Definition node_values (c : DiagramConverter) : list Node :=
  snd <$> map_to_list (c_nodes c).

(** [sorted(self.nodes.items())]: the keys of a dict are distinct, so the
    order of the pairs is the order of their ids. *)
Definition sorted_nodes (c : DiagramConverter) : list (string * Node) :=
  sorted fst (map_to_list (c_nodes c)).

Definition edge_key (e : Edge) : string := default EmptyString (e_id e).
Definition group_key (g : Group) : string := default EmptyString (g_id g).

Definition sorted_edges (c : DiagramConverter) : list Edge := sorted edge_key (c_edges c).
Definition sorted_groups (c : DiagramConverter) : list Group := sorted group_key (c_groups c).

Definition is_dashed (e : Edge) : bool :=
  match e_style e with
  | Some st => bool_decide (strokeStyle st = Some "dashed")
  | None => false
  end.

Definition node_label (nid : string) (node : Node) : string := default nid (n_label node).
Definition node_shape (node : Node) : string := default "rectangle" (n_type node).
Definition node_style (node : Node) : Style := default empty_style (n_style node).

(** *** to_mermaid *)

Definition _style_to_mermaid (node_id : string) (style : Style) : option string :=
  let parts :=
    (if truthy_opt (fillColor style)
     then ["fill:" +:+ default EmptyString (fillColor style)] else [])
    ++ (if truthy_opt (strokeColor style)
        then ["stroke:" +:+ default EmptyString (strokeColor style)] else [])
    ++ (match strokeWidth style with
        | Some w => if bool_decide (w = 0) then []
                    else ["stroke-width:" +:+ str_int w +:+ "px"]
        | None => []
        end) in
  match parts with
  | [] => None
  | _ => Some ("style " +:+ node_id +:+ " " +:+ join "," parts)
  end.

Definition MERMAID_SHAPES (shape : string) : option (string * string) :=
  if bool_decide (shape = "rectangle") then Some ("[" +:+ dq, dq +:+ "]")
  else if bool_decide (shape = "diamond") then Some ("{", "}")
  else if bool_decide (shape = "circle") then Some ("((" +:+ dq, dq +:+ "))")
  else if bool_decide (shape = "ellipse") then Some ("([" +:+ dq, dq +:+ "])")
  else if bool_decide (shape = "cylinder") then Some ("[(" +:+ dq, dq +:+ ")]")
  else if bool_decide (shape = "parallelogram") then Some ("[/" +:+ dq, dq +:+ "/]")
  else None.

Definition _mermaid_node (nid : string) (node : Node) : string :=
  let label :=
    replace "]"%char ")" (replace "["%char "(" (replace "034"%char "'" (node_label nid node))) in
  let '(pre, suf) := default ("[" +:+ dq, dq +:+ "]") (MERMAID_SHAPES (node_shape node)) in
  "    " +:+ nid +:+ pre +:+ label +:+ suf.

(** The optional front matter with the title. *)
Definition mermaid_title_lines (c : DiagramConverter) : list string :=
  if truthy (c_title c) then ["---"; "title: " +:+ c_title c; "---"] else [].

Definition node_xs (c : DiagramConverter) : list Z :=
  (fun n => default 0 (n_x n)) <$> node_values c.
Definition node_ys (c : DiagramConverter) : list Z :=
  (fun n => default 0 (n_y n)) <$> node_values c.

Definition mermaid_direction (c : DiagramConverter) : string :=
  if bool_decide (get_layout c "mermaid" = "position")
     && negb (bool_decide (c_nodes c = ∅))
  then
    if max_list (node_xs c) - min_list (node_xs c)
       >? max_list (node_ys c) - min_list (node_ys c)
    then "LR" else "TD"
  else "TD".

(** The set [grouped] of [to_mermaid]. *)
Definition grouped (c : DiagramConverter) : gset string :=
  foldl (fun acc g => acc ∪ list_to_set (g_nodeIds g)) ∅ (c_groups c).

(** The nodes the first node loop does not [continue] over. *)
Definition mermaid_top_nodes (c : DiagramConverter) : list (string * Node) :=
  filter (fun p => fst p ∉ grouped c) (sorted_nodes c).

Definition mermaid_top_lines (c : DiagramConverter) : list string :=
  (fun p => _mermaid_node (fst p) (snd p)) <$> mermaid_top_nodes c.

(** The member lines of one [subgraph] block. *)
Definition mermaid_member_lines (c : DiagramConverter) (group : Group) : list string :=
  omap (fun nid => (fun node => "    " +:+ _mermaid_node nid node) <$> c_nodes c !! nid)
       (sorted id (g_nodeIds group)).

Definition mermaid_group_block (c : DiagramConverter) (group : Group) : list string :=
  [EmptyString;
   "    subgraph " +:+ default "group" (g_id group) +:+ "["
     +:+ str_opt (group_label group) +:+ "]"]
  ++ mermaid_member_lines c group ++ ["    end"].

Definition mermaid_arrow (e : Edge) : string :=
  let arrow := if is_dashed e then "-.->" else "-->" in
  if bool_decide (e_type e = Some "line") then "---" else arrow.

Definition mermaid_edge_line (e : Edge) : string :=
  let fr := default EmptyString (e_from e) in
  let to := default EmptyString (e_to e) in
  let label := default EmptyString (e_label e) in
  if truthy label
  then "    " +:+ fr +:+ " " +:+ mermaid_arrow e +:+ "|" +:+ label +:+ "| " +:+ to
  else "    " +:+ fr +:+ " " +:+ mermaid_arrow e +:+ " " +:+ to.

Definition mermaid_style_lines (c : DiagramConverter) : list string :=
  omap (fun p => (fun s => "    " +:+ s) <$> _style_to_mermaid (fst p) (node_style (snd p)))
       (sorted_nodes c).

Definition mermaid_lines (c : DiagramConverter) : list string :=
  mermaid_title_lines c
  ++ ["flowchart " +:+ mermaid_direction c]
  ++ mermaid_top_lines c
  ++ concat (mermaid_group_block c <$> sorted_groups c)
  ++ [EmptyString]
  ++ (mermaid_edge_line <$> sorted_edges c)
  ++ (match mermaid_style_lines c with
      | [] => []
      | style_lines => [EmptyString] ++ style_lines
      end).

Definition to_mermaid (c : DiagramConverter) : string := join nl (mermaid_lines c).

(** *** to_graphviz *)

Definition GRAPHVIZ_SHAPES (shape : string) : option string :=
  if bool_decide (shape = "rectangle") then Some "box"
  else if bool_decide (shape = "diamond") then Some "diamond"
  else if bool_decide (shape = "circle") then Some "circle"
  else if bool_decide (shape = "ellipse") then Some "ellipse"
  else if bool_decide (shape = "cylinder") then Some "cylinder"
  else if bool_decide (shape = "parallelogram") then Some "parallelogram"
  else None.

Definition graphviz_header (c : DiagramConverter) : list string :=
  let lines :=
    ["digraph G {"; "    rankdir=TB;"; "    node [fontname=" +:+ dq +:+ "Arial" +:+ dq +:+ "];";
     EmptyString] in
  if truthy (c_title c)
  then take 1 lines ++ ["    label=" +:+ dq +:+ c_title c +:+ dq +:+ ";"] ++ drop 1 lines
  else lines.

Definition graphviz_node_line (nid : string) (node : Node) : string :=
  let shape := default "box" (GRAPHVIZ_SHAPES (node_shape node)) in
  let label := replace "034"%char ("\" +:+ dq) (node_label nid node) in
  let style := node_style node in
  let attrs :=
    ["label=" +:+ dq +:+ label +:+ dq; "shape=" +:+ shape]
    ++ (if truthy_opt (fillColor style)
        then ["fillcolor=" +:+ dq +:+ default EmptyString (fillColor style) +:+ dq;
              "style=filled"]
        else [])
    ++ (if truthy_opt (strokeColor style)
        then ["color=" +:+ dq +:+ default EmptyString (strokeColor style) +:+ dq]
        else []) in
  "    " +:+ nid +:+ " [" +:+ join ", " attrs +:+ "];".

Definition graphviz_edge_line (e : Edge) : string :=
  let fr := default EmptyString (e_from e) in
  let to := default EmptyString (e_to e) in
  let attrs :=
    (if truthy_opt (e_label e)
     then ["label=" +:+ dq +:+ default EmptyString (e_label e) +:+ dq] else [])
    ++ (if is_dashed e then ["style=dashed"] else []) in
  let attr_str :=
    match attrs with
    | [] => EmptyString
    | _ => " [" +:+ join ", " attrs +:+ "]"
    end in
  "    " +:+ fr +:+ " -> " +:+ to +:+ attr_str +:+ ";".

Definition graphviz_cluster (group : Group) : list string :=
  [EmptyString;
   "    subgraph cluster_" +:+ default EmptyString (g_id group) +:+ " {";
   "        label=" +:+ dq +:+ str_opt (group_label group) +:+ dq +:+ ";"]
  ++ ((fun nid => "        " +:+ nid +:+ ";") <$> sorted id (g_nodeIds group))
  ++ ["    }"].

Definition graphviz_node_lines (c : DiagramConverter) : list string :=
  (fun p => graphviz_node_line (fst p) (snd p)) <$> sorted_nodes c.

Definition graphviz_lines (c : DiagramConverter) : list string :=
  graphviz_header c
  ++ graphviz_node_lines c
  ++ [EmptyString]
  ++ (graphviz_edge_line <$> sorted_edges c)
  ++ concat (graphviz_cluster <$> sorted_groups c)
  ++ ["}"].

Definition to_graphviz (c : DiagramConverter) : string := join nl (graphviz_lines c).

(** *** to_drawio *)

Definition DRAWIO_SHAPES (shape : string) : option string :=
  if bool_decide (shape = "rectangle") then Some "rounded=0;whiteSpace=wrap;html=1;"
  else if bool_decide (shape = "diamond") then Some "rhombus;whiteSpace=wrap;html=1;"
  else if bool_decide (shape = "circle")
  then Some "ellipse;whiteSpace=wrap;html=1;aspect=fixed;"
  else if bool_decide (shape = "ellipse") then Some "ellipse;whiteSpace=wrap;html=1;"
  else if bool_decide (shape = "cylinder")
  then Some "shape=cylinder3;whiteSpace=wrap;html=1;"
  else if bool_decide (shape = "parallelogram")
  then Some "shape=parallelogram;whiteSpace=wrap;html=1;"
  else None.

(** [name="value"], the building block of the XML attributes. *)
Definition attr (name value : string) : string := name +:+ "=" +:+ dq +:+ value +:+ dq.

Definition drawio_node_cell (nid : string) (node : Node) : string :=
  let label := html_escape (node_label nid node) in
  let base_style :=
    default "rounded=0;whiteSpace=wrap;html=1;" (DRAWIO_SHAPES (node_shape node)) in
  let ns := node_style node in
  let style_parts :=
    [base_style]
    ++ (if truthy_opt (fillColor ns)
        then ["fillColor=" +:+ default EmptyString (fillColor ns) +:+ ";"] else [])
    ++ (if truthy_opt (strokeColor ns)
        then ["strokeColor=" +:+ default EmptyString (strokeColor ns) +:+ ";"] else []) in
  let style := join EmptyString style_parts in
  let x := default 0 (n_x node) in
  let y := default 0 (n_y node) in
  let w := default 120 (n_width node) in
  let h := default 60 (n_height node) in
  "        <mxCell " +:+ attr "id" ("cell_" +:+ nid) +:+ " " +:+ attr "value" label
    +:+ " " +:+ attr "style" style +:+ " " +:+ attr "vertex" "1" +:+ " "
    +:+ attr "parent" "1" +:+ ">" +:+ nl
    +:+ "          <mxGeometry " +:+ attr "x" (str_int x) +:+ " " +:+ attr "y" (str_int y)
    +:+ " " +:+ attr "width" (str_int w) +:+ " " +:+ attr "height" (str_int h)
    +:+ " " +:+ attr "as" "geometry" +:+ "/>" +:+ nl
    +:+ "        </mxCell>".

Definition drawio_edge_style (e : Edge) : string :=
  "edgeStyle=orthogonalEdgeStyle;rounded=0;html=1;"
    +:+ (if is_dashed e then "dashed=1;" else EmptyString).

Definition drawio_edge_cell (e : Edge) : string :=
  let eid := default EmptyString (e_id e) in
  let fr := default EmptyString (e_from e) in
  let to := default EmptyString (e_to e) in
  let label := html_escape (default EmptyString (e_label e)) in
  "        <mxCell " +:+ attr "id" ("cell_" +:+ eid) +:+ " " +:+ attr "value" label
    +:+ " " +:+ attr "style" (drawio_edge_style e) +:+ " " +:+ attr "edge" "1" +:+ " "
    +:+ attr "parent" "1" +:+ " " +:+ attr "source" ("cell_" +:+ fr) +:+ " "
    +:+ attr "target" ("cell_" +:+ to) +:+ ">" +:+ nl
    +:+ "          <mxGeometry " +:+ attr "relative" "1" +:+ " " +:+ attr "as" "geometry"
    +:+ "/>" +:+ nl
    +:+ "        </mxCell>".

Definition drawio_cells (c : DiagramConverter) : list string :=
  ((fun p => drawio_node_cell (fst p) (snd p)) <$> sorted_nodes c)
  ++ (drawio_edge_cell <$> sorted_edges c).

Definition to_drawio (c : DiagramConverter) : string :=
  "<?xml " +:+ attr "version" "1.0" +:+ " " +:+ attr "encoding" "UTF-8" +:+ "?>" +:+ nl
  +:+ "<mxfile " +:+ attr "host" "diagram-to-vector" +:+ " " +:+ attr "type" "device"
  +:+ ">" +:+ nl
  +:+ "  <diagram " +:+ attr "name" "Page-1" +:+ " " +:+ attr "id" "diagram_1" +:+ ">" +:+ nl
  +:+ "    <mxGraphModel " +:+ attr "dx" "1000" +:+ " " +:+ attr "dy" "600" +:+ " "
  +:+ attr "grid" "1" +:+ " " +:+ attr "gridSize" "10" +:+ ">" +:+ nl
  +:+ "      <root>" +:+ nl
  +:+ "        <mxCell " +:+ attr "id" "0" +:+ "/>" +:+ nl
  +:+ "        <mxCell " +:+ attr "id" "1" +:+ " " +:+ attr "parent" "0" +:+ "/>" +:+ nl
  +:+ join nl (drawio_cells c) +:+ nl
  +:+ "      </root>" +:+ nl
  +:+ "    </mxGraphModel>" +:+ nl
  +:+ "  </diagram>" +:+ nl
  +:+ "</mxfile>".

(** *** to_svg *)

Section ToSvg.
Context `{FL : Floats}.

Definition svg_dash (e : Edge) : string :=
  if is_dashed e then attr "stroke-dasharray" "8,4" else EmptyString.

(** The [<line>] element with the given coordinates. *)
Definition svg_line_element (x1 y1 x2 y2 : string) (edge : Edge) : string :=
  "  <line " +:+ attr "x1" x1 +:+ " " +:+ attr "y1" y1 +:+ " "
  +:+ attr "x2" x2 +:+ " " +:+ attr "y2" y2 +:+ " "
  +:+ attr "stroke" "#333" +:+ " " +:+ attr "stroke-width" "2" +:+ " "
  +:+ svg_dash edge +:+ " " +:+ attr "marker-end" "url(#arrow)" +:+ "/>".

(** The [<line>] element of an edge between the nodes [fn] and [tn]. *)
Definition svg_line (ox oy : Z) (edge : Edge) (fn tn : Node) : result string :=
  fx ← index "x" (n_x fn);
  x1 ← middle_plus fx (default 120 (n_width fn)) ox;
  fy ← index "y" (n_y fn);
  y1 ← middle_plus fy (default 60 (n_height fn)) oy;
  tx ← index "x" (n_x tn);
  x2 ← middle_plus tx (default 120 (n_width tn)) ox;
  ty ← index "y" (n_y tn);
  y2 ← middle_plus ty (default 60 (n_height tn)) oy;
  Ok (svg_line_element (float_str x1) (float_str y1) (float_str x2) (float_str y2) edge).

(** One iteration of the edge loop of [to_svg].  A node dictionary is
    never empty (it has its id), so [not fn] is [fn is None]. *)
Definition svg_edge_step (c : DiagramConverter) (ox oy : Z) (elements : list string)
    (edge : Edge) : result (list string) :=
  fr ← index "from" (e_from edge);
  to ← index "to" (e_to edge);
  match c_nodes c !! fr, c_nodes c !! to with
  | Some fn, Some tn =>
      line ← svg_line ox oy edge fn tn;
      Ok (elements ++ [line])
  | _, _ => Ok elements
  end.

(** The [<rect>] and [<text>] elements of a node. *)
Definition svg_rect_element (x y w h : Z) (fill stroke : string) : string :=
  "  <rect " +:+ attr "x" (str_int x) +:+ " " +:+ attr "y" (str_int y) +:+ " "
  +:+ attr "width" (str_int w) +:+ " " +:+ attr "height" (str_int h) +:+ " "
  +:+ attr "fill" fill +:+ " " +:+ attr "stroke" stroke +:+ " "
  +:+ attr "stroke-width" "2" +:+ " " +:+ attr "rx" "5" +:+ "/>".

Definition svg_text_element (x y label : string) : string :=
  "  <text " +:+ attr "x" x +:+ " " +:+ attr "y" y +:+ " "
  +:+ attr "font-family" "Arial" +:+ " " +:+ attr "font-size" "14" +:+ " "
  +:+ attr "text-anchor" "middle" +:+ ">" +:+ label +:+ "</text>".

(** One iteration of the node loop of [to_svg]. *)
Definition svg_node_step (ox oy : Z) (elements : list string) (p : string * Node)
    : result (list string) :=
  let '(nid, node) := p in
  nx ← index "x" (n_x node);
  ny ← index "y" (n_y node);
  let x := nx + ox in
  let y := ny + oy in
  let w := default 120 (n_width node) in
  let h := default 60 (n_height node) in
  let label := html_escape (node_label nid node) in
  let style := node_style node in
  let fill := default "#fff" (fillColor style) in
  let stroke := default "#333" (strokeColor style) in
  tx ← middle x w;
  ty ← middle_plus y h 5;
  Ok (elements
      ++ [svg_rect_element x y w h fill stroke;
          svg_text_element (float_str tx) (float_str ty) label]).

Definition svg_empty : string :=
  "<svg " +:+ attr "xmlns" "http://www.w3.org/2000/svg" +:+ " " +:+ attr "width" "100"
  +:+ " " +:+ attr "height" "100" +:+ "></svg>".

Definition svg_min_x (c : DiagramConverter) : Z := min_list (node_xs c).
Definition svg_min_y (c : DiagramConverter) : Z := min_list (node_ys c).
Definition svg_max_x (c : DiagramConverter) : Z :=
  max_list ((fun n => default 0 (n_x n) + default 120 (n_width n)) <$> node_values c).
Definition svg_max_y (c : DiagramConverter) : Z :=
  max_list ((fun n => default 0 (n_y n) + default 60 (n_height n)) <$> node_values c).

(** The list [elements] of [to_svg] once both loops have run. *)
Definition svg_elements (c : DiagramConverter) : result (list string) :=
  let pad := 50 in
  let ox := - svg_min_x c + pad in
  let oy := - svg_min_y c + pad in
  elements ← for_each (svg_edge_step c ox oy) [] (sorted_edges c);
  for_each (svg_node_step ox oy) elements (sorted_nodes c).

Definition to_svg (c : DiagramConverter) : result string :=
  if bool_decide (c_nodes c = ∅) then Ok svg_empty
  else
    let pad := 50 in
    let width := svg_max_x c - svg_min_x c + pad * 2 in
    let height := svg_max_y c - svg_min_y c + pad * 2 in
    elements ← svg_elements c;
    Ok ("<svg " +:+ attr "xmlns" "http://www.w3.org/2000/svg" +:+ " "
        +:+ attr "width" (str_int width) +:+ " " +:+ attr "height" (str_int height)
        +:+ ">" +:+ nl
        +:+ "  <defs><marker " +:+ attr "id" "arrow" +:+ " " +:+ attr "markerWidth" "10"
        +:+ " " +:+ attr "markerHeight" "7" +:+ " " +:+ attr "refX" "9" +:+ " "
        +:+ attr "refY" "3.5" +:+ " " +:+ attr "orient" "auto" +:+ ">" +:+ nl
        +:+ "    <polygon " +:+ attr "points" "0 0, 10 3.5, 0 7" +:+ " "
        +:+ attr "fill" "#333" +:+ "/></marker></defs>" +:+ nl
        +:+ join nl elements +:+ nl
        +:+ "</svg>").

(** *** convert *)

Definition convert (c : DiagramConverter) (fmt : string) : result string :=
  let key := lower fmt in
  if bool_decide (key = "mermaid") then Ok (to_mermaid c)
  else if bool_decide (key = "graphviz") then Ok (to_graphviz c)
  else if bool_decide (key = "drawio") then Ok (to_drawio c)
  else if bool_decide (key = "svg") then to_svg c
  else Raise (KeyError key).

End ToSvg.

(** The floats of the sample diagrams: the halves of the ints, each held
    as twice its value.  On ints of magnitude below 2^52 the operations of
    Python are exact and [str] prints the value with one digit after the
    point, as these do. *)
Definition exact_floats : Floats :=
  {| float := Z;
     float_of_int := fun z => Some (2 * z);
     half_of_int := fun z => Some z;
     float_add := Z.add;
     float_str := str_half |}.

(** ** Notions the properties are stated with *)

(** [t] occurs in [s] as a substring. *)
Definition occurs_in (t s : string) : Prop := exists pre post, s = pre +:+ t +:+ post.

Fixpoint prefixb (t s : string) : bool :=
  match t, s with
  | EmptyString, _ => true
  | String a t', String b s' => bool_decide (a = b) && prefixb t' s'
  | String _ _, EmptyString => false
  end.

(** The test [t in s] on strings. *)
Fixpoint containsb (t s : string) : bool :=
  prefixb t s || match s with EmptyString => false | String _ s' => containsb t s' end.

(** [ls] are consecutive lines of [text]: the text is the lines [before],
    then the lines [ls], then the lines [after], joined by newlines. *)
Definition block_of (ls : list string) (text : string) : Prop :=
  exists before after, text = join nl (before ++ ls ++ after).

(** [l] is a line of [text]. *)
Definition line_of (l : string) (text : string) : Prop := block_of [l] text.

(** [s] is the extent of the bounding box of the nodes along the
    coordinate [coord], a missing coordinate counting as 0: the largest
    difference between two nodes. *)
Definition bbox_span (c : DiagramConverter) (coord : Node -> option Z) (s : Z) : Prop :=
  (exists i1 n1 i2 n2,
      c_nodes c !! i1 = Some n1 /\ c_nodes c !! i2 = Some n2
      /\ s = default 0 (coord n1) - default 0 (coord n2))
  /\ (forall i1 n1 i2 n2,
      c_nodes c !! i1 = Some n1 -> c_nodes c !! i2 = Some n2 ->
      default 0 (coord n1) - default 0 (coord n2) <= s).

(** What the four renderers read of a converter. *)
Definition same_view (c1 c2 : DiagramConverter) : Prop :=
  c_nodes c1 = c_nodes c2 /\ c_title c1 = c_title c2
  /\ c_layout_override c1 = c_layout_override c2
  /\ sorted_edges c1 = sorted_edges c2
  /\ sorted_groups c1 = sorted_groups c2
  /\ grouped c1 = grouped c2.

(** Both identifiers of the edge are present and one of them is not the
    id of a node. *)
Definition dangling (c : DiagramConverter) (e : Edge) : bool :=
  match e_from e, e_to e with
  | Some fr, Some to =>
      negb (bool_decide (is_Some (c_nodes c !! fr))
            && bool_decide (is_Some (c_nodes c !! to)))
  | _, _ => false
  end.

(** The converter with the dangling edges taken out of [edges]. *)
Definition without_dangling (c : DiagramConverter) : DiagramConverter :=
  {| c_nodes := c_nodes c;
     c_edges := filter (fun e => dangling c e = false) (c_edges c);
     c_groups := c_groups c;
     c_title := c_title c;
     c_layout_override := c_layout_override c |}.

(** The node carries explicit [x] and [y] keys. *)
Definition has_position (n : Node) : Prop := is_Some (n_x n) /\ is_Some (n_y n).

(** The edge carries [from] and [to] keys. *)
Definition has_endpoints (e : Edge) : Prop := is_Some (e_from e) /\ is_Some (e_to e).

(** An int below [float_limit] in magnitude converts to a float and can
    be halved without [OverflowError]; binary64 holds every such int up to
    rounding. *)
Definition float_limit : Z := 2 ^ 1023.

Definition floats_hold_ints `{FL : Floats} : Prop :=
  forall z, Z.abs z < float_limit ->
    is_Some (float_of_int z) /\ is_Some (half_of_int z).

(** The coordinates and the sizes of the node, with the defaults [to_svg]
    uses for the missing ones, are below [geometry_limit] in magnitude. *)
Definition geometry_limit : Z := 2 ^ 1000.

Definition small_node (n : Node) : Prop :=
  Z.abs (default 0 (n_x n)) < geometry_limit
  /\ Z.abs (default 0 (n_y n)) < geometry_limit
  /\ Z.abs (default 120 (n_width n)) < geometry_limit
  /\ Z.abs (default 60 (n_height n)) < geometry_limit.

Definition small_geometry (c : DiagramConverter) : Prop :=
  forall i n, c_nodes c !! i = Some n -> small_node n.


(** ** Sample inputs *)

(** An element with an id, a type, an inline text and a container
    reference, and nothing else. *)
Definition element (eid type : string) (text container : option string) : Element :=
  {| el_id := Some eid; el_type := Some type; el_isDeleted := false;
     el_text := text; el_containerId := container;
     el_x := None; el_y := None; el_width := None; el_height := None;
     el_backgroundColor := None; el_strokeColor := None; el_strokeStyle := None;
     el_startBinding := None; el_endBinding := None; el_frameId := None;
     el_name := None |}.

(** Two rectangles that carry the same inline text. *)
Definition twin_shapes : list Element :=
  [element "r1" "rectangle" (Some "Foo") None;
   element "r2" "rectangle" (Some "Foo") None].

(** Two shapes, the second inside a frame, and a dashed arrow from the
    first to the second. *)
Definition framed_file : list Element :=
  [element "r1" "rectangle" (Some "Start") None;
   {| el_id := Some "r2"; el_type := Some "diamond"; el_isDeleted := false;
      el_text := Some "End"; el_containerId := None;
      el_x := Some 10; el_y := Some 20; el_width := None; el_height := None;
      el_backgroundColor := Some "transparent"; el_strokeColor := Some "#1e1e1e";
      el_strokeStyle := None; el_startBinding := None; el_endBinding := None;
      el_frameId := Some "f1"; el_name := None |};
   {| el_id := Some "a1"; el_type := Some "arrow"; el_isDeleted := false;
      el_text := None; el_containerId := None;
      el_x := None; el_y := None; el_width := None; el_height := None;
      el_backgroundColor := None; el_strokeColor := None;
      el_strokeStyle := Some "dashed";
      el_startBinding := Some (BindingObject (Some "r1"));
      el_endBinding := Some (BindingObject (Some "r2"));
      el_frameId := None; el_name := None |};
   {| el_id := Some "f1"; el_type := Some "frame"; el_isDeleted := false;
      el_text := None; el_containerId := None;
      el_x := None; el_y := None; el_width := None; el_height := None;
      el_backgroundColor := None; el_strokeColor := None; el_strokeStyle := None;
      el_startBinding := None; el_endBinding := None; el_frameId := None;
      el_name := Some (Some "My Frame") |}].

(** A rectangle inside a frame whose [name] key is as given. *)
Definition framed_by (name : option (option string)) : list Element :=
  [{| el_id := Some "r1"; el_type := Some "rectangle"; el_isDeleted := false;
      el_text := Some "Start"; el_containerId := None;
      el_x := None; el_y := None; el_width := None; el_height := None;
      el_backgroundColor := None; el_strokeColor := None; el_strokeStyle := None;
      el_startBinding := None; el_endBinding := None;
      el_frameId := Some "f1"; el_name := None |};
   {| el_id := Some "f1"; el_type := Some "frame"; el_isDeleted := false;
      el_text := None; el_containerId := None;
      el_x := None; el_y := None; el_width := None; el_height := None;
      el_backgroundColor := None; el_strokeColor := None; el_strokeStyle := None;
      el_startBinding := None; el_endBinding := None; el_frameId := None;
      el_name := name |}].

(** A diamond with an inline text, and a text element bound to it. *)
Definition bound_shape : Element := element "d1" "diamond" (Some "inline") None.
Definition bound_text : Element := element "t1" "text" (Some " Hi ") (Some "d1").

(** A node with an id and coordinates, and nothing else. *)
Definition node (nid : string) (x y : option Z) : Node :=
  {| n_id := nid; n_type := None; n_label := None; n_x := x; n_y := y;
     n_width := None; n_height := None; n_style := None |}.

(** An edge without a label. *)
Definition edge (eid fr to type : option string) (dashed : bool) : Edge :=
  {| e_id := eid; e_from := fr; e_to := to; e_type := type; e_label := None;
     e_style := if dashed then Some {| strokeStyle := Some "dashed" |} else None |}.

Definition node_a : Node := node "a" (Some 0) (Some 0).
Definition node_b : Node := node "b" (Some 200) (Some 0).

Definition diagram (ns : list Node) (es : list Edge) (gs : list Group) : Diagram :=
  {| d_title := None; d_diagramType := None; d_nodes := ns; d_edges := es;
     d_groups := gs |}.

(** Two edges with distinct ids, listed in the two possible orders. *)
Definition edge_ab : Edge := edge (Some "e1") (Some "a") (Some "b") None false.
Definition edge_ba : Edge := edge (Some "e2") (Some "b") (Some "a") None false.
Definition group_g : Group :=
  {| g_id := Some "g"; g_label := Some (Some "G"); g_nodeIds := ["b"] |}.
Definition ordered_1 : Diagram := diagram [node_a; node_b] [edge_ab; edge_ba] [group_g].
Definition ordered_2 : Diagram := diagram [node_b; node_a] [edge_ba; edge_ab] [group_g].

(** Two different edges with the same id, listed in the two possible
    orders. *)
Definition twin_ab : Edge := edge (Some "e") (Some "a") (Some "b") None false.
Definition twin_ba : Edge := edge (Some "e") (Some "b") (Some "a") None false.
Definition twins_1 : Diagram := diagram [node_a; node_b] [twin_ab; twin_ba] [].
Definition twins_2 : Diagram := diagram [node_a; node_b] [twin_ba; twin_ab] [].

(** Converters over the two-node diagram, with and without the position
    layout. *)
Definition positioned : DiagramConverter := init ordered_1 (Some "position").
Definition structured : DiagramConverter := init ordered_1 None.

(** A dashed connector of type [line] from the node [a] to a node that
    does not exist, and the diagram that holds it. *)
Definition dashed_line : Edge :=
  edge (Some "e1") (Some "a") (Some "ghost") (Some "line") true.
Definition dashed_line_diagram : DiagramConverter :=
  init (diagram [node_a] [dashed_line] []) None.

(** A dashed arrow between the two nodes of [ordered_1]. *)
Definition dashed_arrow : Edge := edge (Some "e3") (Some "a") (Some "b") None true.
Definition dashed_arrow_diagram : DiagramConverter :=
  init (diagram [node_a; node_b] [dashed_arrow] []) None.

(** The node [b] inside the group [g], and an edge from [a] to a node
    that does not exist. *)
Definition grouped_diagram : DiagramConverter := init ordered_1 None.
Definition ghost_edge : Edge := edge (Some "e9") (Some "a") (Some "ghost") None false.
Definition ghost_diagram : DiagramConverter :=
  init (diagram [node_a; node_b] [edge_ab; ghost_edge] []) None.

Definition unplaced_diagram : DiagramConverter :=
  init (diagram [node "n" None None] [] []) None.

(** Floats that refuse the ints Python refuses for certain: the
    conversion of an int of magnitude 2^1024 or more, and the half of an
    int of magnitude 2^1025 or more.  (Python also refuses the ints just
    below these bounds that round up to them; no sample has one.) *)
Definition capped_floats : Floats :=
  {| float := Z;
     float_of_int := fun z => if Z.abs z <? 2 ^ 1024 then Some (2 * z) else None;
     half_of_int := fun z => if Z.abs z <? 2 ^ 1025 then Some z else None;
     float_add := Z.add;
     float_str := str_half |}.

(** A positioned node whose width is 10^309. *)
Definition wide_diagram : DiagramConverter :=
  init (diagram [{| n_id := "w"; n_type := None; n_label := None;
                    n_x := Some 0; n_y := Some 0;
                    n_width := Some (10 ^ 309); n_height := None;
                    n_style := None |}] [] []) None.

(** ** Further notions *)

(** The characters of an identifier: [[a-z0-9_]]. *)
Definition is_ident_char (c : ascii) : bool := is_az c || is_09 c || is_underscore c.

(** An identifier in the sense of the docstring of [sanitize_id]: not
    empty, made of [[a-z0-9_]], starting with a letter. *)
Definition identifier (s : string) : Prop :=
  str_forall is_ident_char s = true
  /\ exists c rest, s = String c rest /\ is_az c = true.

(** The node the first pass builds for the shape [el] when [count] nodes
    exist and the collision set is empty. *)
Definition imported_node (elements : list Element) (el : Element) (count : nat) : Node :=
  {| n_id := sanitize_base (shape_label elements el count);
     n_type := Some (excalidraw_shape (default EmptyString (el_type el)));
     n_label := Some (strip isspace (shape_label elements el count));
     n_x := Some (default 0 (el_x el));
     n_y := Some (default 0 (el_y el));
     n_width := Some (default 100 (el_width el));
     n_height := Some (default 50 (el_height el));
     n_style := shape_style el |}.

Fixpoint imported_nodes (elements : list Element) (count : nat) (l : list Element)
    : list Node :=
  match l with
  | [] => []
  | el :: l' =>
      if skipped el then imported_nodes elements count l'
      else imported_node elements el count :: imported_nodes elements (S count) l'
  end.

(** What every node written by the importer has: a type among the three
    shapes the importer keeps, a label, a full geometry, and a style
    without an empty or transparent colour and without a stroke width. *)
Definition complete_node (n : Node) : Prop :=
  n_type n ∈ [Some "rectangle"; Some "diamond"; Some "ellipse"]
  /\ is_Some (n_label n)
  /\ is_Some (n_x n) /\ is_Some (n_y n) /\ is_Some (n_width n) /\ is_Some (n_height n)
  /\ (forall st, n_style n = Some st ->
        (fillColor st ∉ [Some "transparent"; Some EmptyString])
        /\ strokeColor st <> Some EmptyString
        /\ strokeWidth st = None
        /\ (is_Some (fillColor st) \/ is_Some (strokeColor st))).

(** A connector the second pass looks at. *)
Definition live_connector (el : Element) : Prop :=
  (el_type el = Some "arrow" \/ el_type el = Some "line") /\ el_isDeleted el = false.

(** An edge between two nodes of the list, named after them. *)
Definition edge_between (ns : list Node) (e : Edge) : Prop :=
  exists n1 n2,
    n1 ∈ ns /\ n2 ∈ ns
    /\ e_from e = Some (n_id n1) /\ e_to e = Some (n_id n2)
    /\ e_id e = Some (n_id n1 +:+ "_to_" +:+ n_id n2)
    /\ e_type e ∈ [Some "arrow"; Some "line"]
    /\ (forall st, e_style e = Some st -> strokeStyle st = Some "dashed").

(** A group over nodes of the list: it has an id, a [label] key (which
    holds the name of the frame, [null] included) and at least one member,
    and every member is the id of a node. *)
Definition group_over (ns : list Node) (g : Group) : Prop :=
  (exists gid, g_id g = Some gid /\ identifier gid)
  /\ is_Some (g_label g)
  /\ g_nodeIds g <> []
  /\ (forall nid, nid ∈ g_nodeIds g -> exists n, n ∈ ns /\ n_id n = nid).

(** A shape of type [diamond]. *)
Definition diamond_shape (el : Element) : Prop :=
  skipped el = false /\ el_type el = Some "diamond".

(** One of the two bindings of the element is [null]. *)
Definition null_bound (el : Element) : Prop :=
  el_startBinding el = Some BindingNull \/ el_endBinding el = Some BindingNull.

(** An arrow with a [null] start binding, as Excalidraw writes an arrow
    that is attached to nothing, after a rectangle. *)
Definition loose_arrow : Element :=
  {| el_id := Some "a1"; el_type := Some "arrow"; el_isDeleted := false;
     el_text := None; el_containerId := None;
     el_x := None; el_y := None; el_width := None; el_height := None;
     el_backgroundColor := None; el_strokeColor := None; el_strokeStyle := None;
     el_startBinding := Some BindingNull; el_endBinding := Some BindingNull;
     el_frameId := None; el_name := None |}.
Definition loose_arrow_file : list Element :=
  [element "r1" "rectangle" (Some "Start") None; loose_arrow].

(** Two nodes with the same id and different labels. *)
Definition first_a : Node :=
  {| n_id := "a"; n_type := None; n_label := Some "first"; n_x := None; n_y := None;
     n_width := None; n_height := None; n_style := None |}.
Definition second_a : Node :=
  {| n_id := "a"; n_type := None; n_label := Some "second"; n_x := None; n_y := None;
     n_width := None; n_height := None; n_style := None |}.
Definition repeated_id : Diagram := diagram [first_a; node_b; second_a] [] [].

(** The characters that would end an attribute value or open a tag. *)
Definition is_markup (c : ascii) : bool :=
  bool_decide (c = "<"%char) || bool_decide (c = ">"%char)
  || bool_decide (c = "034"%char) || bool_decide (c = "'"%char).

(** The characters [html.escape] rewrites. *)
Definition is_html_special (c : ascii) : bool :=
  bool_decide (c = "&"%char) || is_markup c.

(** The entity [html.escape] writes for one character. *)
Definition html_entity (c : ascii) : string :=
  if bool_decide (c = "&"%char) then "&amp;"
  else if bool_decide (c = "<"%char) then "&lt;"
  else if bool_decide (c = ">"%char) then "&gt;"
  else if bool_decide (c = "034"%char) then "&quot;"
  else if bool_decide (c = "'"%char) then "&#x27;"
  else String c EmptyString.

(** The characters [_mermaid_node] takes out of a label. *)
Definition is_mermaid_delimiter (c : ascii) : bool :=
  bool_decide (c = "034"%char) || bool_decide (c = "["%char) || bool_decide (c = "]"%char).

(** What [_mermaid_node] makes of one character of a label. *)
Definition mermaid_char (a : ascii) : ascii :=
  if bool_decide (a = "034"%char) then "'"%char
  else if bool_decide (a = "["%char) then "("%char
  else if bool_decide (a = "]"%char) then ")"%char
  else a.

(** The string with [f] applied to each of its characters. *)
Fixpoint map_chars (f : ascii -> ascii) (s : string) : string :=
  match s with
  | EmptyString => EmptyString
  | String a s' => String (f a) (map_chars f s')
  end.

(** [get_ext]: the file extension of a format name, as given. *)
Definition get_ext (fmt : string) : string :=
  if bool_decide (fmt = "mermaid") then ".mmd"
  else if bool_decide (fmt = "graphviz") then ".dot"
  else if bool_decide (fmt = "drawio") then ".drawio"
  else if bool_decide (fmt = "svg") then ".svg"
  else ".txt".

(** [s.split(sep)] for a one-character separator. *)
Fixpoint split (sep : ascii) (s : string) : list string :=
  match s with
  | EmptyString => [EmptyString]
  | String c s' =>
      if bool_decide (c = sep) then EmptyString :: split sep s'
      else match split sep s' with
           | piece :: pieces => String c piece :: pieces
           | [] => [String c EmptyString]
           end
  end.

(** The list [formats] of [main] in convert.py:
    [[f.strip().lower() for f in args.format.split(',')]]. *)
Definition parse_formats (format : string) : list string :=
  (fun f => lower (strip isspace f)) <$> split ","%char format.

(** A group that lists the node [b] and an id that no node has. *)
Definition half_group : Group :=
  {| g_id := Some "h"; g_label := None; g_nodeIds := ["b"; "ghost"] |}.
Definition half_group_diagram : DiagramConverter :=
  init (diagram [node_a; node_b] [] [half_group]) None.

(** The four format names. *)
Definition format_names : list string := ["mermaid"; "graphviz"; "drawio"; "svg"].

(** The opening tag of the document of [to_svg] for a canvas of the given
    size, and the head of the [rect] element of a node box. *)
Definition svg_open (width height : Z) : string :=
  "<svg " +:+ attr "xmlns" "http://www.w3.org/2000/svg" +:+ " "
  +:+ attr "width" (str_int width) +:+ " " +:+ attr "height" (str_int height) +:+ ">".

Definition svg_rect_open (x y w h : Z) : string :=
  "  <rect " +:+ attr "x" (str_int x) +:+ " " +:+ attr "y" (str_int y) +:+ " "
  +:+ attr "width" (str_int w) +:+ " " +:+ attr "height" (str_int h) +:+ " ".

(** No two underscores of the string are adjacent; with
    [after_underscore], the string does not start with one either. *)
Fixpoint tidy (after_underscore : bool) (s : string) : bool :=
  match s with
  | EmptyString => true
  | String c s' =>
      if is_underscore c then negb after_underscore && tidy true s'
      else tidy false s'
  end.

(** The element with its [isDeleted] key set to [b]. *)
Definition with_isDeleted (b : bool) (el : Element) : Element :=
  {| el_id := el_id el; el_type := el_type el; el_isDeleted := b;
     el_text := el_text el; el_containerId := el_containerId el;
     el_x := el_x el; el_y := el_y el;
     el_width := el_width el; el_height := el_height el;
     el_backgroundColor := el_backgroundColor el;
     el_strokeColor := el_strokeColor el; el_strokeStyle := el_strokeStyle el;
     el_startBinding := el_startBinding el; el_endBinding := el_endBinding el;
     el_frameId := el_frameId el; el_name := el_name el |}.

(** An element with its [isDeleted] key set as [flag] says when it is a
    text element, and as it is otherwise. *)
Definition reflag_text (flag : Element -> bool) (el : Element) : Element :=
  if bool_decide (el_type el = Some "text") then with_isDeleted (flag el) el else el.

(** The elements of a file with the text elements deleted or restored as
    [flag] says. *)
Definition reflag_texts (flag : Element -> bool) (elements : list Element)
    : list Element :=
  reflag_text flag <$> elements.

(** A set of names taken before [sanitize_id] is called. *)
Definition taken_names : gset string := {["bar"; "bar_2"; "bar_3"]}.

(** * Properties *)

(** ** Strings *)

Lemma append_cons c (s1 s2 : string) : String c s1 +:+ s2 = String c (s1 +:+ s2).
Proof. reflexivity. Qed.

Lemma append_empty_l (s : string) : EmptyString +:+ s = s.
Proof. reflexivity. Qed.

Lemma append_empty_r (s : string) : s +:+ EmptyString = s.
Proof. induction s as [|c s IH]; [reflexivity | by rewrite append_cons, IH]. Qed.

Lemma append_assoc (s1 s2 s3 : string) : (s1 +:+ s2) +:+ s3 = s1 +:+ s2 +:+ s3.
Proof. induction s1 as [|c s1 IH]; [reflexivity | by rewrite !append_cons, IH]. Qed.

Lemma str_exists_append p s1 s2 :
  str_exists p (s1 +:+ s2) = str_exists p s1 || str_exists p s2.
Proof.
  induction s1 as [|c s1 IH]; [reflexivity|].
  rewrite append_cons. simpl. by rewrite IH, orb_assoc.
Qed.

Lemma str_forall_append p s1 s2 :
  str_forall p (s1 +:+ s2) = str_forall p s1 && str_forall p s2.
Proof.
  induction s1 as [|c s1 IH]; [reflexivity|].
  rewrite append_cons. simpl. by rewrite IH, andb_assoc.
Qed.

(** A character that the class does not match survives [re.sub]. *)
Lemma re_sub_go_exists cls repl p b s :
  (forall c, p c = true -> cls c = false) ->
  str_exists p s = true -> str_exists p (re_sub_go cls repl b s) = true.
Proof.
  intros Hp. revert b. induction s as [|c s IH]; intros b; simpl; [done|].
  destruct (p c) eqn:Hc; simpl.
  - intros _. rewrite (Hp c Hc). simpl. by rewrite Hc.
  - intros Hs. destruct (cls c).
    + destruct b; [by apply IH|].
      rewrite str_exists_append. rewrite (IH true Hs). apply orb_true_r.
    + simpl. rewrite Hc. simpl. by apply IH.
Qed.

(** What [re.sub] leaves is made of the replacement and of characters
    outside the class. *)
Lemma re_sub_go_forall cls repl p b s :
  (forall c, cls c = false -> p c = true) ->
  str_forall p repl = true ->
  str_forall p (re_sub_go cls repl b s) = true.
Proof.
  intros Hp Hr. revert b. induction s as [|c s IH]; intros b; simpl; [done|].
  destruct (cls c) eqn:Hc.
  - destruct b; [apply IH|]. rewrite str_forall_append, Hr. apply IH.
  - simpl. rewrite (Hp c Hc). apply IH.
Qed.

Lemma re_sub_go_keeps_forall cls repl p b s :
  str_forall p repl = true -> str_forall p s = true ->
  str_forall p (re_sub_go cls repl b s) = true.
Proof.
  intros Hr. revert b. induction s as [|c s IH]; intros b; simpl; [done|].
  intros [Hc Hs]%andb_true_iff. destruct (cls c).
  - destruct b; [by apply IH|]. rewrite str_forall_append, Hr. by apply IH.
  - simpl. rewrite Hc. by apply IH.
Qed.

(** A string made of characters of the class collapses to one replacement. *)
Lemma re_sub_go_all cls repl b s :
  str_forall cls s = true ->
  re_sub_go cls repl b s = if b || is_empty s then EmptyString else repl.
Proof.
  revert b. induction s as [|c s IH]; intros b; simpl.
  - intros _. by rewrite orb_true_r.
  - intros [Hc Hs]%andb_true_iff. rewrite Hc, orb_false_r.
    rewrite (IH true Hs). simpl. destruct b; [done|]. apply append_empty_r.
Qed.

Lemma lstrip_exists cls p s :
  (forall c, p c = true -> cls c = false) ->
  str_exists p s = true -> str_exists p (lstrip cls s) = true.
Proof.
  intros Hp. induction s as [|c s IH]; simpl; [done|].
  destruct (cls c) eqn:Hc; [|done].
  destruct (p c) eqn:Hpc; [by rewrite (Hp c Hpc) in Hc | done].
Qed.

Lemma rstrip_exists cls p s :
  (forall c, p c = true -> cls c = false) ->
  str_exists p s = true -> str_exists p (rstrip cls s) = true.
Proof.
  intros Hp. induction s as [|c s IH]; simpl; [done|].
  destruct (p c) eqn:Hpc; simpl.
  - intros _. rewrite (Hp c Hpc). simpl. by rewrite Hpc.
  - intros Hs. specialize (IH Hs).
    destruct (rstrip cls s) as [|c' r] eqn:Hr; [done|].
    rewrite andb_false_r. simpl. by rewrite Hpc.
Qed.

Lemma lstrip_forall cls p s :
  str_forall p s = true -> str_forall p (lstrip cls s) = true.
Proof.
  induction s as [|c s IH]; simpl; [done|].
  intros H. destruct (cls c); [|done].
  apply IH. by apply andb_true_iff in H as [_ ?].
Qed.

Lemma rstrip_forall cls p s :
  str_forall p s = true -> str_forall p (rstrip cls s) = true.
Proof.
  induction s as [|c s IH]; simpl; [done|].
  intros [Hc Hs]%andb_true_iff.
  destruct (cls c && is_empty (rstrip cls s)); [done|].
  simpl. rewrite Hc. by apply IH.
Qed.

Lemma str_exists_nonempty p s : str_exists p s = true -> is_empty s = false.
Proof. by destruct s. Qed.

(** ** Loops that can raise *)

Section ForEach.
Context {A S : Type} (body : S -> A -> result S).

Lemma for_each_cons acc a l :
  for_each body acc (a :: l) =
    match body acc a with Ok acc' => for_each body acc' l | Raise e => Raise e end.
Proof. reflexivity. Qed.

(** The loop ends normally when every iteration does. *)
Lemma for_each_succeeds (l : list A) acc :
  (forall a acc, a ∈ l -> exists acc', body acc a = Ok acc') ->
  exists r, for_each body acc l = Ok r.
Proof.
  revert acc. induction l as [|a l IH]; intros acc Hall; [by exists acc|].
  rewrite for_each_cons.
  destruct (Hall a acc) as [acc' ->]; [by left|].
  apply IH. intros b acc0 Hb. apply Hall. by right.
Qed.

(** When the loop ends normally, every iteration did. *)
Lemma for_each_succeeded (l : list A) acc r a :
  for_each body acc l = Ok r -> a ∈ l ->
  exists acc0 acc1, body acc0 a = Ok acc1.
Proof.
  revert acc. induction l as [|b l IH]; intros acc Hr Ha; [by apply elem_of_nil in Ha|].
  rewrite for_each_cons in Hr.
  destruct (body acc b) as [acc'|] eqn:Hb; [|done].
  apply elem_of_cons in Ha as [->|Ha]; [by exists acc, acc'|].
  by apply (IH acc').
Qed.

(** Iterations that leave the accumulator alone can be dropped. *)
Lemma for_each_filter (P : A -> Prop) `{!forall a, Decision (P a)} (l : list A) acc :
  (forall a acc, ~ P a -> body acc a = Ok acc) ->
  for_each body acc (filter P l) = for_each body acc l.
Proof.
  intros Hskip. revert acc. induction l as [|a l IH]; intros acc; [done|].
  rewrite filter_cons, (for_each_cons acc a l). destruct (decide (P a)) as [Hp|Hp].
  - rewrite for_each_cons. destruct (body acc a); [apply IH | done].
  - rewrite (Hskip a acc Hp). apply IH.
Qed.

(** When the loop raises, an iteration raised. *)
Lemma for_each_raised (l : list A) acc e :
  for_each body acc l = Raise e -> exists acc0 a, a ∈ l /\ body acc0 a = Raise e.
Proof.
  revert acc. induction l as [|b l IH]; intros acc Hr; [done|].
  rewrite for_each_cons in Hr. destruct (body acc b) as [acc'|e'] eqn:Hb.
  - destruct (IH _ Hr) as (acc0 & a & Ha & Hraise). exists acc0, a. split; [by right|done].
  - injection Hr as ->. exists acc, b. split; [by left|done].
Qed.

End ForEach.

Section ForEachList.
Context {A B : Type} (body : list B -> A -> result (list B)).
Hypothesis body_grows :
  forall acc a acc', body acc a = Ok acc' -> exists more, acc' = acc ++ more.

(** A loop whose iterations only append keeps what it has. *)
Lemma for_each_grows (l : list A) acc r :
  for_each body acc l = Ok r -> exists more, r = acc ++ more.
Proof.
  revert acc. induction l as [|a l IH]; intros acc Hr.
  - injection Hr as <-. exists []. by rewrite app_nil_r.
  - rewrite for_each_cons in Hr. destruct (body acc a) as [acc'|] eqn:Ha; [|done].
    destruct (body_grows _ _ _ Ha) as [m1 ->].
    destruct (IH _ Hr) as [m2 ->]. exists (m1 ++ m2). by rewrite app_assoc.
Qed.

(** What an iteration appends is in the result. *)
Lemma for_each_contributes (l : list A) acc r a x :
  for_each body acc l = Ok r -> a ∈ l ->
  (forall acc0 acc1, body acc0 a = Ok acc1 -> x ∈ acc1) ->
  x ∈ r.
Proof.
  revert acc. induction l as [|b l IH]; intros acc Hr Ha Hx; [by apply elem_of_nil in Ha|].
  rewrite for_each_cons in Hr. destruct (body acc b) as [acc'|] eqn:Hb; [|done].
  apply elem_of_cons in Ha as [->|Ha].
  - destruct (for_each_grows _ _ _ Hr) as [more ->].
    apply elem_of_app. left. by apply (Hx acc).
  - by apply (IH acc').
Qed.

End ForEachList.

(** ** Results *)

Lemma bind_Ok_inv {A B} (r : result A) (k : A -> result B) b :
  r ≫= k = Ok b -> exists a, r = Ok a /\ k a = Ok b.
Proof. destruct r as [a|e]; [by exists a | done]. Qed.

Lemma index_Ok_inv {A} key (o : option A) a : index key o = Ok a -> o = Some a.
Proof. destruct o; simpl; congruence. Qed.

Lemma bind_Raise_inv {A B} (r : result A) (k : A -> result B) e :
  r ≫= k = Raise e -> r = Raise e \/ exists a, r = Ok a /\ k a = Raise e.
Proof.
  destruct r as [a|e']; intros H; [right; by exists a|].
  left. injection H as ->. reflexivity.
Qed.

Lemma index_Raise_inv {A} key (o : option A) e :
  index key o = Raise e -> e = KeyError key.
Proof. destruct o; simpl; congruence. Qed.


(** ** sanitize_id *)

Lemma lower_char_cases c :
  is_AZ (lower_char c) = false /\
  (negb (not_alnum c) = true -> negb (spec_outside (lower_char c)) = true) /\
  (not_alnum c = true -> spec_outside (lower_char c) = true).
Proof. destruct c as [[] [] [] [] [] [] [] []]; vm_compute; auto. Qed.

Lemma kept_char_cases c :
  (negb (spec_outside c) = true -> is_underscore c = false) /\
  (negb (spec_outside c) || is_underscore c = true -> isdigit c = is_09 c).
Proof. destruct c as [[] [] [] [] [] [] [] []]; vm_compute; auto. Qed.

Lemma re_sub_lower b s :
  re_sub_go not_alnum "_" b (lower s) = re_sub_go spec_outside "_" b (lower s).
Proof.
  revert b. induction s as [|c s IH]; intros b; simpl; [done|].
  assert (not_alnum (lower_char c) = spec_outside (lower_char c)) as ->.
  { unfold not_alnum, spec_outside.
    by rewrite (proj1 (lower_char_cases c)), orb_false_r. }
  by rewrite !IH.
Qed.

Lemma lower_exists s :
  has_alnum s = true -> str_exists (fun c => negb (spec_outside c)) (lower s) = true.
Proof.
  unfold has_alnum. induction s as [|c s IH]; simpl; [done|].
  intros [Hc|Hs]%orb_true_iff.
  - by rewrite (proj1 (proj2 (lower_char_cases c)) Hc).
  - rewrite (IH Hs). apply orb_true_r.
Qed.

Lemma lower_forall s :
  has_alnum s = false -> str_forall spec_outside (lower s) = true.
Proof.
  unfold has_alnum. induction s as [|c s IH]; simpl; [done|].
  intros [Hc Hs]%orb_false_iff. apply negb_false_iff in Hc.
  by rewrite (proj2 (proj2 (lower_char_cases c)) Hc), (IH Hs).
Qed.

Lemma cleaned_alnum text :
  has_alnum text = true ->
  exists c rest, cleaned text = String c rest /\ isdigit c = is_09 c.
Proof.
  intros Hal. unfold cleaned, strip, re_sub.
  set (q := fun c => negb (spec_outside c)).
  set (k := fun c => negb (spec_outside c) || is_underscore c).
  assert (Hq : forall c, q c = true -> is_underscore c = false).
  { intros c. apply (proj1 (kept_char_cases c)). }
  set (s1 := re_sub_go spec_outside "_" false (lower text)).
  assert (E1 : str_exists q s1 = true).
  { apply re_sub_go_exists; [|by apply lower_exists].
    intros c. unfold q. by intros ->%negb_true_iff. }
  assert (F1 : str_forall k s1 = true).
  { apply re_sub_go_forall; [|done]. intros c Hc. unfold k. by rewrite Hc. }
  set (s2 := re_sub_go is_underscore "_" false s1).
  assert (E2 : str_exists q s2 = true) by by apply re_sub_go_exists.
  assert (F2 : str_forall k s2 = true) by by apply re_sub_go_keeps_forall.
  assert (E3 : str_exists q (rstrip is_underscore (lstrip is_underscore s2)) = true).
  { apply rstrip_exists; [done|]. by apply lstrip_exists. }
  assert (F3 : str_forall k (rstrip is_underscore (lstrip is_underscore s2)) = true).
  { apply rstrip_forall. by apply lstrip_forall. }
  destruct (rstrip is_underscore (lstrip is_underscore s2)) as [|c rest]; [done|].
  exists c, rest. split; [done|].
  simpl in F3. apply andb_true_iff in F3 as [Hc _].
  by apply (proj2 (kept_char_cases c)).
Qed.

Lemma cleaned_no_alnum text :
  has_alnum text = false -> cleaned text = EmptyString.
Proof.
  intros Hal. unfold cleaned, re_sub.
  rewrite (re_sub_go_all spec_outside "_" false (lower text)) by by apply lower_forall.
  simpl. by destruct (is_empty (lower text)).
Qed.

Lemma sanitize_base_cleaned text :
  is_empty text = false ->
  sanitize_base text =
    if is_empty (cleaned text) || from_option isdigit false (head_char (cleaned text))
    then "node_" +:+ cleaned text else cleaned text.
Proof.
  intros Hne. unfold sanitize_base. rewrite Hne.
  assert (re_sub not_alnum "_" (lower text) = re_sub spec_outside "_" (lower text))
    as -> by apply re_sub_lower.
  reflexivity.
Qed.

Lemma lower_char_kept c : is_az (lower_char c) || is_09 (lower_char c) = negb (not_alnum c).
Proof. destruct c as [[] [] [] [] [] [] [] []]; by vm_compute. Qed.

(** Below code point 256 the lowercase form has a character of [[a-z0-9]]
    exactly when the text has one of [[a-zA-Z0-9]]. *)
Lemma lower_kept s : str_exists (fun c => is_az c || is_09 c) (lower s) = has_alnum s.
Proof.
  unfold has_alnum. induction s as [|c s IH]; [done|]. simpl.
  by rewrite lower_char_kept, IH.
Qed.

(** C2 (as amended): without a collision set, [sanitize_id] agrees with the
    reference definition of the specification on the empty input and on
    every input whose lowercase form has a character of [[a-z0-9]]; on a
    non-empty input whose lowercase form has none, nothing is left after
    the cleaning and it returns [node_] where the reference gives [node].
    The four examples of the specification hold. *)
Theorem sanitize_id_reference (text : string) :
  fst (sanitize_id text None) =
    (if is_empty text || str_exists (fun c => is_az c || is_09 c) (lower text)
     then spec_sanitize text else "node_")
  /\ fst (sanitize_id EmptyString None) = "node"
  /\ fst (sanitize_id "123abc" None) = "node_123abc"
  /\ fst (sanitize_id "foo@bar#baz!" None) = "foo_bar_baz"
  /\ fst (sanitize_id "foo___bar" None) = "foo_bar".
Proof.
  split; [|by vm_compute].
  rewrite lower_kept.
  simpl. destruct (is_empty text) eqn:Hne.
  - destruct text; [by vm_compute | done].
  - rewrite (sanitize_base_cleaned _ Hne). simpl.
    unfold spec_sanitize. fold (re_sub spec_outside "_" (lower text)).
    fold (cleaned text).
    destruct (has_alnum text) eqn:Hal.
    + destruct (cleaned_alnum _ Hal) as (c & rest & -> & Hd). simpl.
      rewrite Hd. reflexivity.
    + by rewrite (cleaned_no_alnum _ Hal).
Qed.

(** C2 (as stated) fails: a label of punctuation only sanitizes to [node_],
    the reference definition gives [node]. *)
Lemma sanitize_id_reference_differs :
  fst (sanitize_id "@@@" None) <> spec_sanitize "@@@".
Proof. by vm_compute. Qed.

(** *** The suffix loop *)

Lemma candidate_neq_orig orig i : candidate orig i <> orig.
Proof.
  unfold candidate. intros H.
  rewrite <- (append_empty_r orig) in H at 2.
  apply String.app_inj in H. discriminate.
Qed.

Lemma candidate_inj orig i j : candidate orig i = candidate orig j -> i = j.
Proof.
  unfold candidate. intros H. apply String.app_inj in H.
  rewrite !(append_cons "_"%char) in H. injection H as H.
  rewrite !append_empty_l in H. by apply (inj pretty) in H.
Qed.

(** The loop leaves with a name outside the set before its fuel runs out:
    the candidates are pairwise distinct and the set is finite.  [tried]
    is the set of candidates found taken so far. *)
Lemma suffix_loop_go_free (ex : gset string) orig fuel (tried : gset string) cand i :
  cand ∉ tried ->
  (forall j, (i <= j)%N -> (candidate orig j ∉ tried) /\ candidate orig j <> cand) ->
  tried ⊆ ex ->
  (size ex < fuel + size tried)%nat ->
  suffix_loop fuel ex orig cand i ∉ ex.
Proof.
  revert tried cand i. induction fuel as [|fuel IH]; intros tried cand i Hc Hfut Hsub Hsz.
  - apply subseteq_size in Hsub. lia.
  - simpl. destruct (decide (cand ∈ ex)) as [Hin|Hout]; [|done].
    apply (IH ({[cand]} ∪ tried)).
    + destruct (Hfut i) as [Hi1 Hi2]; [lia|].
      rewrite elem_of_union, elem_of_singleton. by intros [?|?].
    + intros j Hj. destruct (Hfut j) as [Hj1 Hj2]; [lia|]. split.
      * rewrite elem_of_union, elem_of_singleton. by intros [?|?].
      * intros E. apply candidate_inj in E. lia.
    + intros x. rewrite elem_of_union, elem_of_singleton.
      intros [->|Hx]; [done | by apply Hsub].
    + rewrite size_union, size_singleton; [lia|].
      intros x. rewrite elem_of_singleton. by intros -> ?.
Qed.

Lemma suffix_loop_free (ex : gset string) orig :
  suffix_loop (S (size ex)) ex orig orig 2 ∉ ex.
Proof.
  apply (suffix_loop_go_free ex orig _ ∅).
  - set_solver.
  - intros j _. split; [set_solver | apply candidate_neq_orig].
  - set_solver.
  - rewrite size_empty. lia.
Qed.

(** The name the loop leaves with is the first free one: the candidate it
    started from, or [orig_k] with every earlier candidate taken. *)
Lemma suffix_loop_first (ex : gset string) orig fuel cand i :
  suffix_loop fuel ex orig cand i ∉ ex ->
  suffix_loop fuel ex orig cand i = cand
  \/ (cand ∈ ex /\ exists k, (i <= k)%N /\
      suffix_loop fuel ex orig cand i = candidate orig k /\
      forall j, (i <= j < k)%N -> candidate orig j ∈ ex).
Proof.
  revert cand i. induction fuel as [|fuel IH]; intros cand i; simpl; [by left|].
  destruct (decide (cand ∈ ex)) as [Hin|Hout]; [|by left].
  intros Hfree. right. split; [done|].
  destruct (IH _ _ Hfree) as [E|(Hc & k & Hk & E & Hall)].
  - exists i. split; [lia|]. split; [done|]. intros j Hj. lia.
  - exists k. split; [lia|]. split; [done|].
    intros j Hj. destruct (decide (j = i)) as [->|Hne]; [done|].
    apply Hall. lia.
Qed.

(** With a non-empty collision set, [sanitize_id] returns the first free
    name among [orig], [orig_2], [orig_3], ... and records it. *)
Lemma sanitize_id_collision text (ex : gset string) :
  ex <> ∅ ->
  let orig := sanitize_base text in
  let r := fst (sanitize_id text (Some ex)) in
  (r ∉ ex)
  /\ snd (sanitize_id text (Some ex)) = Some ({[r]} ∪ ex)
  /\ (r = orig \/
      (orig ∈ ex /\ exists k, (2 <= k)%N /\ r = candidate orig k /\
       forall j, (2 <= j < k)%N -> candidate orig j ∈ ex)).
Proof.
  intros Hne. unfold sanitize_id. destruct (decide (ex = ∅)) as [|_]; [done|].
  cbn [fst snd]. split; [apply suffix_loop_free|]. split; [done|].
  apply suffix_loop_first, suffix_loop_free.
Qed.

(** With the empty collision set, the state [parse_excalidraw] starts
    from, [sanitize_id] records nothing. *)
Lemma sanitize_id_empty_set text :
  sanitize_id text (Some ∅) = (sanitize_base text, Some ∅).
Proof. unfold sanitize_id. by destruct (decide (∅ =@{gset string} ∅)). Qed.

(** *** The first pass *)

Lemma shape_step_skipped elements st el :
  skipped el = true -> shape_step elements st el = st.
Proof. unfold shape_step. by intros ->. Qed.

Lemma shape_step_shape elements st el :
  skipped el = false -> existing st = ∅ ->
  exists node,
    nodes (shape_step elements st el) = nodes st ++ [node]
    /\ existing (shape_step elements st el) = ∅
    /\ id_map (shape_step elements st el) = <[el_id el := n_id node]> (id_map st)
    /\ n_id node = sanitize_base (shape_label elements el (length (nodes st)))
    /\ n_label node = Some (strip isspace (shape_label elements el (length (nodes st)))).
Proof.
  intros Hsk Hex. unfold shape_step. rewrite Hsk, Hex, sanitize_id_empty_set.
  eexists (Build_Node _ _ _ _ _ _ _ _). by simpl.
Qed.

(** The collision set of the first pass is empty at every iteration. *)
Lemma first_pass_go_existing elements l st :
  existing st = ∅ -> existing (foldl (shape_step elements) st l) = ∅.
Proof.
  revert st. induction l as [|el l IH]; intros st Hex; simpl; [done|].
  apply IH. destruct (skipped el) eqn:Hsk.
  - by rewrite shape_step_skipped.
  - by destruct (shape_step_shape elements st el Hsk Hex) as (node & _ & ? & _).
Qed.

Lemma first_pass_existing elements : existing (first_pass elements) = ∅.
Proof. by apply first_pass_go_existing. Qed.

(** The loop only appends to [nodes]. *)
Lemma first_pass_go_nodes elements l st :
  existing st = ∅ ->
  exists more, nodes (foldl (shape_step elements) st l) = nodes st ++ more.
Proof.
  revert st. induction l as [|el l IH]; intros st Hex; simpl.
  - exists []. by rewrite app_nil_r.
  - destruct (skipped el) eqn:Hsk.
    + rewrite shape_step_skipped by done. by apply IH.
    + destruct (shape_step_shape elements st el Hsk Hex) as (node & Hn & Hex' & _).
      destruct (IH _ Hex') as [more Hm].
      exists (node :: more). rewrite Hm, Hn. by rewrite <- app_assoc.
Qed.

Lemma first_pass_go_lookup elements pre el post st :
  existing st = ∅ -> skipped el = false ->
  let k := (length (nodes st) + shapes_in pre)%nat in
  exists node,
    nodes (foldl (shape_step elements) st (pre ++ el :: post)) !! k = Some node
    /\ n_id node = sanitize_base (shape_label elements el k)
    /\ n_label node = Some (strip isspace (shape_label elements el k)).
Proof.
  revert st. induction pre as [|e pre IH]; intros st Hex Hsk; simpl.
  - destruct (shape_step_shape elements st el Hsk Hex)
      as (node & Hn & Hex' & _ & Hid & Hlab).
    destruct (first_pass_go_nodes elements post _ Hex') as [more Hm].
    exists node. unfold shapes_in. simpl. rewrite Nat.add_0_r.
    split; [|done]. rewrite Hm, Hn, <- app_assoc. simpl.
    by apply list_lookup_middle.
  - unfold shapes_in. rewrite filter_cons.
    destruct (skipped e) eqn:Hse.
    + rewrite shape_step_skipped by done.
      destruct (decide (true = false)) as [|_]; [done|]. by apply IH.
    + destruct (decide (false = false)) as [_|]; [|done].
      destruct (shape_step_shape elements st e Hse Hex) as (node & Hn & Hex' & _).
      specialize (IH _ Hex' Hsk).
      simpl in IH. rewrite Hn, length_app in IH. simpl in IH. simpl.
      replace (length (nodes st) + S (length (filter (fun e0 => skipped e0 = false) pre)))%nat
        with (length (nodes st) + 1 + shapes_in pre)%nat by (unfold shapes_in; lia).
      exact IH.
Qed.

(** *** The label *)

Lemma find_bound_text_first eid elements :
  find_bound_text eid elements =
    from_option (fun t => default EmptyString (el_text t)) EmptyString
                (first_bound eid elements).
Proof.
  unfold first_bound. induction elements as [|t l IH]; simpl; [done|].
  destruct (decide (el_type t = Some "text" /\ el_containerId t = eid)) as [[H1 H2]|Hn].
  - by rewrite !bool_decide_eq_true_2.
  - rewrite IH. destruct (list_find _ l) as [[? ?]|]; simpl.
    + destruct (bool_decide (el_type t = Some "text")) eqn:E1;
        destruct (bool_decide (el_containerId t = eid)) eqn:E2; simpl; try done.
      apply bool_decide_eq_true in E1, E2. by destruct Hn.
    + destruct (bool_decide (el_type t = Some "text")) eqn:E1;
        destruct (bool_decide (el_containerId t = eid)) eqn:E2; simpl; try done.
      apply bool_decide_eq_true in E1, E2. by destruct Hn.
Qed.

Lemma shape_label_spec elements el k :
  shape_label elements el k = spec_label el elements k.
Proof.
  unfold shape_label, spec_label. rewrite find_bound_text_first.
  assert (pretty (k + 1)%nat = pretty (N.of_nat k + 1)%N) as ->.
  { unfold pretty at 1, pretty_nat. f_equal. lia. }
  destruct (first_bound (el_id el) elements) as [t|]; simpl;
    unfold str_or; simpl.
  - destruct (truthy (default EmptyString (el_text t))) eqn:Ht; simpl.
    + by rewrite Ht.
    + destruct (el_text el) as [txt|]; simpl; [|done].
      destruct (truthy txt) eqn:Htxt; by rewrite ?Htxt.
  - destruct (el_text el) as [txt|]; simpl; [|done].
    destruct (truthy txt) eqn:Htxt; by rewrite ?Htxt.
Qed.

(** C6: in the first pass every shape (an element that is not a connector,
    not a free text and not deleted) becomes the node at the position given
    by the number of shapes before it, and the label of that node is
    resolved as the specification says: the text of the first text element
    whose container reference is the id of the shape if that text is not
    empty, else the inline text of the shape if not empty, else [Shape N]
    with N one more than the number of shapes before it.  The node stores
    the label with the white space around it stripped, and its id is the
    sanitized label. *)
Theorem label_precedence (pre post : list Element) (el : Element) :
  skipped el = false ->
  let elements := pre ++ el :: post in
  let label := spec_label el elements (shapes_in pre) in
  exists node,
    parse_nodes elements !! shapes_in pre = Some node
    /\ n_label node = Some (strip isspace label)
    /\ exists ex, n_id node = fst (sanitize_id label (Some ex)).
Proof.
  intros Hsk elements label.
  destruct (first_pass_go_lookup elements pre el post
              {| id_map := ∅; existing := ∅; nodes := [] |} eq_refl Hsk)
    as (node & Hlook & Hid & Hlab).
  simpl in Hlook, Hid, Hlab. rewrite shape_label_spec in Hid, Hlab.
  exists node. split; [exact Hlook|]. split; [exact Hlab|].
  exists ∅. by rewrite sanitize_id_empty_set.
Qed.

Lemma label_precedence_witness :
  exists node,
    parse_nodes ([] ++ bound_shape :: [bound_text]) !! shapes_in [] = Some node
    /\ n_label node =
         Some (strip isspace (spec_label bound_shape ([] ++ bound_shape :: [bound_text])
                                         (shapes_in [])))
    /\ exists ex,
         n_id node =
           fst (sanitize_id (spec_label bound_shape ([] ++ bound_shape :: [bound_text])
                                        (shapes_in [])) (Some ex)).
Proof. apply (label_precedence [] [bound_text] bound_shape). reflexivity. Defined.

Example label_bound_text :
  n_label <$> parse_nodes [bound_shape; bound_text] = [Some "Hi"].
Proof. by vm_compute. Qed.

(** The later passes leave [nodes] alone. *)
Lemma parse_excalidraw_nodes elements d :
  parse_excalidraw elements = Ok d -> d_nodes d = parse_nodes elements.
Proof.
  unfold parse_excalidraw. intros H.
  apply bind_Ok_inv in H as (edges & _ & H). apply bind_Ok_inv in H as (frames & _ & H).
  by injection H as <-.
Qed.

Example parse_framed_file :
  exists d, parse_excalidraw framed_file = Ok d
    /\ d_diagramType d = Some "flowchart"
    /\ n_id <$> d_nodes d = ["start"; "end"; "shape_3"]
    /\ n_style <$> d_nodes d
       = [None;
          Some {| fillColor := None; strokeColor := Some "#1e1e1e"; strokeWidth := None |};
          None]
    /\ d_edges d
       = [{| e_id := Some "start_to_end"; e_from := Some "start"; e_to := Some "end";
             e_type := Some "arrow"; e_label := None;
             e_style := Some {| strokeStyle := Some "dashed" |} |}]
    /\ d_groups d
       = [{| g_id := Some "my_frame"; g_label := Some (Some "My Frame");
             g_nodeIds := ["end"] |}].
Proof. eexists. split; [by vm_compute|]. repeat split. Qed.

(** C1, at the failing input: two shapes with the same label leave the
    importer with the same node id.  The collision set starts empty, the
    test [if existing:] of [sanitize_id] is false for an empty set, so no id
    is ever recorded (see [first_pass_existing]). *)
Theorem parse_excalidraw_duplicate_ids :
  exists d, parse_excalidraw twin_shapes = Ok d /\ n_id <$> d_nodes d = ["foo"; "foo"].
Proof. eexists. split; by vm_compute. Qed.

(** ** Sorting *)

Section SortingFacts.
Context {A : Type} (key : A -> string).

Lemma leb_key_le a b : String.leb (key a) (key b) = true <-> key_le key a b.
Proof. unfold key_le, String.le. by rewrite Is_true_true. Qed.

Lemma leb_false_key_le a b : String.leb (key a) (key b) = false -> key_le key b a.
Proof.
  intros H. destruct (total String.le (key a) (key b)) as [Hab|Hba]; [|done].
  apply leb_key_le in Hab. congruence.
Qed.

Lemma key_le_trans a b c : key_le key a b -> key_le key b c -> key_le key a c.
Proof. unfold key_le. intros ??. by etrans. Qed.

Lemma insert_by_Permutation a l : insert_by key a l ≡ₚ a :: l.
Proof.
  induction l as [|b l IH]; simpl; [done|].
  destruct (String.leb (key a) (key b)); [done|].
  rewrite IH. apply Permutation_swap.
Qed.

Lemma sorted_Permutation l : sorted key l ≡ₚ l.
Proof.
  induction l as [|a l IH]; simpl; [done|].
  by rewrite insert_by_Permutation, IH.
Qed.

Lemma elem_of_sorted a l : a ∈ sorted key l <-> a ∈ l.
Proof. by rewrite sorted_Permutation. Qed.

Lemma insert_by_StronglySorted a l :
  StronglySorted (key_le key) l -> StronglySorted (key_le key) (insert_by key a l).
Proof.
  induction 1 as [|b l Hl IH Hb]; simpl.
  - repeat constructor.
  - destruct (String.leb (key a) (key b)) eqn:Hab.
    + apply leb_key_le in Hab. constructor; [by constructor|].
      constructor; [done|].
      eapply Forall_impl; [exact Hb|]. intros c Hc. by eapply key_le_trans.
    + constructor; [done|].
      rewrite insert_by_Permutation. constructor; [|done].
      by apply leb_false_key_le.
Qed.

Lemma sorted_StronglySorted l : StronglySorted (key_le key) (sorted key l).
Proof.
  induction l as [|a l IH]; simpl; [constructor|].
  by apply insert_by_StronglySorted.
Qed.

(** Two lists with the same elements and pairwise distinct keys sort to the
    same list. *)
Lemma key_inj_on l a b :
  NoDup (key <$> l) -> a ∈ l -> b ∈ l -> key a = key b -> a = b.
Proof.
  induction l as [|c l IH]; intros Hnd Ha Hb Hk; [by apply elem_of_nil in Ha|].
  rewrite fmap_cons in Hnd. apply NoDup_cons in Hnd as [Hc Hnd].
  apply elem_of_cons in Ha as [->|Ha]; apply elem_of_cons in Hb as [->|Hb].
  - done.
  - destruct Hc. rewrite Hk. by apply list_elem_of_fmap_2.
  - destruct Hc. rewrite <- Hk. by apply list_elem_of_fmap_2.
  - by apply IH.
Qed.

Lemma sorted_unique l1 l2 :
  NoDup (key <$> l1) -> l1 ≡ₚ l2 -> sorted key l1 = sorted key l2.
Proof.
  intros Hnd Hperm.
  apply (StronglySorted_unique_strong (key_le key)).
  - intros x1 x2 Hx1 Hx2 H12 H21.
    apply (proj1 (elem_of_sorted _ _)) in Hx1.
    apply (proj1 (elem_of_sorted _ _)) in Hx2.
    apply (proj2 (elem_of_Permutation_proper _ _ _ Hperm)) in Hx2.
    apply (key_inj_on l1); [done..|].
    by apply (anti_symm String.le).
  - apply sorted_StronglySorted.
  - apply sorted_StronglySorted.
  - by rewrite !sorted_Permutation.
Qed.

(** An element below everything goes to the front. *)
Lemma insert_by_front a l :
  Forall (key_le key a) l -> insert_by key a l = a :: l.
Proof.
  destruct 1 as [|b l Hb _]; simpl; [done|].
  apply leb_key_le in Hb. by rewrite Hb.
Qed.

(** Sorting commutes with dropping the elements that fail a test: the
    sort is stable. *)
Lemma filter_insert_by (P : A -> Prop) `{!forall a, Decision (P a)} a l :
  StronglySorted (key_le key) l ->
  filter P (insert_by key a l) =
    if decide (P a) then insert_by key a (filter P l) else filter P l.
Proof.
  induction 1 as [|b l Hl IH Hb]; simpl.
  - rewrite filter_cons, filter_nil. by destruct (decide (P a)).
  - destruct (String.leb (key a) (key b)) eqn:Hab.
    + rewrite filter_cons. destruct (decide (P a)); [|done].
      symmetry. apply insert_by_front.
      apply leb_key_le in Hab.
      apply Forall_forall. intros c Hc%list_elem_of_filter.
      destruct Hc as [_ Hc]. apply elem_of_cons in Hc as [->|Hc]; [done|].
      rewrite Forall_forall in Hb. eapply key_le_trans; eauto.
    + rewrite !(filter_cons _ b), IH.
      destruct (decide (P b)), (decide (P a)); simpl; by rewrite ?Hab.
Qed.

Lemma filter_sorted (P : A -> Prop) `{!forall a, Decision (P a)} l :
  filter P (sorted key l) = sorted key (filter P l).
Proof.
  induction l as [|a l IH]; simpl; [done|].
  rewrite filter_insert_by by apply sorted_StronglySorted.
  rewrite filter_cons, IH. by destruct (decide (P a)).
Qed.

(** Elements with the same key come out in the order they went in. *)
Lemma sorted_same_key l k : Forall (fun a => key a = k) l -> sorted key l = l.
Proof.
  induction 1 as [|a l Ha Hl IH]; simpl; [done|].
  rewrite IH. apply insert_by_front.
  eapply Forall_impl; [exact Hl|]. intros b Hb. unfold key_le. by rewrite Ha, Hb.
Qed.

Lemma sorted_stable l k :
  filter (fun a => key a = k) (sorted key l) = filter (fun a => key a = k) l.
Proof.
  rewrite filter_sorted. apply (sorted_same_key _ k).
  apply Forall_forall. intros a Ha. by apply list_elem_of_filter in Ha as [Ha _].
Qed.

End SortingFacts.

(** ** The converter: construction and order *)

Lemma init_nodes_Permutation (l1 l2 : list Node) :
  l1 ≡ₚ l2 -> NoDup (n_id <$> l1) ->
  forall m : gmap string Node,
    foldl (fun m n => <[n_id n := n]> m) m l1 = foldl (fun m n => <[n_id n := n]> m) m l2.
Proof.
  induction 1 as [|x l1 l2 Hp IH|x y l|l1 l2 l3 Hp1 IH1 Hp2 IH2]; intros Hnd m; simpl.
  - done.
  - rewrite fmap_cons in Hnd. apply NoDup_cons in Hnd as [_ Hnd]. by apply IH.
  - rewrite !fmap_cons in Hnd. apply NoDup_cons in Hnd as [Hy _].
    rewrite insert_insert_ne; [done|].
    intros E. apply Hy. rewrite E. by left.
  - rewrite IH1 by done. apply IH2. by rewrite <- Hp1.
Qed.

Lemma elem_of_grouped_go (l : list Group) (acc : gset string) x :
  x ∈ foldl (fun acc g => acc ∪ list_to_set (g_nodeIds g)) acc l
  <-> x ∈ acc \/ exists g, g ∈ l /\ x ∈ g_nodeIds g.
Proof.
  revert acc. induction l as [|g l IH]; intros acc; simpl.
  - split; [by left|]. intros [?|(g & Hg & _)]; [done|]. by apply elem_of_nil in Hg.
  - rewrite IH, elem_of_union, elem_of_list_to_set. split.
    + intros [[?|?]|(g' & Hg' & Hx)].
      * by left.
      * right. exists g. split; [by left | done].
      * right. exists g'. split; [by right | done].
    + intros [?|(g' & Hg' & Hx)]; [by left; left|].
      apply elem_of_cons in Hg' as [->|Hg']; [by left; right|].
      right. by exists g'.
Qed.

(** [grouped] holds the ids listed by some group. *)
Lemma elem_of_grouped c x :
  x ∈ grouped c <-> exists g, g ∈ c_groups c /\ x ∈ g_nodeIds g.
Proof.
  unfold grouped. rewrite elem_of_grouped_go. split; [|by right].
  intros [H|H]; [|done]. by apply not_elem_of_empty in H.
Qed.

Lemma same_view_render `{FL : Floats} c1 c2 :
  same_view c1 c2 ->
  to_mermaid c1 = to_mermaid c2 /\ to_graphviz c1 = to_graphviz c2
  /\ to_drawio c1 = to_drawio c2 /\ to_svg c1 = to_svg c2.
Proof.
  intros (Hn & Ht & Hl & He & Hg & Hgr).
  assert (Hsn : sorted_nodes c1 = sorted_nodes c2) by (unfold sorted_nodes; by rewrite Hn).
  assert (Hv : node_values c1 = node_values c2) by (unfold node_values; by rewrite Hn).
  split; [|split; [|split]].
  - unfold to_mermaid, mermaid_lines, mermaid_title_lines, mermaid_direction,
      get_layout, node_xs, node_ys, mermaid_top_lines, mermaid_top_nodes,
      mermaid_style_lines.
    assert (mermaid_group_block c1 <$> sorted_groups c1
            = mermaid_group_block c2 <$> sorted_groups c2) as ->.
    { unfold mermaid_group_block, mermaid_member_lines. by rewrite Hn, Hg. }
    by rewrite Hn, Ht, Hl, He, Hgr, Hsn, Hv.
  - unfold to_graphviz, graphviz_lines, graphviz_header, graphviz_node_lines.
    by rewrite Ht, He, Hg, Hsn.
  - unfold to_drawio, drawio_cells. by rewrite He, Hsn.
  - unfold to_svg, svg_elements, svg_edge_step, svg_max_x, svg_max_y, svg_min_x,
      svg_min_y, node_xs, node_ys.
    by rewrite Hn, He, Hsn, Hv.
Qed.

Lemma init_same_view (d1 d2 : Diagram) (layout : option string) :
  NoDup (n_id <$> d_nodes d1) ->
  NoDup (edge_key <$> d_edges d1) ->
  NoDup (group_key <$> d_groups d1) ->
  d_title d1 = d_title d2 ->
  d_nodes d1 ≡ₚ d_nodes d2 -> d_edges d1 ≡ₚ d_edges d2 -> d_groups d1 ≡ₚ d_groups d2 ->
  same_view (init d1 layout) (init d2 layout).
Proof.
  intros Hn He Hg Ht Pn Pe Pg. unfold same_view, sorted_edges, sorted_groups. simpl.
  split; [by apply init_nodes_Permutation|].
  split; [by rewrite Ht|]. split; [done|].
  split; [by apply sorted_unique|]. split; [by apply sorted_unique|].
  apply set_eq. intros x. rewrite !elem_of_grouped. simpl.
  by setoid_rewrite Pg.
Qed.

Lemma to_graphviz_sorted c :
  exists ns es gs,
    ns ≡ₚ map_to_list (c_nodes c) /\ es ≡ₚ c_edges c /\ gs ≡ₚ c_groups c
    /\ StronglySorted (key_le fst) ns
    /\ StronglySorted (key_le edge_key) es
    /\ StronglySorted (key_le group_key) gs
    /\ to_graphviz c
       = join nl (graphviz_header c
                  ++ ((fun p => graphviz_node_line p.1 p.2) <$> ns)
                  ++ [EmptyString]
                  ++ (graphviz_edge_line <$> es)
                  ++ concat (graphviz_cluster <$> gs)
                  ++ ["}"]).
Proof.
  exists (sorted_nodes c), (sorted_edges c), (sorted_groups c).
  unfold sorted_nodes, sorted_edges, sorted_groups.
  repeat split; try apply sorted_Permutation; apply sorted_StronglySorted.
Qed.

(** C3 (as amended): two diagrams with the same title and the same nodes,
    edges and groups listed in different orders render to the same text in
    each of the four formats, provided the node ids are pairwise distinct,
    the edge ids are pairwise distinct and the group ids are pairwise
    distinct (a missing id counting as the empty id).  The coordinates and
    sizes are ints, as in every diagram here: on floats [min] and [max]
    keep the first of two equal values, so the canvas of [to_svg] and the
    direction of [to_mermaid] can depend on the order.  Nodes, groups and
    edges are visited in ascending order of their ids, as the text of
    [to_graphviz], which lists all three, shows. *)
Theorem render_order_independent `{FL : Floats} (d1 d2 : Diagram)
    (layout : option string) :
  NoDup (n_id <$> d_nodes d1) ->
  NoDup (edge_key <$> d_edges d1) ->
  NoDup (group_key <$> d_groups d1) ->
  d_title d1 = d_title d2 ->
  d_nodes d1 ≡ₚ d_nodes d2 -> d_edges d1 ≡ₚ d_edges d2 -> d_groups d1 ≡ₚ d_groups d2 ->
  (to_mermaid (init d1 layout) = to_mermaid (init d2 layout)
   /\ to_graphviz (init d1 layout) = to_graphviz (init d2 layout)
   /\ to_drawio (init d1 layout) = to_drawio (init d2 layout)
   /\ to_svg (init d1 layout) = to_svg (init d2 layout))
  /\ exists ns es gs,
       ns ≡ₚ map_to_list (c_nodes (init d1 layout))
       /\ es ≡ₚ d_edges d1 /\ gs ≡ₚ d_groups d1
       /\ StronglySorted (key_le fst) ns
       /\ StronglySorted (key_le edge_key) es
       /\ StronglySorted (key_le group_key) gs
       /\ to_graphviz (init d1 layout)
          = join nl (graphviz_header (init d1 layout)
                     ++ ((fun p => graphviz_node_line p.1 p.2) <$> ns)
                     ++ [EmptyString]
                     ++ (graphviz_edge_line <$> es)
                     ++ concat (graphviz_cluster <$> gs)
                     ++ ["}"]).
Proof.
  intros Hn He Hg Ht Pn Pe Pg.
  split; [by apply same_view_render, init_same_view|].
  apply (to_graphviz_sorted (init d1 layout)).
Qed.

Lemma render_order_independent_witness :
  (to_mermaid (init ordered_1 None) = to_mermaid (init ordered_2 None)
   /\ to_graphviz (init ordered_1 None) = to_graphviz (init ordered_2 None)
   /\ to_drawio (init ordered_1 None) = to_drawio (init ordered_2 None)
   /\ to_svg (FL := exact_floats) (init ordered_1 None)
      = to_svg (FL := exact_floats) (init ordered_2 None))
  /\ exists ns es gs,
       ns ≡ₚ map_to_list (c_nodes (init ordered_1 None))
       /\ es ≡ₚ d_edges ordered_1 /\ gs ≡ₚ d_groups ordered_1
       /\ StronglySorted (key_le fst) ns
       /\ StronglySorted (key_le edge_key) es
       /\ StronglySorted (key_le group_key) gs
       /\ to_graphviz (init ordered_1 None)
          = join nl (graphviz_header (init ordered_1 None)
                     ++ ((fun p => graphviz_node_line p.1 p.2) <$> ns)
                     ++ [EmptyString]
                     ++ (graphviz_edge_line <$> es)
                     ++ concat (graphviz_cluster <$> gs)
                     ++ ["}"]).
Proof.
  apply (render_order_independent (FL := exact_floats) ordered_1 ordered_2 None).
  - apply (bool_decide_unpack _). vm_compute. exact I.
  - apply (bool_decide_unpack _). vm_compute. exact I.
  - apply (bool_decide_unpack _). vm_compute. exact I.
  - reflexivity.
  - apply perm_swap.
  - apply perm_swap.
  - reflexivity.
Defined.

(** C3 (as stated) fails: two different edges that share an id keep their
    input order, so listing them the other way round changes the output. *)
Lemma render_order_dependent :
  d_title twins_1 = d_title twins_2
  /\ d_nodes twins_1 ≡ₚ d_nodes twins_2
  /\ d_edges twins_1 ≡ₚ d_edges twins_2
  /\ d_groups twins_1 ≡ₚ d_groups twins_2
  /\ to_mermaid (init twins_1 None) <> to_mermaid (init twins_2 None).
Proof.
  split; [done|]. split; [done|]. split; [apply perm_swap|]. split; [done|].
  by vm_compute.
Qed.

(** ** Direction of the mermaid flow *)

Lemma foldl_max_spec (l : list Z) (a : Z) :
  foldl Z.max a l ∈ a :: l /\ forall x, x ∈ a :: l -> x <= foldl Z.max a l.
Proof.
  revert a. induction l as [|b l IH]; intros a; simpl.
  - split; [by left|]. intros x Hx. apply list_elem_of_singleton in Hx. lia.
  - destruct (IH (Z.max a b)) as [Hin Hub]. split.
    + apply elem_of_cons in Hin as [Hin|Hin].
      * rewrite Hin. destruct (Z.max_spec a b) as [[_ ->]|[_ ->]].
        -- right. by left.
        -- by left.
      * right. by right.
    + intros x Hx. assert (Z.max a b <= foldl Z.max (Z.max a b) l) by (apply Hub; by left).
      apply elem_of_cons in Hx as [->|Hx]; [lia|].
      apply elem_of_cons in Hx as [->|Hx]; [lia|].
      apply Hub. by right.
Qed.

Lemma foldl_min_spec (l : list Z) (a : Z) :
  foldl Z.min a l ∈ a :: l /\ forall x, x ∈ a :: l -> foldl Z.min a l <= x.
Proof.
  revert a. induction l as [|b l IH]; intros a; simpl.
  - split; [by left|]. intros x Hx. apply list_elem_of_singleton in Hx. lia.
  - destruct (IH (Z.min a b)) as [Hin Hlb]. split.
    + apply elem_of_cons in Hin as [Hin|Hin].
      * rewrite Hin. destruct (Z.min_spec a b) as [[_ ->]|[_ ->]].
        -- by left.
        -- right. by left.
      * right. by right.
    + intros x Hx. assert (foldl Z.min (Z.min a b) l <= Z.min a b) by (apply Hlb; by left).
      apply elem_of_cons in Hx as [->|Hx]; [lia|].
      apply elem_of_cons in Hx as [->|Hx]; [lia|].
      apply Hlb. by right.
Qed.

Lemma max_list_spec (l : list Z) :
  l <> [] -> max_list l ∈ l /\ forall x, x ∈ l -> x <= max_list l.
Proof. destruct l as [|a l]; [done|]. intros _. apply foldl_max_spec. Qed.

Lemma min_list_spec (l : list Z) :
  l <> [] -> min_list l ∈ l /\ forall x, x ∈ l -> min_list l <= x.
Proof. destruct l as [|a l]; [done|]. intros _. apply foldl_min_spec. Qed.

Lemma elem_of_node_values c n :
  n ∈ node_values c <-> exists i, c_nodes c !! i = Some n.
Proof.
  unfold node_values. rewrite list_elem_of_fmap. split.
  - intros ([i n'] & -> & Hin). exists i. by apply elem_of_map_to_list.
  - intros [i Hi]. exists (i, n). split; [done|]. by apply elem_of_map_to_list.
Qed.

Lemma node_values_nonempty c : c_nodes c <> ∅ -> node_values c <> [].
Proof.
  intros Hne Hnil. apply Hne. apply map_to_list_empty_iff.
  unfold node_values in Hnil. by apply fmap_nil_inv in Hnil.
Qed.

(** The difference between the largest and the smallest coordinate is the
    extent of the bounding box. *)
Lemma max_min_bbox_span c (coord : Node -> option Z) :
  c_nodes c <> ∅ ->
  let vals := (fun n => default 0 (coord n)) <$> node_values c in
  bbox_span c coord (max_list vals - min_list vals).
Proof.
  intros Hne vals.
  assert (Hv : vals <> []).
  { unfold vals. intros H%fmap_nil_inv. by apply (node_values_nonempty c). }
  destruct (max_list_spec vals Hv) as [Hmax Hub].
  destruct (min_list_spec vals Hv) as [Hmin Hlb].
  split.
  - unfold vals in Hmax, Hmin.
    apply list_elem_of_fmap in Hmax as (n1 & E1 & [i1 H1]%elem_of_node_values).
    apply list_elem_of_fmap in Hmin as (n2 & E2 & [i2 H2]%elem_of_node_values).
    exists i1, n1, i2, n2. fold vals in E1, E2. by rewrite E1, E2.
  - intros i1 n1 i2 n2 H1 H2.
    assert (default 0 (coord n1) ∈ vals).
    { unfold vals. apply list_elem_of_fmap. exists n1. split; [done|].
      apply elem_of_node_values. by exists i1. }
    assert (default 0 (coord n2) ∈ vals).
    { unfold vals. apply list_elem_of_fmap. exists n2. split; [done|].
      apply elem_of_node_values. by exists i2. }
    specialize (Hub _ H). specialize (Hlb _ H0). lia.
Qed.

(** The bounding box has one extent. *)
Lemma bbox_span_unique c coord s1 s2 :
  bbox_span c coord s1 -> bbox_span c coord s2 -> s1 = s2.
Proof.
  intros [(i1 & n1 & i2 & n2 & H1 & H2 & ->) Hub1]
         [(j1 & m1 & j2 & m2 & K1 & K2 & ->) Hub2].
  specialize (Hub1 _ _ _ _ K1 K2). specialize (Hub2 _ _ _ _ H1 H2). lia.
Qed.

Lemma to_mermaid_direction c :
  to_mermaid c
  = join nl ((if truthy (c_title c) then ["---"; "title: " +:+ c_title c; "---"] else [])
             ++ ("flowchart " +:+ mermaid_direction c)
                :: mermaid_top_lines c
                   ++ concat (mermaid_group_block c <$> sorted_groups c)
                   ++ [EmptyString]
                   ++ (mermaid_edge_line <$> sorted_edges c)
                   ++ (match mermaid_style_lines c with
                       | [] => []
                       | style_lines => [EmptyString] ++ style_lines
                       end)).
Proof. reflexivity. Qed.

(** C4: the text of [to_mermaid] is the optional title block, then the line
    [flowchart D], then the rest.  Under the position layout and with at
    least one node, D is [LR] exactly when the extent of the bounding box
    of the nodes in x is strictly larger than its extent in y, and [TD]
    otherwise, ties included; under the structure layout D is [TD]. *)
Theorem mermaid_direction_rule (c : DiagramConverter) :
  let title_block :=
    if truthy (c_title c) then ["---"; "title: " +:+ c_title c; "---"] else [] in
  (get_layout c "mermaid" = "position" -> c_nodes c <> ∅ ->
     exists sx sy rest,
       bbox_span c n_x sx /\ bbox_span c n_y sy
       /\ to_mermaid c
          = join nl (title_block
                     ++ ("flowchart " +:+ (if bool_decide (sx > sy) then "LR" else "TD"))
                        :: rest))
  /\ (get_layout c "mermaid" = "structure" ->
      exists rest, to_mermaid c = join nl (title_block ++ "flowchart TD" :: rest)).
Proof.
  intros title_block. split.
  - intros Hpos Hne.
    exists (max_list (node_xs c) - min_list (node_xs c)),
           (max_list (node_ys c) - min_list (node_ys c)).
    eexists.
    split; [by apply (max_min_bbox_span c n_x)|].
    split; [by apply (max_min_bbox_span c n_y)|].
    rewrite to_mermaid_direction. unfold mermaid_direction.
    rewrite (bool_decide_eq_true_2 _ Hpos), (bool_decide_eq_false_2 _ Hne). simpl.
    set (sx := max_list (node_xs c) - min_list (node_xs c)).
    set (sy := max_list (node_ys c) - min_list (node_ys c)).
    destruct (Z.gtb_spec sx sy).
    + rewrite bool_decide_eq_true_2; [reflexivity | lia].
    + rewrite bool_decide_eq_false_2; [reflexivity | lia].
  - intros Hst. eexists. rewrite to_mermaid_direction. unfold mermaid_direction.
    rewrite (bool_decide_eq_false_2 (get_layout c "mermaid" = "position"));
      [reflexivity|]. by rewrite Hst.
Qed.

Lemma positioned_nonempty : c_nodes positioned <> ∅.
Proof.
  intros H.
  assert (L : c_nodes positioned !! "a" = Some node_a) by by vm_compute.
  rewrite H in L. by rewrite lookup_empty in L.
Defined.

Lemma mermaid_direction_rule_witness :
  (exists sx sy rest,
      bbox_span positioned n_x sx /\ bbox_span positioned n_y sy
      /\ to_mermaid positioned
         = join nl (("flowchart " +:+ (if bool_decide (sx > sy) then "LR" else "TD"))
                    :: rest))
  /\ (exists rest, to_mermaid structured = join nl ("flowchart TD" :: rest)).
Proof.
  split.
  - apply (proj1 (mermaid_direction_rule positioned)).
    + reflexivity.
    + exact positioned_nonempty.
  - apply (proj2 (mermaid_direction_rule structured)). reflexivity.
Defined.

Example mermaid_direction_positioned :
  prefixb "flowchart LR" (to_mermaid positioned) = true
  /\ prefixb "flowchart TD" (to_mermaid structured) = true.
Proof. split; by vm_compute. Qed.

(** ** Substrings *)

Lemma occurs_in_refl t : occurs_in t t.
Proof. exists EmptyString, EmptyString. by rewrite append_empty_l, append_empty_r. Qed.

Lemma occurs_in_app_l t s1 s2 : occurs_in t s1 -> occurs_in t (s1 +:+ s2).
Proof.
  intros (pre & post & ->). exists pre, (post +:+ s2). by rewrite !append_assoc.
Qed.

Lemma occurs_in_app_r t s1 s2 : occurs_in t s2 -> occurs_in t (s1 +:+ s2).
Proof.
  intros (pre & post & ->). exists (s1 +:+ pre), post. by rewrite !append_assoc.
Qed.

Lemma occurs_in_trans t s u : occurs_in t s -> occurs_in s u -> occurs_in t u.
Proof.
  intros Hts (pre & post & ->). by apply occurs_in_app_r, occurs_in_app_l.
Qed.

Lemma occurs_in_join sep x (l : list string) : x ∈ l -> occurs_in x (join sep l).
Proof.
  induction l as [|a l IH]; intros Hx; [by apply elem_of_nil in Hx|].
  apply elem_of_cons in Hx as [->|Hx].
  - destruct l as [|b l]; simpl; [apply occurs_in_refl|].
    apply occurs_in_app_l, occurs_in_refl.
  - destruct l as [|b l]; [by apply elem_of_nil in Hx|].
    change (join sep (a :: b :: l)) with (a +:+ sep +:+ join sep (b :: l)).
    by apply occurs_in_app_r, occurs_in_app_r, IH.
Qed.

Lemma prefixb_append t post : prefixb t (t +:+ post) = true.
Proof.
  induction t as [|a t IH]; [by destruct post|].
  rewrite append_cons. simpl. by rewrite bool_decide_eq_true_2, IH.
Qed.

(** The test [containsb] finds every occurrence. *)
Lemma containsb_complete t s : occurs_in t s -> containsb t s = true.
Proof.
  intros (pre & post & ->). induction pre as [|a pre IH].
  - rewrite append_empty_l. destruct (t +:+ post) eqn:E; simpl;
      rewrite <- E, prefixb_append; done.
  - rewrite append_cons. simpl. rewrite IH. apply orb_true_r.
Qed.

(** Finds a literal piece of a concatenation. *)
Ltac find_occurrence :=
  first [ apply occurs_in_refl
        | apply occurs_in_app_l; find_occurrence
        | apply occurs_in_app_r; find_occurrence ].

(** ** Lines of a text *)

Lemma line_of_join x (l : list string) : x ∈ l -> line_of x (join nl l).
Proof. intros (l1 & l2 & ->)%list_elem_of_split. by exists l1, l2. Qed.

Lemma concat_fmap_split {A B} (f : A -> list B) (l : list A) a :
  a ∈ l -> exists l1 l2, concat (f <$> l) = l1 ++ f a ++ l2.
Proof.
  intros (k1 & k2 & ->)%list_elem_of_split.
  exists (concat (f <$> k1)), (concat (f <$> k2)).
  by rewrite fmap_app, concat_app.
Qed.

(** Brings both sides of an equation between texts to the same shape. *)
Ltac string_norm :=
  repeat (progress (rewrite ?append_assoc, ?append_cons, ?append_empty_l)).

(** ** to_svg *)

Section ToSvgFacts.
Context `{FL : Floats}.

Lemma svg_edge_step_grows c ox oy acc e acc' :
  svg_edge_step c ox oy acc e = Ok acc' -> exists more, acc' = acc ++ more.
Proof.
  unfold svg_edge_step. intros H.
  apply bind_Ok_inv in H as (fr & _ & H). apply bind_Ok_inv in H as (to & _ & H).
  destruct (c_nodes c !! fr) as [fn|]; [destruct (c_nodes c !! to) as [tn|]|].
  - apply bind_Ok_inv in H as (line & _ & H). injection H as <-. by exists [line].
  - injection H as <-. exists []. by rewrite app_nil_r.
  - injection H as <-. exists []. by rewrite app_nil_r.
Qed.

Lemma svg_node_step_grows ox oy acc p acc' :
  svg_node_step ox oy acc p = Ok acc' -> exists more, acc' = acc ++ more.
Proof.
  unfold svg_node_step. destruct p as [nid node]. intros H.
  apply bind_Ok_inv in H as (nx & _ & H). apply bind_Ok_inv in H as (ny & _ & H).
  apply bind_Ok_inv in H as (tx & _ & H). apply bind_Ok_inv in H as (ty & _ & H).
  injection H as <-. by eexists.
Qed.

(** An edge with both endpoints among the nodes adds its line. *)
Lemma svg_edge_step_resolved c ox oy acc e fr to fn tn acc' :
  e_from e = Some fr -> e_to e = Some to ->
  c_nodes c !! fr = Some fn -> c_nodes c !! to = Some tn ->
  svg_edge_step c ox oy acc e = Ok acc' ->
  exists line, svg_line ox oy e fn tn = Ok line /\ acc' = acc ++ [line].
Proof.
  intros Hfr Hto Hfn Htn. unfold svg_edge_step. rewrite Hfr, Hto. simpl.
  rewrite Hfn, Htn. intros H. apply bind_Ok_inv in H as (line & Hl & H).
  injection H as <-. by exists line.
Qed.

(** The line of an edge is a [<line>] element with four coordinates. *)
Lemma svg_line_shape ox oy e fn tn line :
  svg_line ox oy e fn tn = Ok line ->
  exists x1 y1 x2 y2, line = svg_line_element x1 y1 x2 y2 e.
Proof.
  unfold svg_line. intros H.
  apply bind_Ok_inv in H as (fx & _ & H). apply bind_Ok_inv in H as (x1 & _ & H).
  apply bind_Ok_inv in H as (fy & _ & H). apply bind_Ok_inv in H as (y1 & _ & H).
  apply bind_Ok_inv in H as (tx & _ & H). apply bind_Ok_inv in H as (x2 & _ & H).
  apply bind_Ok_inv in H as (ty & _ & H). apply bind_Ok_inv in H as (y2 & _ & H).
  injection H as <-. by eexists _, _, _, _.
Qed.

(** The document of [to_svg] holds every element of the list [elements]. *)
Lemma to_svg_elements c out :
  c_nodes c <> ∅ -> to_svg c = Ok out ->
  exists elements,
    svg_elements c = Ok elements /\ forall x, x ∈ elements -> occurs_in x out.
Proof.
  intros Hne. unfold to_svg. rewrite (bool_decide_eq_false_2 _ Hne).
  intros H. apply bind_Ok_inv in H as (elements & He & H). injection H as <-.
  exists elements. split; [done|]. intros x Hx.
  eapply occurs_in_trans; [by apply (occurs_in_join nl)|]. find_occurrence.
Qed.

(** What the edge loop adds is still there after the node loop. *)
Lemma svg_elements_edge_line c elements e x :
  svg_elements c = Ok elements -> e ∈ c_edges c ->
  (forall acc0 acc1,
      svg_edge_step c (- svg_min_x c + 50) (- svg_min_y c + 50) acc0 e = Ok acc1 ->
      x ∈ acc1) ->
  x ∈ elements.
Proof.
  unfold svg_elements. intros H He Hx.
  apply bind_Ok_inv in H as (els & Hedges & Hnodes).
  assert (x ∈ els).
  { eapply for_each_contributes; [apply svg_edge_step_grows | exact Hedges | | exact Hx].
    unfold sorted_edges. by apply elem_of_sorted. }
  destruct (for_each_grows _ (svg_node_step_grows _ _) _ _ _ Hnodes) as [more ->].
  apply elem_of_app. by left.
Qed.

(** The line of a resolved edge is in the document. *)
Lemma to_svg_edge_line c e fr to fn tn out :
  e ∈ c_edges c -> e_from e = Some fr -> e_to e = Some to ->
  c_nodes c !! fr = Some fn -> c_nodes c !! to = Some tn ->
  to_svg c = Ok out ->
  exists line,
    svg_line (- svg_min_x c + 50) (- svg_min_y c + 50) e fn tn = Ok line
    /\ occurs_in line out.
Proof.
  intros He Hfr Hto Hfn Htn Hout.
  assert (Hne : c_nodes c <> ∅).
  { intros E. rewrite E in Hfn. by rewrite lookup_empty in Hfn. }
  destruct (to_svg_elements c out Hne Hout) as (elements & Hels & Hocc).
  assert (exists line,
    svg_line (- svg_min_x c + 50) (- svg_min_y c + 50) e fn tn = Ok line) as [line Hline].
  { pose proof Hels as H. unfold svg_elements in H.
    apply bind_Ok_inv in H as (els & Hedges & _).
    destruct (for_each_succeeded _ _ _ _ e Hedges) as (acc0 & acc1 & Hstep);
      [unfold sorted_edges; by apply elem_of_sorted|].
    destruct (svg_edge_step_resolved _ _ _ _ _ _ _ _ _ _ Hfr Hto Hfn Htn Hstep)
      as (line & Hline & _).
    by exists line. }
  exists line. split; [done|].
  apply Hocc. apply (svg_elements_edge_line c elements e); [done..|].
  intros acc0 acc1 Hstep.
  destruct (svg_edge_step_resolved _ _ _ _ _ _ _ _ _ _ Hfr Hto Hfn Htn Hstep)
    as (line' & Hline' & ->).
  rewrite Hline in Hline'. injection Hline' as <-.
  apply elem_of_app. right. by left.
Qed.

End ToSvgFacts.

(** ** The statements of the edges *)

Lemma elem_of_sorted_edges c e : e ∈ sorted_edges c <-> e ∈ c_edges c.
Proof. apply elem_of_sorted. Qed.

Lemma mermaid_edge_line_emitted c e :
  e ∈ c_edges c -> mermaid_edge_line e ∈ mermaid_lines c.
Proof.
  intros He. unfold mermaid_lines.
  do 5 (apply elem_of_app; right). apply elem_of_app. left.
  by apply list_elem_of_fmap_2, elem_of_sorted_edges.
Qed.

Lemma graphviz_edge_line_emitted c e :
  e ∈ c_edges c -> graphviz_edge_line e ∈ graphviz_lines c.
Proof.
  intros He. unfold graphviz_lines.
  do 3 (apply elem_of_app; right). apply elem_of_app. left.
  by apply list_elem_of_fmap_2, elem_of_sorted_edges.
Qed.

Lemma drawio_edge_cell_emitted c e :
  e ∈ c_edges c -> drawio_edge_cell e ∈ drawio_cells c.
Proof.
  intros He. unfold drawio_cells. apply elem_of_app. right.
  by apply list_elem_of_fmap_2, elem_of_sorted_edges.
Qed.

(** Every cell is in the document of [to_drawio]. *)
Lemma drawio_cell_occurs c x : x ∈ drawio_cells c -> occurs_in x (to_drawio c).
Proof.
  intros Hx. eapply occurs_in_trans; [by apply (occurs_in_join nl)|].
  unfold to_drawio. find_occurrence.
Qed.

Lemma truthy_label (o : option string) :
  truthy (default EmptyString o) = truthy_opt o.
Proof. by destruct o. Qed.

(** The statement of a dashed edge in the text of [to_graphviz]. *)
Lemma graphviz_edge_line_dashed e :
  is_dashed e = true ->
  graphviz_edge_line e
  = "    " +:+ default EmptyString (e_from e) +:+ " -> " +:+ default EmptyString (e_to e)
    +:+ " ["
    +:+ (if truthy (default EmptyString (e_label e))
         then "label=" +:+ dq +:+ default EmptyString (e_label e) +:+ dq +:+ ", "
         else EmptyString)
    +:+ "style=dashed];".
Proof.
  intros Hd. unfold graphviz_edge_line. rewrite Hd, truthy_label.
  destruct (truthy_opt (e_label e)); simpl; string_norm; reflexivity.
Qed.

(** The cell of a dashed edge in the document of [to_drawio]. *)
Lemma drawio_edge_cell_dashed e :
  is_dashed e = true ->
  occurs_in ("<mxCell " +:+ attr "id" ("cell_" +:+ default EmptyString (e_id e)) +:+ " "
             +:+ attr "value" (html_escape (default EmptyString (e_label e))) +:+ " "
             +:+ attr "style" "edgeStyle=orthogonalEdgeStyle;rounded=0;html=1;dashed=1;"
             +:+ " " +:+ attr "edge" "1")
            (drawio_edge_cell e).
Proof.
  intros Hd. unfold drawio_edge_cell, drawio_edge_style. rewrite Hd.
  exists "        ". eexists. unfold attr. string_norm. reflexivity.
Qed.

(** ** Dashed edges *)

(** C5 (as amended): a dashed edge of the diagram has, in the text of
    [to_mermaid], its statement with the arrow [-.->], or with [---] when
    its type is [line] (the type wins over the style); in the text of
    [to_graphviz], its statement with [style=dashed] as the last
    attribute; in the document of [to_drawio], its cell with [dashed=1;]
    at the end of the style; and in the document of [to_svg], whenever
    both of its endpoints are nodes of the diagram and the rendering
    succeeds, its [<line>] element with [stroke-dasharray] (otherwise no
    line is drawn for it). *)
Theorem dashed_edge_rendering `{FL : Floats} (c : DiagramConverter) (e : Edge) :
  e ∈ c_edges c -> is_dashed e = true ->
  let fr := default EmptyString (e_from e) in
  let to := default EmptyString (e_to e) in
  let label := default EmptyString (e_label e) in
  let arrow := if bool_decide (e_type e = Some "line") then "---" else "-.->" in
  line_of (if truthy label
           then "    " +:+ fr +:+ " " +:+ arrow +:+ "|" +:+ label +:+ "| " +:+ to
           else "    " +:+ fr +:+ " " +:+ arrow +:+ " " +:+ to)
          (to_mermaid c)
  /\ line_of ("    " +:+ fr +:+ " -> " +:+ to +:+ " ["
              +:+ (if truthy label then "label=" +:+ dq +:+ label +:+ dq +:+ ", "
                   else EmptyString)
              +:+ "style=dashed];")
             (to_graphviz c)
  /\ occurs_in ("<mxCell " +:+ attr "id" ("cell_" +:+ default EmptyString (e_id e)) +:+ " "
                +:+ attr "value" (html_escape label) +:+ " "
                +:+ attr "style" "edgeStyle=orthogonalEdgeStyle;rounded=0;html=1;dashed=1;"
                +:+ " " +:+ attr "edge" "1")
               (to_drawio c)
  /\ (forall i j fn tn out,
        e_from e = Some i -> e_to e = Some j ->
        c_nodes c !! i = Some fn -> c_nodes c !! j = Some tn ->
        to_svg c = Ok out ->
        exists x1 y1 x2 y2,
          let line :=
            "  <line " +:+ attr "x1" x1 +:+ " " +:+ attr "y1" y1 +:+ " "
            +:+ attr "x2" x2 +:+ " " +:+ attr "y2" y2 +:+ " "
            +:+ attr "stroke" "#333" +:+ " " +:+ attr "stroke-width" "2" +:+ " "
            +:+ attr "stroke-dasharray" "8,4" +:+ " "
            +:+ attr "marker-end" "url(#arrow)" +:+ "/>" in
          svg_line (- svg_min_x c + 50) (- svg_min_y c + 50) e fn tn = Ok line
          /\ occurs_in line out).
Proof.
  intros He Hd fr to label arrow. split; [|split; [|split]].
  - assert (mermaid_edge_line e
            = if truthy label
              then "    " +:+ fr +:+ " " +:+ arrow +:+ "|" +:+ label +:+ "| " +:+ to
              else "    " +:+ fr +:+ " " +:+ arrow +:+ " " +:+ to) as <-.
    { unfold mermaid_edge_line, mermaid_arrow. by rewrite Hd. }
    by apply line_of_join, mermaid_edge_line_emitted.
  - unfold fr, to, label. rewrite <- (graphviz_edge_line_dashed e Hd).
    by apply line_of_join, graphviz_edge_line_emitted.
  - eapply occurs_in_trans; [by apply drawio_edge_cell_dashed|].
    by apply drawio_cell_occurs, drawio_edge_cell_emitted.
  - intros i j fn tn out Hi Hj Hfn Htn Hout.
    destruct (to_svg_edge_line c e i j fn tn out He Hi Hj Hfn Htn Hout)
      as (line & Hline & Hocc).
    destruct (svg_line_shape _ _ _ _ _ _ Hline) as (x1 & y1 & x2 & y2 & E).
    exists x1, y1, x2, y2. simpl.
    unfold svg_line_element, svg_dash in E. rewrite Hd in E. by rewrite <- E.
Qed.

Lemma dashed_edge_rendering_witness :
  line_of "    a -.-> b" (to_mermaid dashed_arrow_diagram)
  /\ line_of "    a -> b [style=dashed];" (to_graphviz dashed_arrow_diagram)
  /\ occurs_in ("<mxCell " +:+ attr "id" "cell_e3" +:+ " " +:+ attr "value" EmptyString
                +:+ " "
                +:+ attr "style" "edgeStyle=orthogonalEdgeStyle;rounded=0;html=1;dashed=1;"
                +:+ " " +:+ attr "edge" "1")
               (to_drawio dashed_arrow_diagram)
  /\ (forall i j fn tn out,
        e_from dashed_arrow = Some i -> e_to dashed_arrow = Some j ->
        c_nodes dashed_arrow_diagram !! i = Some fn ->
        c_nodes dashed_arrow_diagram !! j = Some tn ->
        to_svg (FL := exact_floats) dashed_arrow_diagram = Ok out ->
        exists x1 y1 x2 y2,
          let line :=
            "  <line " +:+ attr "x1" x1 +:+ " " +:+ attr "y1" y1 +:+ " "
            +:+ attr "x2" x2 +:+ " " +:+ attr "y2" y2 +:+ " "
            +:+ attr "stroke" "#333" +:+ " " +:+ attr "stroke-width" "2" +:+ " "
            +:+ attr "stroke-dasharray" "8,4" +:+ " "
            +:+ attr "marker-end" "url(#arrow)" +:+ "/>" in
          svg_line (FL := exact_floats) (- svg_min_x dashed_arrow_diagram + 50)
                   (- svg_min_y dashed_arrow_diagram + 50) dashed_arrow fn tn = Ok line
          /\ occurs_in line out).
Proof.
  apply (dashed_edge_rendering (FL := exact_floats) dashed_arrow_diagram dashed_arrow).
  - left.
  - reflexivity.
Defined.

Example dashed_arrow_svg :
  exists out, to_svg (FL := exact_floats) dashed_arrow_diagram = Ok out
              /\ containsb "stroke-dasharray" out = true
              /\ containsb "-.->" (to_mermaid dashed_arrow_diagram) = true.
Proof. eexists. split; [by vm_compute|]. by vm_compute. Qed.

(** C5 (as stated) fails: a dashed edge of type [line] whose target is not
    a node renders without any dash token in the mermaid output and
    without [stroke-dasharray] in the svg output. *)
Lemma dashed_edge_not_dashed :
  dashed_line ∈ c_edges dashed_line_diagram
  /\ is_dashed dashed_line = true
  /\ ~ occurs_in "-." (to_mermaid dashed_line_diagram)
  /\ exists out, to_svg (FL := exact_floats) dashed_line_diagram = Ok out
                 /\ ~ occurs_in "stroke-dasharray" out.
Proof.
  split; [by left|]. split; [done|]. split.
  - intros H%containsb_complete. by vm_compute in H.
  - eexists. split; [by vm_compute|].
    intros H%containsb_complete. by vm_compute in H.
Qed.

(** ** Grouped nodes *)

Lemma elem_of_sorted_nodes c nid node :
  (nid, node) ∈ sorted_nodes c <-> c_nodes c !! nid = Some node.
Proof.
  unfold sorted_nodes. rewrite (elem_of_sorted fst). apply elem_of_map_to_list.
Qed.

Lemma elem_of_sorted_groups c g : g ∈ sorted_groups c <-> g ∈ c_groups c.
Proof. apply elem_of_sorted. Qed.

(** After the top-level declarations of [to_mermaid] comes an empty line:
    the one that opens the first [subgraph] block, or the one before the
    edges. *)
Lemma mermaid_after_top c :
  exists rest,
    concat (mermaid_group_block c <$> sorted_groups c)
    ++ [EmptyString]
    ++ (mermaid_edge_line <$> sorted_edges c)
    ++ (match mermaid_style_lines c with
        | [] => []
        | style_lines => [EmptyString] ++ style_lines
        end)
    = EmptyString :: rest.
Proof. destruct (sorted_groups c) as [|g gs]; simpl; by eexists. Qed.

(** The top-level declarations of [to_mermaid] are the ones of the nodes
    that no group lists, between the [flowchart] line and an empty line. *)
Lemma to_mermaid_top c :
  exists top rest,
    to_mermaid c
    = join nl (mermaid_title_lines c ++ ["flowchart " +:+ mermaid_direction c]
               ++ ((fun p => _mermaid_node p.1 p.2) <$> top) ++ EmptyString :: rest)
    /\ forall i n, (i, n) ∈ top <->
         c_nodes c !! i = Some n /\ forall g, g ∈ c_groups c -> i ∉ g_nodeIds g.
Proof.
  destruct (mermaid_after_top c) as [rest Hrest].
  exists (mermaid_top_nodes c), rest. split.
  - unfold to_mermaid, mermaid_lines, mermaid_top_lines. by rewrite Hrest.
  - intros i n. unfold mermaid_top_nodes.
    rewrite list_elem_of_filter, elem_of_sorted_nodes, elem_of_grouped. simpl.
    split.
    + intros [Hout Hin]. split; [done|]. intros g Hg Hi. apply Hout. by exists g.
    + intros [Hin Hout]. split; [|done]. intros (g & Hg & Hi). by apply (Hout g).
Qed.

(** The [subgraph] block of every group is in the text of [to_mermaid]. *)
Lemma mermaid_group_block_of c g :
  g ∈ c_groups c -> block_of (mermaid_group_block c g) (to_mermaid c).
Proof.
  intros Hg.
  destruct (concat_fmap_split (mermaid_group_block c) (sorted_groups c) g)
    as (l1 & l2 & Hsplit); [by apply elem_of_sorted_groups|].
  unfold to_mermaid, mermaid_lines. rewrite Hsplit.
  exists (mermaid_title_lines c ++ ["flowchart " +:+ mermaid_direction c]
            ++ mermaid_top_lines c ++ l1).
  eexists (l2 ++ _). f_equal. rewrite <- !app_assoc. reflexivity.
Qed.

(** The top-level statements of [to_graphviz] are the ones of all the
    nodes, between the header and an empty line. *)
Lemma to_graphviz_top c :
  to_graphviz c
  = join nl (graphviz_header c
             ++ ((fun p => graphviz_node_line p.1 p.2) <$> sorted_nodes c)
             ++ EmptyString
                :: (graphviz_edge_line <$> sorted_edges c)
                   ++ concat (graphviz_cluster <$> sorted_groups c) ++ ["}"]).
Proof. reflexivity. Qed.

(** The [cluster] block of every group is in the text of [to_graphviz]. *)
Lemma graphviz_cluster_of c g :
  g ∈ c_groups c -> block_of (graphviz_cluster g) (to_graphviz c).
Proof.
  intros Hg.
  destruct (concat_fmap_split graphviz_cluster (sorted_groups c) g)
    as (l1 & l2 & Hsplit); [by apply elem_of_sorted_groups|].
  unfold to_graphviz, graphviz_lines. rewrite Hsplit.
  exists (graphviz_header c ++ graphviz_node_lines c ++ [EmptyString]
            ++ (graphviz_edge_line <$> sorted_edges c) ++ l1).
  exists (l2 ++ ["}"]). f_equal. rewrite <- !app_assoc. reflexivity.
Qed.

(** C7: for a node whose id is listed by a group, the text of [to_mermaid]
    has no top-level declaration (the declarations between the [flowchart]
    line and the first empty line are those of nodes that no group lists)
    and has its declaration inside the [subgraph] block of that group; the
    text of [to_graphviz] has both its statement among the top-level node
    statements, between the header and the first empty line, and its
    entry inside the [cluster] block of the group. *)
Theorem grouped_node_declarations (c : DiagramConverter) (nid : string) (node : Node)
    (g : Group) :
  c_nodes c !! nid = Some node -> g ∈ c_groups c -> nid ∈ g_nodeIds g ->
  (exists top rest,
      to_mermaid c
      = join nl (mermaid_title_lines c ++ ["flowchart " +:+ mermaid_direction c]
                 ++ ((fun p => _mermaid_node p.1 p.2) <$> top) ++ EmptyString :: rest)
      /\ (forall i n, (i, n) ∈ top ->
            c_nodes c !! i = Some n /\ forall g', g' ∈ c_groups c -> i ∉ g_nodeIds g')
      /\ (nid ∉ top.*1))
  /\ (exists members,
        ("    " +:+ _mermaid_node nid node) ∈ members
        /\ block_of ([EmptyString;
                      "    subgraph " +:+ default "group" (g_id g) +:+ "["
                        +:+ str_opt (group_label g) +:+ "]"]
                     ++ members ++ ["    end"])
                    (to_mermaid c))
  /\ (exists statements rest,
        to_graphviz c = join nl (graphviz_header c ++ statements ++ EmptyString :: rest)
        /\ graphviz_node_line nid node ∈ statements)
  /\ (exists entries,
        ("        " +:+ nid +:+ ";") ∈ entries
        /\ block_of ([EmptyString;
                      "    subgraph cluster_" +:+ default EmptyString (g_id g) +:+ " {";
                      "        label=" +:+ dq +:+ str_opt (group_label g) +:+ dq +:+ ";"]
                     ++ entries ++ ["    }"])
                    (to_graphviz c)).
Proof.
  intros Hnode Hg Hnid. split; [|split; [|split]].
  - destruct (to_mermaid_top c) as (top & rest & Hout & Htop).
    exists top, rest. split; [done|]. split.
    + intros i n Hin. by apply Htop.
    + intros ([i n] & -> & Hin)%list_elem_of_fmap. apply Htop in Hin as [_ Hout'].
      by apply (Hout' g).
  - exists (mermaid_member_lines c g). split.
    + unfold mermaid_member_lines. apply list_elem_of_omap. exists nid.
      split; [by apply (elem_of_sorted id) | by rewrite Hnode].
    + by apply mermaid_group_block_of.
  - eexists _, _. split; [apply to_graphviz_top|].
    apply (list_elem_of_fmap_2 (fun p => graphviz_node_line p.1 p.2) _ (nid, node)).
    by apply elem_of_sorted_nodes.
  - exists ((fun nid => "        " +:+ nid +:+ ";") <$> sorted id (g_nodeIds g)). split.
    + apply (list_elem_of_fmap_2 (fun nid => "        " +:+ nid +:+ ";")).
      by apply (elem_of_sorted id).
    + by apply graphviz_cluster_of.
Qed.

Lemma grouped_node_declarations_witness :
  (exists top rest,
      to_mermaid grouped_diagram
      = join nl (mermaid_title_lines grouped_diagram
                 ++ ["flowchart " +:+ mermaid_direction grouped_diagram]
                 ++ ((fun p => _mermaid_node p.1 p.2) <$> top) ++ EmptyString :: rest)
      /\ (forall i n, (i, n) ∈ top ->
            c_nodes grouped_diagram !! i = Some n
            /\ forall g', g' ∈ c_groups grouped_diagram -> i ∉ g_nodeIds g')
      /\ ("b" ∉ top.*1))
  /\ (exists members,
        ("    " +:+ _mermaid_node "b" node_b) ∈ members
        /\ block_of ([EmptyString; "    subgraph g[G]"] ++ members ++ ["    end"])
                    (to_mermaid grouped_diagram))
  /\ (exists statements rest,
        to_graphviz grouped_diagram
        = join nl (graphviz_header grouped_diagram ++ statements ++ EmptyString :: rest)
        /\ graphviz_node_line "b" node_b ∈ statements)
  /\ (exists entries,
        "        b;" ∈ entries
        /\ block_of ([EmptyString; "    subgraph cluster_g {";
                      "        label=" +:+ dq +:+ "G" +:+ dq +:+ ";"]
                     ++ entries ++ ["    }"])
                    (to_graphviz grouped_diagram)).
Proof.
  apply (grouped_node_declarations grouped_diagram "b" node_b group_g).
  - by vm_compute.
  - left.
  - left.
Defined.

Example grouped_node_outputs :
  to_mermaid grouped_diagram
  = join nl ["flowchart TD"; "    a[" +:+ dq +:+ "a" +:+ dq +:+ "]"; EmptyString;
             "    subgraph g[G]"; "        b[" +:+ dq +:+ "b" +:+ dq +:+ "]"; "    end";
             EmptyString; "    a --> b"; "    b --> a"]
  /\ to_graphviz grouped_diagram
     = join nl ["digraph G {"; "    rankdir=TB;";
                "    node [fontname=" +:+ dq +:+ "Arial" +:+ dq +:+ "];"; EmptyString;
                "    a [label=" +:+ dq +:+ "a" +:+ dq +:+ ", shape=box];";
                "    b [label=" +:+ dq +:+ "b" +:+ dq +:+ ", shape=box];"; EmptyString;
                "    a -> b;"; "    b -> a;"; EmptyString;
                "    subgraph cluster_g {"; "        label=" +:+ dq +:+ "G" +:+ dq +:+ ";";
                "        b;"; "    }"; "}"].
Proof. split; by vm_compute. Qed.

(** ** Dangling edges *)

Lemma dangling_spec c e :
  dangling c e = true <->
  exists fr to, e_from e = Some fr /\ e_to e = Some to
                /\ (c_nodes c !! fr = None \/ c_nodes c !! to = None).
Proof.
  unfold dangling. split.
  - destruct (e_from e) as [fr|]; [|done]. destruct (e_to e) as [to|]; [|done].
    intros H. exists fr, to. split; [done|]. split; [done|].
    apply negb_true_iff, andb_false_iff in H as [H|H];
      apply bool_decide_eq_false in H; rewrite <- eq_None_not_Some in H; auto.
  - intros (fr & to & -> & -> & H). apply negb_true_iff, andb_false_iff.
    destruct H as [H|H]; rewrite H; [left|right];
      apply bool_decide_eq_false; by intros [? ?].
Qed.

Section Dangling.
Context `{FL : Floats}.

(** The edge loop of [to_svg] passes over a dangling edge. *)
Lemma svg_edge_step_dangling c ox oy elements e :
  dangling c e = true -> svg_edge_step c ox oy elements e = Ok elements.
Proof.
  intros (fr & to & Hfr & Hto & H)%dangling_spec.
  unfold svg_edge_step. rewrite Hfr, Hto. simpl.
  destruct H as [-> | ->]; [done|]. by destruct (c_nodes c !! fr).
Qed.

Lemma to_svg_without_dangling c : to_svg (without_dangling c) = to_svg c.
Proof.
  unfold to_svg, svg_elements, svg_max_x, svg_max_y, svg_min_x, svg_min_y,
    node_xs, node_ys, node_values, sorted_nodes, sorted_edges. simpl.
  change (svg_edge_step (without_dangling c)) with (svg_edge_step c).
  rewrite <- filter_sorted.
  rewrite (for_each_filter _ (fun e => dangling c e = false)); [done|].
  intros e acc He. apply svg_edge_step_dangling. by destruct (dangling c e).
Qed.

End Dangling.

(** C8: an edge whose [from] or [to] identifier is not the id of a node is
    passed over by [to_svg]: the iteration leaves the element list as it
    is and raises nothing, and the document is the one of the diagram
    without such edges.  The texts of [to_mermaid] and of [to_graphviz]
    still have the statement of the edge, with the two identifiers as
    they are. *)
Theorem dangling_edge_rendering `{FL : Floats} (c : DiagramConverter) (e : Edge)
    (fr to : string) :
  e ∈ c_edges c -> e_from e = Some fr -> e_to e = Some to ->
  c_nodes c !! fr = None \/ c_nodes c !! to = None ->
  let label := default EmptyString (e_label e) in
  (forall ox oy elements, svg_edge_step c ox oy elements e = Ok elements)
  /\ (e ∉ c_edges (without_dangling c))
  /\ to_svg c = to_svg (without_dangling c)
  /\ (exists arrow,
        arrow ∈ ["-->"; "-.->"; "---"]
        /\ line_of (if truthy label
                    then "    " +:+ fr +:+ " " +:+ arrow +:+ "|" +:+ label +:+ "| " +:+ to
                    else "    " +:+ fr +:+ " " +:+ arrow +:+ " " +:+ to)
                   (to_mermaid c))
  /\ (exists attributes,
        line_of ("    " +:+ fr +:+ " -> " +:+ to +:+ attributes +:+ ";") (to_graphviz c)).
Proof.
  intros He Hfr Hto Hnone label.
  assert (Hd : dangling c e = true) by (apply dangling_spec; eauto 6).
  split; [|split; [|split; [|split]]].
  - intros ox oy elements. by apply svg_edge_step_dangling.
  - simpl. intros [Hf _]%list_elem_of_filter. congruence.
  - by rewrite to_svg_without_dangling.
  - exists (mermaid_arrow e). split.
    + unfold mermaid_arrow. rewrite !elem_of_cons.
      destruct (bool_decide (e_type e = Some "line")); [auto|].
      destruct (is_dashed e); auto.
    + assert (mermaid_edge_line e
              = if truthy label
                then "    " +:+ fr +:+ " " +:+ mermaid_arrow e +:+ "|" +:+ label
                     +:+ "| " +:+ to
                else "    " +:+ fr +:+ " " +:+ mermaid_arrow e +:+ " " +:+ to) as <-.
      { unfold mermaid_edge_line. by rewrite Hfr, Hto. }
      by apply line_of_join, mermaid_edge_line_emitted.
  - eexists.
    assert (graphviz_edge_line e = "    " +:+ fr +:+ " -> " +:+ to +:+ _ +:+ ";") as <-.
    { unfold graphviz_edge_line. rewrite Hfr, Hto. reflexivity. }
    by apply line_of_join, graphviz_edge_line_emitted.
Qed.

Lemma dangling_edge_rendering_witness :
  (forall ox oy elements,
      svg_edge_step (FL := exact_floats) ghost_diagram ox oy elements ghost_edge
      = Ok elements)
  /\ (ghost_edge ∉ c_edges (without_dangling ghost_diagram))
  /\ to_svg (FL := exact_floats) ghost_diagram
     = to_svg (FL := exact_floats) (without_dangling ghost_diagram)
  /\ (exists arrow,
        arrow ∈ ["-->"; "-.->"; "---"]
        /\ line_of ("    " +:+ "a" +:+ " " +:+ arrow +:+ " " +:+ "ghost")
                   (to_mermaid ghost_diagram))
  /\ (exists attributes,
        line_of ("    " +:+ "a" +:+ " -> " +:+ "ghost" +:+ attributes +:+ ";")
                (to_graphviz ghost_diagram)).
Proof.
  apply (dangling_edge_rendering (FL := exact_floats) ghost_diagram ghost_edge "a" "ghost").
  - right. left.
  - reflexivity.
  - reflexivity.
  - right. by vm_compute.
Defined.

Example ghost_edge_outputs :
  c_edges (without_dangling ghost_diagram) = [edge_ab]
  /\ containsb (nl +:+ "    a --> ghost") (to_mermaid ghost_diagram) = true
  /\ containsb (nl +:+ "    a -> ghost;" +:+ nl) (to_graphviz ghost_diagram) = true
  /\ succeeds (to_svg (FL := exact_floats) ghost_diagram) = true.
Proof. repeat split; by vm_compute. Qed.

(** ** convert *)

(** C9: [convert] looks the lowercased format name up.  A name that
    lowercases to one of the four formats gives what the render method of
    that format gives, and any other name raises [KeyError] with the
    lowercased name instead of returning output. *)
Theorem convert_dispatch `{FL : Floats} (c : DiagramConverter) (fmt : string) :
  (lower fmt = "mermaid" -> convert c fmt = Ok (to_mermaid c))
  /\ (lower fmt = "graphviz" -> convert c fmt = Ok (to_graphviz c))
  /\ (lower fmt = "drawio" -> convert c fmt = Ok (to_drawio c))
  /\ (lower fmt = "svg" -> convert c fmt = to_svg c)
  /\ (lower fmt ∉ ["mermaid"; "graphviz"; "drawio"; "svg"] ->
      convert c fmt = Raise (KeyError (lower fmt)))
  /\ convert c "MERMAID" = Ok (to_mermaid c).
Proof.
  unfold convert. repeat split.
  - by intros ->.
  - by intros ->.
  - by intros ->.
  - by intros ->.
  - intros Hout. rewrite !bool_decide_eq_false_2; [done|..];
      intros E; apply Hout; rewrite E; repeat constructor.
Qed.

Lemma convert_dispatch_witness :
  convert (FL := exact_floats) structured "Mermaid" = Ok (to_mermaid structured)
  /\ convert (FL := exact_floats) structured "GraphViz" = Ok (to_graphviz structured)
  /\ convert (FL := exact_floats) structured "DRAWIO" = Ok (to_drawio structured)
  /\ convert (FL := exact_floats) structured "Svg" = to_svg (FL := exact_floats) structured
  /\ convert (FL := exact_floats) structured "PNG" = Raise (KeyError (lower "PNG")).
Proof.
  split; [|split; [|split; [|split]]].
  - by apply (proj1 (convert_dispatch (FL := exact_floats) structured "Mermaid")).
  - by apply (proj1 (proj2 (convert_dispatch (FL := exact_floats) structured "GraphViz"))).
  - by apply (proj1 (proj2 (proj2
        (convert_dispatch (FL := exact_floats) structured "DRAWIO")))).
  - by apply (proj1 (proj2 (proj2 (proj2
        (convert_dispatch (FL := exact_floats) structured "Svg"))))).
  - apply (proj1 (proj2 (proj2 (proj2 (proj2
        (convert_dispatch (FL := exact_floats) structured "PNG")))))).
    apply (bool_decide_unpack _). vm_compute. exact I.
Defined.

(** ** When to_svg succeeds *)

Lemma index_raised {A} key (o : option A) e :
  index key o = Raise e -> e = KeyError key /\ o = None.
Proof. destruct o; simpl; [done|]. by intros [= <-]. Qed.

(** The limits leave room for the sums [to_svg] forms. *)
Lemma limits_room : 2 * geometry_limit + 50 < float_limit /\ 5 < geometry_limit.
Proof. split; by vm_compute. Qed.

Section SvgOutcome.
Context `{FL : Floats}.

Lemma to_float_raised z e : to_float z = Raise e -> e = OverflowError.
Proof. unfold to_float. destruct (float_of_int z); congruence. Qed.

Lemma int_half_raised z e : int_half z = Raise e -> e = OverflowError.
Proof. unfold int_half. destruct (half_of_int z); congruence. Qed.

Lemma middle_raised x w e : middle x w = Raise e -> e = OverflowError.
Proof.
  unfold middle, int_add_float. intros H.
  apply bind_Raise_inv in H as [H|(h & _ & H)]; [by apply int_half_raised in H|].
  apply bind_Raise_inv in H as [H|(g & _ & H)]; [by apply to_float_raised in H|done].
Qed.

Lemma middle_plus_raised x w o e : middle_plus x w o = Raise e -> e = OverflowError.
Proof.
  unfold middle_plus, float_add_int. intros H.
  apply bind_Raise_inv in H as [H|(m & _ & H)]; [by apply middle_raised in H|].
  apply bind_Raise_inv in H as [H|(g & _ & H)]; [by apply to_float_raised in H|done].
Qed.

(** What the drawing of one node, or of the line between two, can raise:
    [OverflowError], or [KeyError] for a coordinate that is missing. *)
Definition node_raises (n : Node) (e : exn) : Prop :=
  e = OverflowError
  \/ (e = KeyError "x" /\ n_x n = None)
  \/ (e = KeyError "y" /\ n_y n = None).

Lemma svg_line_raised ox oy edge fn tn e :
  svg_line ox oy edge fn tn = Raise e -> node_raises fn e \/ node_raises tn e.
Proof.
  unfold svg_line, node_raises. intros H.
  apply bind_Raise_inv in H as [H|(fx & _ & H)];
    [apply index_raised in H as [-> ?]; auto|].
  apply bind_Raise_inv in H as [H|(x1 & _ & H)];
    [apply middle_plus_raised in H; auto|].
  apply bind_Raise_inv in H as [H|(fy & _ & H)];
    [apply index_raised in H as [-> ?]; auto|].
  apply bind_Raise_inv in H as [H|(y1 & _ & H)];
    [apply middle_plus_raised in H; auto|].
  apply bind_Raise_inv in H as [H|(tx & _ & H)];
    [apply index_raised in H as [-> ?]; auto|].
  apply bind_Raise_inv in H as [H|(x2 & _ & H)];
    [apply middle_plus_raised in H; auto|].
  apply bind_Raise_inv in H as [H|(ty & _ & H)];
    [apply index_raised in H as [-> ?]; auto|].
  apply bind_Raise_inv in H as [H|(y2 & _ & H)];
    [apply middle_plus_raised in H; auto|done].
Qed.

Lemma svg_node_step_raised ox oy acc nid node e :
  svg_node_step ox oy acc (nid, node) = Raise e -> node_raises node e.
Proof.
  unfold svg_node_step, node_raises. intros H.
  apply bind_Raise_inv in H as [H|(nx & _ & H)];
    [apply index_raised in H as [-> ?]; auto|].
  apply bind_Raise_inv in H as [H|(ny & _ & H)];
    [apply index_raised in H as [-> ?]; auto|].
  apply bind_Raise_inv in H as [H|(tx & _ & H)];
    [apply middle_raised in H; auto|].
  apply bind_Raise_inv in H as [H|(ty & _ & H)];
    [apply middle_plus_raised in H; auto|done].
Qed.

Lemma svg_edge_step_raised c ox oy acc edge e :
  svg_edge_step c ox oy acc edge = Raise e ->
  (e = KeyError "from" /\ e_from edge = None)
  \/ (e = KeyError "to" /\ e_to edge = None)
  \/ exists i n, c_nodes c !! i = Some n /\ node_raises n e.
Proof.
  unfold svg_edge_step. intros H.
  apply bind_Raise_inv in H as [H|(fr & _ & H)];
    [apply index_raised in H as [-> ?]; auto|].
  apply bind_Raise_inv in H as [H|(to & _ & H)];
    [apply index_raised in H as [-> ?]; auto|].
  destruct (c_nodes c !! fr) as [fn|] eqn:Hfn; [|done].
  destruct (c_nodes c !! to) as [tn|] eqn:Htn; [|done].
  apply bind_Raise_inv in H as [H|(? & _ & H)]; [|done].
  right. right. apply svg_line_raised in H as [H|H]; eauto.
Qed.

(** Whatever [to_svg] raises is [OverflowError], or [KeyError] for a key
    that an edge or a node of the diagram does not have. *)
Lemma to_svg_raised c e :
  to_svg c = Raise e ->
  e = OverflowError
  \/ (e = KeyError "from" /\ exists edge, edge ∈ c_edges c /\ e_from edge = None)
  \/ (e = KeyError "to" /\ exists edge, edge ∈ c_edges c /\ e_to edge = None)
  \/ (e = KeyError "x" /\ exists i n, c_nodes c !! i = Some n /\ n_x n = None)
  \/ (e = KeyError "y" /\ exists i n, c_nodes c !! i = Some n /\ n_y n = None).
Proof.
  assert (Hnode : forall i n, c_nodes c !! i = Some n -> node_raises n e ->
    e = OverflowError
    \/ (e = KeyError "from" /\ exists edge, edge ∈ c_edges c /\ e_from edge = None)
    \/ (e = KeyError "to" /\ exists edge, edge ∈ c_edges c /\ e_to edge = None)
    \/ (e = KeyError "x" /\ exists i n, c_nodes c !! i = Some n /\ n_x n = None)
    \/ (e = KeyError "y" /\ exists i n, c_nodes c !! i = Some n /\ n_y n = None)).
  { intros i n Hin [->|[[-> Hx]|[-> Hy]]]; [by left|..].
    - do 3 right. left. eauto.
    - do 4 right. eauto. }
  unfold to_svg. destruct (bool_decide (c_nodes c = ∅)); [done|].
  intros H. apply bind_Raise_inv in H as [H|(? & _ & H)]; [|done].
  unfold svg_elements in H. apply bind_Raise_inv in H as [H|(els & _ & H)].
  - apply for_each_raised in H as (acc0 & edge & Hin%elem_of_sorted_edges & H).
    apply svg_edge_step_raised in H as [[-> Hfr]|[[-> Hto]|(i & n & Hn & H)]].
    + right. left. eauto.
    + right. right. left. eauto.
    + by apply (Hnode i n).
  - apply for_each_raised in H as (acc0 & [i n] & Hin%elem_of_sorted_nodes & H).
    apply svg_node_step_raised in H. by apply (Hnode i n).
Qed.

Lemma svg_node_step_Ok_inv ox oy acc nid node acc' :
  svg_node_step ox oy acc (nid, node) = Ok acc' -> has_position node.
Proof.
  unfold svg_node_step, has_position. intros H.
  apply bind_Ok_inv in H as (nx & Hx%index_Ok_inv & H).
  apply bind_Ok_inv in H as (ny & Hy%index_Ok_inv & _).
  rewrite Hx, Hy. split; by eexists.
Qed.

Lemma svg_edge_step_Ok_inv c ox oy acc e acc' :
  svg_edge_step c ox oy acc e = Ok acc' -> has_endpoints e.
Proof.
  unfold svg_edge_step, has_endpoints. intros H.
  apply bind_Ok_inv in H as (fr & Hfr%index_Ok_inv & H).
  apply bind_Ok_inv in H as (to & Hto%index_Ok_inv & _).
  rewrite Hfr, Hto. split; by eexists.
Qed.

(** When [to_svg] returns, every key it indexes was there. *)
Lemma to_svg_Ok_inv c out :
  c_nodes c <> ∅ -> to_svg c = Ok out ->
  (forall i n, c_nodes c !! i = Some n -> has_position n)
  /\ (forall e, e ∈ c_edges c -> has_endpoints e).
Proof.
  intros Hne Hout.
  destruct (to_svg_elements c out Hne Hout) as (elements & H & _).
  unfold svg_elements in H. apply bind_Ok_inv in H as (els & Hedges & Hnodes). split.
  - intros i n Hin.
    destruct (for_each_succeeded _ _ _ _ (i, n) Hnodes) as (acc0 & acc1 & Hstep);
      [by apply elem_of_sorted_nodes|].
    by eapply svg_node_step_Ok_inv.
  - intros e He.
    destruct (for_each_succeeded _ _ _ _ e Hedges) as (acc0 & acc1 & Hstep);
      [by apply elem_of_sorted_edges|].
    by eapply svg_edge_step_Ok_inv.
Qed.


(** *** Ints that fit *)

Hypothesis floats_fit : floats_hold_ints.

Lemma to_float_fits z : Z.abs z < float_limit -> exists f, to_float z = Ok f.
Proof.
  intros Hz. destruct (floats_fit z Hz) as [[f Hf] _]. unfold to_float. rewrite Hf.
  by eexists.
Qed.

Lemma int_half_fits z : Z.abs z < float_limit -> exists f, int_half z = Ok f.
Proof.
  intros Hz. destruct (floats_fit z Hz) as [_ [f Hf]]. unfold int_half. rewrite Hf.
  by eexists.
Qed.

Lemma middle_fits x w :
  Z.abs x < float_limit -> Z.abs w < float_limit -> exists f, middle x w = Ok f.
Proof.
  intros Hx Hw. unfold middle, int_add_float.
  destruct (int_half_fits w Hw) as [h ->]. simpl.
  destruct (to_float_fits x Hx) as [g ->]. by eexists.
Qed.

Lemma middle_plus_fits x w o :
  Z.abs x < float_limit -> Z.abs w < float_limit -> Z.abs o < float_limit ->
  exists f, middle_plus x w o = Ok f.
Proof.
  intros Hx Hw Ho. unfold middle_plus, float_add_int.
  destruct (middle_fits x w Hx Hw) as [m ->]. simpl.
  destruct (to_float_fits o Ho) as [g ->]. by eexists.
Qed.

Lemma svg_line_fits ox oy e fn tn :
  has_position fn -> has_position tn -> small_node fn -> small_node tn ->
  Z.abs ox < float_limit -> Z.abs oy < float_limit ->
  exists line, svg_line ox oy e fn tn = Ok line.
Proof.
  intros [[fx Hfx] [fy Hfy]] [[tx Htx] [ty Hty]] (Fx & Fy & Fw & Fh) (Tx & Ty & Tw & Th)
    Hox Hoy.
  rewrite Hfx in Fx. rewrite Hfy in Fy. rewrite Htx in Tx. rewrite Hty in Ty.
  simpl in Fx, Fy, Tx, Ty.
  destruct limits_room as [Hroom _].
  unfold svg_line. rewrite Hfx, Hfy, Htx, Hty. simpl.
  destruct (middle_plus_fits fx (default 120 (n_width fn)) ox) as [x1 ->]; [lia..|]. simpl.
  destruct (middle_plus_fits fy (default 60 (n_height fn)) oy) as [y1 ->]; [lia..|]. simpl.
  destruct (middle_plus_fits tx (default 120 (n_width tn)) ox) as [x2 ->]; [lia..|]. simpl.
  destruct (middle_plus_fits ty (default 60 (n_height tn)) oy) as [y2 ->]; [lia..|]. simpl.
  by eexists.
Qed.

Lemma svg_edge_step_fits c ox oy acc e :
  (forall i n, c_nodes c !! i = Some n -> has_position n) ->
  small_geometry c -> has_endpoints e ->
  Z.abs ox < float_limit -> Z.abs oy < float_limit ->
  exists acc', svg_edge_step c ox oy acc e = Ok acc'.
Proof.
  intros Hpos Hsmall [[fr Hfr] [to Hto]] Hox Hoy.
  unfold svg_edge_step. rewrite Hfr, Hto. simpl.
  destruct (c_nodes c !! fr) as [fn|] eqn:Hfn; [|by eexists].
  destruct (c_nodes c !! to) as [tn|] eqn:Htn; [|by eexists].
  destruct (svg_line_fits ox oy e fn tn) as [line ->]; [by eauto..|].
  by eexists.
Qed.

Lemma svg_node_step_fits ox oy acc nid node :
  has_position node -> small_node node ->
  Z.abs ox <= geometry_limit + 50 -> Z.abs oy <= geometry_limit + 50 ->
  exists acc', svg_node_step ox oy acc (nid, node) = Ok acc'.
Proof.
  intros [[nx Hx] [ny Hy]] (Sx & Sy & Sw & Sh) Hox Hoy.
  rewrite Hx in Sx. rewrite Hy in Sy. simpl in Sx, Sy.
  destruct limits_room as [Hroom Hfive].
  unfold svg_node_step. rewrite Hx, Hy. simpl.
  destruct (middle_fits (nx + ox) (default 120 (n_width node))) as [tx ->]; [lia..|]. simpl.
  destruct (middle_plus_fits (ny + oy) (default 60 (n_height node)) 5) as [ty ->];
    [lia..|]. simpl.
  by eexists.
Qed.

(** The offsets are as small as the coordinates. *)
Lemma svg_offsets_small c :
  c_nodes c <> ∅ -> small_geometry c ->
  Z.abs (- svg_min_x c + 50) <= geometry_limit + 50
  /\ Z.abs (- svg_min_y c + 50) <= geometry_limit + 50.
Proof.
  intros Hne Hsmall.
  assert (Hx : node_xs c <> []).
  { unfold node_xs. intros H%fmap_nil_inv. by apply (node_values_nonempty c). }
  assert (Hy : node_ys c <> []).
  { unfold node_ys. intros H%fmap_nil_inv. by apply (node_values_nonempty c). }
  destruct (min_list_spec _ Hx) as [Mx _]. destruct (min_list_spec _ Hy) as [My _].
  unfold node_xs in Mx. unfold node_ys in My.
  apply list_elem_of_fmap in Mx as (n1 & E1 & [i1 H1]%elem_of_node_values).
  apply list_elem_of_fmap in My as (n2 & E2 & [i2 H2]%elem_of_node_values).
  destruct (Hsmall i1 n1 H1) as (S1 & _). destruct (Hsmall i2 n2 H2) as (_ & S2 & _).
  unfold svg_min_x, svg_min_y, node_xs, node_ys. rewrite E1, E2. lia.
Qed.

(** With every key there and a small geometry, [to_svg] returns. *)
Lemma to_svg_fits c :
  small_geometry c ->
  (forall i n, c_nodes c !! i = Some n -> has_position n) ->
  (forall e, e ∈ c_edges c -> has_endpoints e) ->
  succeeds (to_svg c) = true.
Proof.
  intros Hsmall Hpos Hends. unfold to_svg.
  destruct (bool_decide (c_nodes c = ∅)) eqn:Hempty; [done|].
  apply bool_decide_eq_false in Hempty.
  destruct (svg_offsets_small c Hempty Hsmall) as [Hox Hoy].
  destruct limits_room as [Hroom Hfive].
  assert (exists elements, svg_elements c = Ok elements) as [elements ->]; [|done].
  unfold svg_elements.
  destruct (for_each_succeeds
              (svg_edge_step c (- svg_min_x c + 50) (- svg_min_y c + 50))
              (sorted_edges c) []) as [els ->].
  { intros e acc He. apply svg_edge_step_fits; [done|done| |lia|lia].
    by apply Hends, elem_of_sorted_edges. }
  simpl. apply for_each_succeeds. intros [i n] acc Hin%elem_of_sorted_nodes.
  apply svg_node_step_fits; eauto.
Qed.

End SvgOutcome.



Lemma exact_floats_fit : floats_hold_ints (FL := exact_floats).
Proof. intros z _. split; by eexists. Defined.



Example svg_unplaced :
  to_svg (FL := exact_floats) unplaced_diagram = Raise (KeyError "x")
  /\ containsb (attr "x" "0" +:+ " " +:+ attr "y" "0" +:+ " " +:+ attr "width" "120"
                +:+ " " +:+ attr "height" "60") (to_drawio unplaced_diagram) = true.
Proof. split; by vm_compute. Qed.

(** A box too wide for a float: the midpoint of its text overflows. *)
Example svg_overflow :
  to_svg (FL := capped_floats) wide_diagram = Raise OverflowError
  /\ (forall i n, c_nodes wide_diagram !! i = Some n -> has_position n).
Proof.
  split; [by vm_compute|].
  intros i n Hin. apply elem_of_map_to_list in Hin. vm_compute in Hin.
  apply list_elem_of_singleton in Hin. injection Hin as _ ->. split; by eexists.
Qed.


(** * Further properties *)

(** ** The identifiers of sanitize_id *)

Lemma ident_char_cases c :
  (negb (spec_outside c) || is_underscore c = is_ident_char c)
  /\ (is_ident_char c = true -> is_underscore c = false -> isdigit c = false ->
      is_az c = true)
  /\ (is_ident_char c = true -> is_ident_char (lower_char c) = true).
Proof. destruct c as [[] [] [] [] [] [] [] []]; vm_compute; auto. Qed.

Lemma str_forall_ext p q s :
  (forall c, p c = q c) -> str_forall p s = str_forall q s.
Proof. intros H. induction s as [|c s IH]; simpl; [done|]. by rewrite H, IH. Qed.

Lemma cleaned_chars text : str_forall is_ident_char (cleaned text) = true.
Proof.
  rewrite <- (str_forall_ext _ _ _ (fun c => proj1 (ident_char_cases c))).
  unfold cleaned, strip, re_sub. apply rstrip_forall, lstrip_forall.
  apply re_sub_go_keeps_forall; [done|].
  apply re_sub_go_forall; [|done]. intros c Hc. by rewrite Hc.
Qed.

Lemma lstrip_head cls s c :
  head_char (lstrip cls s) = Some c -> cls c = false.
Proof.
  induction s as [|a s IH]; simpl; [done|].
  destruct (cls a) eqn:Ha; [done|]. simpl. by intros [= <-].
Qed.

Lemma rstrip_head cls s c :
  head_char (rstrip cls s) = Some c -> head_char s = Some c.
Proof.
  destruct s as [|a s]; simpl; [done|].
  by destruct (cls a && is_empty (rstrip cls s)).
Qed.

Lemma cleaned_head text c : head_char (cleaned text) = Some c -> is_underscore c = false.
Proof. unfold cleaned, strip. intros H%rstrip_head. by apply lstrip_head in H. Qed.

(** The decimal digits of a number are digits. *)
Lemma pretty_N_go_digits (x : N) s :
  str_forall is_09 s = true -> str_forall is_09 (pretty_N_go x s) = true.
Proof.
  revert s. induction (N.lt_wf_0 x) as [x _ IH]; intros s Hs.
  destruct (decide (x = 0%N)) as [->|Hx]; [by rewrite pretty_N_go_0|].
  rewrite pretty_N_go_step by lia. apply IH; [apply N.div_lt; lia|].
  simpl. rewrite Hs, andb_true_r.
  unfold pretty_N_char. by repeat case_match.
Qed.

Lemma pretty_N_digits (x : N) : str_forall is_09 (pretty x) = true.
Proof.
  unfold pretty, pretty_N. destruct (decide (x = 0%N)); [done|].
  by apply pretty_N_go_digits.
Qed.

Lemma str_forall_impl (p q : ascii -> bool) s :
  (forall c, p c = true -> q c = true) -> str_forall p s = true -> str_forall q s = true.
Proof.
  intros H. induction s as [|c s IH]; simpl; [done|].
  intros [Hc Hs]%andb_true_iff. by rewrite (H c Hc), IH.
Qed.

Lemma identifier_candidate orig i : identifier orig -> identifier (candidate orig i).
Proof.
  intros [Hall (c & rest & -> & Hc)]. unfold candidate. split.
  - rewrite !str_forall_append, Hall. simpl.
    apply (str_forall_impl is_09); [|apply pretty_N_digits].
    intros a Ha. unfold is_ident_char. by rewrite Ha, orb_true_r.
  - exists c, (rest +:+ "_" +:+ pretty i). by rewrite append_cons.
Qed.

Lemma sanitize_base_identifier text : identifier (sanitize_base text).
Proof.
  destruct (is_empty text) eqn:Hne.
  { destruct text; [|done]. split; [done|]. by exists "n"%char, "ode". }
  rewrite (sanitize_base_cleaned _ Hne).
  pose proof (cleaned_chars text) as Hall.
  pose proof (cleaned_head text) as Hhead.
  destruct (cleaned text) as [|c rest] eqn:Hcl; simpl.
  { split; [done|]. by exists "n"%char, "ode_". }
  simpl in Hall. apply andb_true_iff in Hall as [Hc Hrest].
  destruct (isdigit c) eqn:Hd.
  - split; [|by exists "n"%char, ("ode_" +:+ String c rest)].
    rewrite str_forall_append. simpl. by rewrite Hc, Hrest.
  - split; [simpl; by rewrite Hc, Hrest|]. exists c, rest. split; [done|].
    apply (proj1 (proj2 (ident_char_cases c))); [done| |done]. by apply Hhead.
Qed.

Lemma suffix_loop_shape ex orig fuel cand i :
  suffix_loop fuel ex orig cand i = cand
  \/ exists k, suffix_loop fuel ex orig cand i = candidate orig k.
Proof.
  revert cand i. induction fuel as [|fuel IH]; intros cand i; simpl; [by left|].
  destruct (decide (cand ∈ ex)); [|by left].
  right. destruct (IH (candidate orig i) (i + 1)%N) as [E|[k E]];
    unfold candidate in E; rewrite E; [by exists i | by exists k].
Qed.

Lemma sanitize_id_names_identifier (text : string) (ex : option (gset string)) :
  identifier (fst (sanitize_id text ex)).
Proof.
  pose proof (sanitize_base_identifier text) as Hbase.
  unfold sanitize_id. destruct ex as [ex|]; [|done].
  destruct (decide (ex = ∅)); [done|]. cbn [fst].
  destruct (suffix_loop_shape ex (sanitize_base text) (S (size ex))
              (sanitize_base text) 2) as [->|[k ->]]; [done|].
  by apply identifier_candidate.
Qed.

(** X1: whatever the text and the collision set, [sanitize_id] returns an
    identifier: a non-empty string over [[a-z0-9_]] that starts with a
    letter. *)
Theorem sanitize_id_identifier (text : string) (ex : option (gset string)) :
  identifier (fst (sanitize_id text ex)).
Proof. apply sanitize_id_names_identifier. Qed.

(** X2: with a non-empty collision set, [sanitize_id] returns a name that
    was not in the set and adds it to the set; the name is the sanitized
    text itself when that is free, else the sanitized text with the first
    suffix [_2], [_3], ... that is free. *)
Theorem sanitize_id_fresh (text : string) (ex : gset string) :
  ex <> ∅ ->
  let orig := fst (sanitize_id text None) in
  let r := fst (sanitize_id text (Some ex)) in
  (r ∉ ex)
  /\ snd (sanitize_id text (Some ex)) = Some ({[r]} ∪ ex)
  /\ (orig ∉ ex -> r = orig)
  /\ (orig ∈ ex ->
      exists k, (2 <= k)%N /\ r = orig +:+ "_" +:+ pretty k
                /\ forall j, (2 <= j < k)%N -> orig +:+ "_" +:+ pretty j ∈ ex).
Proof.
  intros Hne orig r.
  assert (Hfree : r ∉ ex).
  { unfold r, sanitize_id. destruct (decide (ex = ∅)); [done|]. apply suffix_loop_free. }
  split; [done|]. split.
  { unfold r, sanitize_id. by destruct (decide (ex = ∅)). }
  assert (Hr : r = suffix_loop (S (size ex)) ex orig orig 2).
  { unfold r, orig, sanitize_id. by destruct (decide (ex = ∅)). }
  rewrite Hr in Hfree |- *.
  destruct (suffix_loop_first _ _ _ _ _ Hfree) as [E|(Hin & k & Hk & E & Hall)].
  - split; [done|]. intros Hin. rewrite E in Hfree. done.
  - split; [done|]. intros _. by exists k.
Qed.

Lemma sanitize_id_fresh_witness :
  let orig := fst (sanitize_id "Bar" None) in
  let r := fst (sanitize_id "Bar" (Some taken_names)) in
  (r ∉ taken_names)
  /\ snd (sanitize_id "Bar" (Some taken_names)) = Some ({[r]} ∪ taken_names)
  /\ (orig ∉ taken_names -> r = orig)
  /\ (orig ∈ taken_names ->
      exists k, (2 <= k)%N /\ r = orig +:+ "_" +:+ pretty k
                /\ forall j, (2 <= j < k)%N -> orig +:+ "_" +:+ pretty j ∈ taken_names).
Proof.
  apply (sanitize_id_fresh "Bar" taken_names).
  intros H. assert (Hin : "bar" ∈ taken_names) by (apply (bool_decide_unpack _); by vm_compute).
  rewrite H in Hin. by apply not_elem_of_empty in Hin.
Defined.

Example sanitize_id_bar_4 : fst (sanitize_id "Bar" (Some taken_names)) = "bar_4".
Proof. by vm_compute. Qed.

(** ** What the importer writes *)

Lemma shape_step_imported elements st el :
  skipped el = false -> existing st = ∅ ->
  shape_step elements st el =
    {| id_map := <[el_id el := n_id (imported_node elements el (length (nodes st)))]>
                   (id_map st);
       existing := ∅;
       nodes := nodes st ++ [imported_node elements el (length (nodes st))] |}.
Proof.
  intros Hsk Hex. unfold shape_step. by rewrite Hsk, Hex, sanitize_id_empty_set.
Qed.

(** The first pass maps the shapes to nodes, in order. *)
Lemma first_pass_go_imported elements l st :
  existing st = ∅ ->
  nodes (foldl (shape_step elements) st l)
    = nodes st ++ imported_nodes elements (length (nodes st)) l.
Proof.
  revert st. induction l as [|el l IH]; intros st Hex; simpl.
  - by rewrite app_nil_r.
  - destruct (skipped el) eqn:Hsk.
    + rewrite shape_step_skipped by done. by apply IH.
    + rewrite (shape_step_imported _ _ _ Hsk Hex), IH by done. simpl.
      rewrite length_app, <- app_assoc. simpl. by rewrite Nat.add_1_r.
Qed.

Lemma parse_nodes_imported elements :
  parse_nodes elements = imported_nodes elements 0 elements.
Proof. unfold parse_nodes, first_pass. by rewrite first_pass_go_imported. Qed.

Lemma imported_nodes_length elements count l :
  length (imported_nodes elements count l) = shapes_in l.
Proof.
  revert count. unfold shapes_in. induction l as [|el l IH]; intros count; simpl; [done|].
  rewrite filter_cons. destruct (skipped el); simpl.
  - destruct (decide (true = false)); [done|]. apply IH.
  - destruct (decide (false = false)); [|done]. simpl. by rewrite IH.
Qed.

Lemma imported_nodes_Forall (P : Node -> Prop) elements count l :
  (forall el k, skipped el = false -> P (imported_node elements el k)) ->
  Forall P (imported_nodes elements count l).
Proof.
  intros HP. revert count. induction l as [|el l IH]; intros count; simpl; [constructor|].
  destruct (skipped el) eqn:Hsk; [apply IH|]. constructor; [by apply HP | apply IH].
Qed.

Lemma skipped_false el :
  skipped el = false ->
  el_type el <> Some "arrow" /\ el_type el <> Some "line" /\ el_type el <> Some "text"
  /\ el_isDeleted el = false.
Proof.
  unfold skipped. intros H.
  apply orb_false_iff in H as [H Hdel]. apply orb_false_iff in H as [H Htext].
  apply orb_false_iff in H as [Harrow Hline].
  apply bool_decide_eq_false in Harrow, Hline, Htext. done.
Qed.

Lemma shape_style_complete el st :
  shape_style el = Some st ->
  (fillColor st ∉ [Some "transparent"; Some EmptyString])
  /\ strokeColor st <> Some EmptyString
  /\ strokeWidth st = None
  /\ (is_Some (fillColor st) \/ is_Some (strokeColor st)).
Proof.
  unfold shape_style.
  destruct (el_backgroundColor el) as [bg|] eqn:Hbg; simpl;
    destruct (el_strokeColor el) as [sc|] eqn:Hsc; simpl.
  - destruct (truthy bg) eqn:Tb; simpl;
      [destruct (bool_decide (Some bg = Some "transparent")) eqn:Eb; simpl|];
      destruct (truthy sc) eqn:Ts; simpl; intros [= <-]; simpl;
      repeat split; try done; try (by right); try (by left);
      try (intros [= ->]; done);
      rewrite !elem_of_cons, elem_of_nil; intros [E|[E|[]]]; try done;
      try (apply bool_decide_eq_false in Eb; done);
      injection E as ->; done.
  - destruct (truthy bg) eqn:Tb; simpl;
      [destruct (bool_decide (Some bg = Some "transparent")) eqn:Eb; simpl|];
      intros [= <-]; simpl;
      repeat split; try done; try (by left);
      rewrite !elem_of_cons, elem_of_nil; intros [E|[E|[]]]; try done;
      try (apply bool_decide_eq_false in Eb; done);
      injection E as ->; done.
  - destruct (truthy sc) eqn:Ts; simpl; intros [= <-]; simpl;
      repeat split; try done; try (by right);
      try (intros [= ->]; done);
      rewrite !elem_of_cons, elem_of_nil; intros [E|[E|[]]]; done.
  - done.
Qed.

Lemma imported_node_complete elements el k :
  skipped el = false -> complete_node (imported_node elements el k).
Proof.
  intros (Harrow & Hline & Htext & _)%skipped_false.
  unfold complete_node, imported_node. simpl.
  split; [|repeat split; try done; by eapply shape_style_complete].
  unfold excalidraw_shape. repeat case_decide; subst;
    rewrite ?elem_of_cons; auto;
    destruct (el_type el); simplify_eq/=; done.
Qed.

(** X3: when [parse_excalidraw] returns a diagram, the diagram has one node
    for each element that is not deleted and not an arrow, a line or a
    text, and every node is complete: its type is [rectangle], [diamond] or
    [ellipse], it has a label, [x], [y], [width] and [height], its id is an
    identifier, and its style, when present, holds a colour and never an
    empty or [transparent] fill. *)
Theorem parse_excalidraw_nodes_complete (elements : list Element) (d : Diagram) :
  parse_excalidraw elements = Ok d ->
  length (d_nodes d) = shapes_in elements
  /\ Forall (fun n => complete_node n /\ identifier (n_id n)) (d_nodes d).
Proof.
  intros Hd. rewrite (parse_excalidraw_nodes _ _ Hd), parse_nodes_imported.
  split; [apply imported_nodes_length|].
  apply imported_nodes_Forall. intros el k Hsk.
  split; [by apply imported_node_complete | apply sanitize_base_identifier].
Qed.

Lemma parse_excalidraw_nodes_complete_witness :
  exists d, parse_excalidraw framed_file = Ok d
    /\ length (d_nodes d) = shapes_in framed_file
    /\ Forall (fun n => complete_node n /\ identifier (n_id n)) (d_nodes d).
Proof.
  eexists. split; [by vm_compute|].
  apply (parse_excalidraw_nodes_complete framed_file). by vm_compute.
Defined.

(** ** Loops with an invariant *)

Section ForEachInvariant.
Context {A S : Type} (body : S -> A -> result S) (P : S -> Prop).
Hypothesis body_keeps : forall acc a acc', P acc -> body acc a = Ok acc' -> P acc'.

Lemma for_each_invariant (l : list A) acc r :
  P acc -> for_each body acc l = Ok r -> P r.
Proof.
  revert acc. induction l as [|a l IH]; intros acc Hacc Hr.
  - by injection Hr as <-.
  - rewrite for_each_cons in Hr. destruct (body acc a) as [acc'|] eqn:Ha; [|done].
    apply (IH acc'); [by eapply body_keeps | done].
Qed.

End ForEachInvariant.

(** A loop raises [e0] when one of its iterations always does and no
    iteration raises anything else. *)
Lemma for_each_raises {A S} (body : S -> A -> result S) (l : list A) acc a e0 :
  (forall acc b e, body acc b = Raise e -> e = e0) ->
  a ∈ l -> (forall acc, body acc a = Raise e0) ->
  for_each body acc l = Raise e0.
Proof.
  intros Honly Ha Hraise. revert acc.
  induction l as [|b l IH]; intros acc; [by apply elem_of_nil in Ha|].
  rewrite for_each_cons. destruct (body acc b) as [acc'|e] eqn:Hb.
  - apply elem_of_cons in Ha as [->|Ha]; [by rewrite Hraise in Hb | by apply IH].
  - by rewrite (Honly _ _ _ Hb).
Qed.

(** ** The ids the importer refers to *)

(** The first pass maps native ids to ids of nodes only. *)
Lemma first_pass_go_id_map elements l st :
  existing st = ∅ ->
  (forall k v, id_map st !! k = Some v -> exists n, n ∈ nodes st /\ n_id n = v) ->
  forall k v, id_map (foldl (shape_step elements) st l) !! k = Some v ->
    exists n, n ∈ nodes (foldl (shape_step elements) st l) /\ n_id n = v.
Proof.
  revert st. induction l as [|el l IH]; intros st Hex Hinv; simpl; [done|].
  destruct (skipped el) eqn:Hsk.
  - rewrite shape_step_skipped by done. by apply IH.
  - rewrite (shape_step_imported _ _ _ Hsk Hex). apply IH; [done|]. simpl.
    intros k v Hk. destruct (decide (el_id el = k)) as [E|Hne].
    + rewrite <- E, lookup_insert_eq in Hk. injection Hk as <-.
      exists (imported_node elements el (length (nodes st))). split; [|done].
      apply elem_of_app. right. by left.
    + rewrite lookup_insert_ne in Hk by done.
      destruct (Hinv k v Hk) as (n & Hn & <-). exists n. split; [|done].
      apply elem_of_app. by left.
Qed.

Lemma first_pass_id_map elements k v :
  id_map (first_pass elements) !! k = Some v ->
  exists n, n ∈ parse_nodes elements /\ n_id n = v.
Proof.
  apply first_pass_go_id_map; [done|]. simpl. intros k' v' H.
  by rewrite lookup_empty in H.
Qed.

Lemma truthy_opt_Some o : truthy_opt o = true -> exists s, o = Some s.
Proof. destruct o; [by eexists | done]. Qed.

Lemma connector_step_edge_between (elements : list Element)
    (m : gmap (option string) string) (ns : list Node) (edges : list Edge)
    (el : Element) (edges' : list Edge) :
  (forall k v, m !! k = Some v -> exists n, n ∈ ns /\ n_id n = v) ->
  Forall (edge_between ns) edges ->
  connector_step elements m edges el = Ok edges' ->
  Forall (edge_between ns) edges'.
Proof.
  intros Hm Hedges. unfold connector_step.
  destruct (negb _ || el_isDeleted el); [by intros [= <-]|].
  intros H. apply bind_Ok_inv in H as (start & _ & H).
  apply bind_Ok_inv in H as (end_ & _ & H).
  destruct (negb (truthy_opt start) || negb (truthy_opt end_)); [by injection H as <-|].
  destruct (negb (truthy_opt (m !! start)) || negb (truthy_opt (m !! end_))) eqn:Hres;
    [by injection H as <-|].
  injection H as <-. apply Forall_app. split; [done|].
  apply Forall_singleton.
  apply orb_false_iff in Hres as [Hfr Hto].
  apply negb_false_iff, truthy_opt_Some in Hfr as [fr Hfr].
  apply negb_false_iff, truthy_opt_Some in Hto as [to Hto].
  destruct (Hm _ _ Hfr) as (n1 & Hn1 & <-). destruct (Hm _ _ Hto) as (n2 & Hn2 & <-).
  exists n1, n2. rewrite Hfr, Hto. simpl. repeat split; try done.
  - destruct (bool_decide (el_type el = Some "arrow")); rewrite !elem_of_cons; auto.
  - intros st. destruct (bool_decide (el_strokeStyle el = Some "dashed")); [|done].
    by intros [= <-].
Qed.

Lemma contained_in_values (frame_id : option string) (m : gmap (option string) string)
    (l : list Element) (contained : list string) (nid : string) :
  contained_in frame_id m l = Ok contained -> nid ∈ contained ->
  exists k, m !! k = Some nid.
Proof.
  revert contained. induction l as [|e l IH]; intros contained; simpl.
  - intros [= <-] H. by apply elem_of_nil in H.
  - destruct (bool_decide (el_frameId e = frame_id)
              && bool_decide (is_Some (m !! el_id e))); [|apply IH].
    intros H. apply bind_Ok_inv in H as (eid & _ & H).
    apply bind_Ok_inv in H as (v & Hv%index_Ok_inv & H).
    apply bind_Ok_inv in H as (more & Hmore & H). injection H as <-.
    intros [->|Hin]%elem_of_cons; [by eexists | by eapply IH].
Qed.

Lemma frame_step_group_over (elements : list Element) (m : gmap (option string) string)
    (ns : list Node) (st : gset string * list Group) (el : Element)
    (st' : gset string * list Group) :
  (forall k v, m !! k = Some v -> exists n, n ∈ ns /\ n_id n = v) ->
  Forall (group_over ns) (snd st) ->
  frame_step elements m st el = Ok st' ->
  Forall (group_over ns) (snd st').
Proof.
  intros Hm Hgroups. unfold frame_step. destruct st as [ex groups].
  destruct (bool_decide (el_type el = Some "frame") && negb (el_isDeleted el));
    [|by intros [= <-]].
  pose proof (sanitize_id_names_identifier (default EmptyString (frame_name el)) (Some ex))
    as Hid.
  destruct (sanitize_id (default EmptyString (frame_name el)) (Some ex)) as [gid ex'].
  intros H. apply bind_Ok_inv in H as (contained & Hc & H).
  destruct contained as [|nid contained]; injection H as <-; [done|].
  simpl. apply Forall_app. split; [done|]. apply Forall_singleton.
  split; [by exists gid|]. split; [by eexists|]. split; [done|]. simpl.
  intros x Hx. destruct (contained_in_values _ _ _ _ _ Hc Hx) as [k Hk].
  by apply (Hm k).
Qed.

(** X4: every edge and every group that [parse_excalidraw] writes refers
    to nodes of the diagram it returns.  An edge goes from a node to a node,
    is named [from_to_to], has type [arrow] or [line], and its style, when
    present, is [dashed]; a group has an identifier as id, a [label] key
    and at least one member, each member being the id of a node. *)
Theorem parse_excalidraw_references (elements : list Element) (d : Diagram) :
  parse_excalidraw elements = Ok d ->
  Forall (edge_between (d_nodes d)) (d_edges d)
  /\ Forall (group_over (d_nodes d)) (d_groups d).
Proof.
  unfold parse_excalidraw. intros H.
  apply bind_Ok_inv in H as (edges & Hedges & H).
  apply bind_Ok_inv in H as (frames & Hframes & H). injection H as <-. simpl.
  fold (parse_nodes elements). split.
  - eapply (for_each_invariant _ (Forall (edge_between (parse_nodes elements))));
      [|apply Forall_nil_2|exact Hedges].
    intros acc a acc' Hacc Hstep.
    eapply connector_step_edge_between; [apply first_pass_id_map|done..].
  - apply (for_each_invariant (frame_step elements (id_map (first_pass elements)))
             (fun st => Forall (group_over (parse_nodes elements)) (snd st))
             (fun acc a acc' Hacc Hstep =>
                frame_step_group_over elements _ _ acc a acc'
                  (first_pass_id_map elements) Hacc Hstep)
             elements (existing (first_pass elements), []) frames);
      [apply Forall_nil_2 | exact Hframes].
Qed.

Lemma parse_excalidraw_references_witness :
  exists d, parse_excalidraw framed_file = Ok d
    /\ Forall (edge_between (d_nodes d)) (d_edges d)
    /\ Forall (group_over (d_nodes d)) (d_groups d).
Proof.
  eexists. split; [by vm_compute|].
  apply (parse_excalidraw_references framed_file). by vm_compute.
Defined.

(** A frame whose name is [null] becomes a group with the id [node] and
    the label [null]; without the [name] key both are made of [Group]. *)
Example parse_unnamed_frames :
  (exists d, parse_excalidraw (framed_by (Some None)) = Ok d
     /\ d_groups d = [{| g_id := Some "node"; g_label := Some None;
                         g_nodeIds := ["start"] |}])
  /\ (exists d, parse_excalidraw (framed_by None) = Ok d
       /\ d_groups d = [{| g_id := Some "group"; g_label := Some (Some "Group");
                           g_nodeIds := ["start"] |}]).
Proof. split; eexists; split; by vm_compute. Qed.

(** ** The diagram type *)

Lemma excalidraw_shape_diamond (o : option string) :
  excalidraw_shape (default EmptyString o) = "diamond" <-> o = Some "diamond".
Proof.
  unfold excalidraw_shape. split.
  - repeat case_decide; try done. destruct o; simplify_eq/=; done.
  - intros ->. done.
Qed.

Lemma imported_nodes_diamond elements count l :
  existsb (fun n => bool_decide (n_type n = Some "diamond"))
          (imported_nodes elements count l) = true
  <-> Exists diamond_shape l.
Proof.
  revert count. induction l as [|el l IH]; intros count; simpl.
  - split; [done|]. by intros H%Exists_nil.
  - rewrite Exists_cons. destruct (skipped el) eqn:Hsk.
    + rewrite IH. split; [by right|]. intros [[Hs _]|H]; [congruence|done].
    + simpl. rewrite orb_true_iff, IH, bool_decide_eq_true. unfold diamond_shape.
      split.
      * intros [[= H]|H]; [|by right]. left. split; [done|].
        by apply excalidraw_shape_diamond.
      * intros [[_ H]|H]; [|by right]. left. f_equal. by apply excalidraw_shape_diamond.
Qed.

(** X5: the diagram type written by [parse_excalidraw] is [flowchart]
    exactly when some element that becomes a node has the type [diamond],
    and [architecture] otherwise; a deleted diamond does not count. *)
Theorem parse_excalidraw_diagram_type (elements : list Element) (d : Diagram) :
  parse_excalidraw elements = Ok d ->
  (d_diagramType d = Some "flowchart" <-> Exists diamond_shape elements)
  /\ (d_diagramType d = Some "architecture" <-> ~ Exists diamond_shape elements).
Proof.
  unfold parse_excalidraw. intros H.
  apply bind_Ok_inv in H as (edges & _ & H). apply bind_Ok_inv in H as (frames & _ & H).
  injection H as <-. simpl. fold (parse_nodes elements).
  rewrite parse_nodes_imported, <- (imported_nodes_diamond elements 0 elements).
  destruct (existsb _ (imported_nodes elements 0 elements));
    split; split; intros H; try done; by destruct H.
Qed.

Lemma parse_excalidraw_diagram_type_witness :
  exists d, parse_excalidraw framed_file = Ok d
    /\ (d_diagramType d = Some "flowchart" <-> Exists diamond_shape framed_file)
    /\ (d_diagramType d = Some "architecture" <-> ~ Exists diamond_shape framed_file).
Proof.
  eexists. split; [by vm_compute|].
  apply (parse_excalidraw_diagram_type framed_file). by vm_compute.
Defined.

(** ** When the importer raises *)

Lemma binding_elementId_raised b e :
  binding_elementId b = Raise e -> e = AttributeError "get".
Proof. destruct b as [[|i]|]; simpl; congruence. Qed.

Lemma connector_step_raised (elements : list Element) (m : gmap (option string) string)
    (edges : list Edge) (el : Element) (e : exn) :
  connector_step elements m edges el = Raise e -> e = AttributeError "get".
Proof.
  unfold connector_step. destruct (negb _ || el_isDeleted el); [done|].
  intros H. apply bind_Raise_inv in H as [H|(start & _ & H)];
    [by apply binding_elementId_raised in H|].
  apply bind_Raise_inv in H as [H|(end_ & _ & H)];
    [by apply binding_elementId_raised in H|].
  destruct (negb (truthy_opt start) || negb (truthy_opt end_)); [done|].
  by destruct (negb (truthy_opt (m !! start)) || negb (truthy_opt (m !! end_))).
Qed.

Lemma live_connector_test el :
  negb (bool_decide (el_type el = Some "arrow") || bool_decide (el_type el = Some "line"))
    || el_isDeleted el = false
  <-> live_connector el.
Proof.
  unfold live_connector.
  rewrite orb_false_iff, negb_false_iff, orb_true_iff, !bool_decide_eq_true. done.
Qed.

Lemma connector_step_null (elements : list Element) (m : gmap (option string) string)
    (edges : list Edge) (el : Element) :
  live_connector el -> null_bound el ->
  connector_step elements m edges el = Raise (AttributeError "get").
Proof.
  intros Hlive%live_connector_test Hnull. unfold connector_step. rewrite Hlive.
  destruct Hnull as [Hn|Hn]; rewrite Hn; [done|].
  by destruct (el_startBinding el) as [[|i]|].
Qed.

Lemma connectors_null (elements : list Element) (m : gmap (option string) string)
    (el : Element) :
  el ∈ elements -> live_connector el -> null_bound el ->
  for_each (connector_step elements m) [] elements = Raise (AttributeError "get").
Proof.
  intros Hin Hlive Hnull. apply (for_each_raises _ _ _ el); [|done|].
  - intros acc b e. apply connector_step_raised.
  - intros acc. by apply connector_step_null.
Qed.

(** X6: a live connector (an arrow or a line that is not deleted) whose
    [startBinding] or [endBinding] is [null] makes [parse_excalidraw] raise
    [AttributeError]: the default of [el.get('startBinding', {})] is only
    used when the key is absent. *)
Theorem parse_excalidraw_null_binding (elements : list Element) (el : Element) :
  el ∈ elements -> live_connector el -> null_bound el ->
  parse_excalidraw elements = Raise (AttributeError "get").
Proof.
  intros Hin Hlive Hnull. unfold parse_excalidraw.
  by rewrite (connectors_null _ _ el).
Qed.

Lemma parse_excalidraw_null_binding_witness :
  parse_excalidraw loose_arrow_file = Raise (AttributeError "get").
Proof.
  apply (parse_excalidraw_null_binding loose_arrow_file loose_arrow).
  - right. left.
  - split; [by left | reflexivity].
  - left. reflexivity.
Defined.

(** ** The node dictionary *)

Local Abbreviation register :=
  (fun (m : gmap string Node) (n : Node) => <[n_id n := n]> m).

Lemma register_lookup (l : list Node) (m : gmap string Node) i n :
  foldl register m l !! i = Some n -> (n ∈ l /\ n_id n = i) \/ m !! i = Some n.
Proof.
  revert m. induction l as [|a l IH]; intros m; simpl; [by right|].
  intros [[Hin Hid]|Hm]%IH.
  - left. split; [by right | done].
  - destruct (decide (n_id a = i)) as [E|Hne].
    + rewrite <- E, lookup_insert_eq in Hm. injection Hm as <-. left. split; [by left|done].
    + rewrite lookup_insert_ne in Hm by done. by right.
Qed.

Lemma register_absent (l : list Node) (m : gmap string Node) i :
  i ∉ n_id <$> l -> foldl register m l !! i = m !! i.
Proof.
  revert m. induction l as [|a l IH]; intros m Hout; simpl; [done|].
  rewrite fmap_cons, not_elem_of_cons in Hout. destruct Hout as [Hne Hout].
  rewrite IH by done. by rewrite lookup_insert_ne.
Qed.

Lemma register_last (l1 l2 : list Node) (m : gmap string Node) n :
  n_id n ∉ n_id <$> l2 -> foldl register m (l1 ++ n :: l2) !! n_id n = Some n.
Proof.
  intros Hout. rewrite foldl_app. simpl.
  rewrite register_absent by done. apply lookup_insert_eq.
Qed.

Lemma register_present_id (l : list Node) (m : gmap string Node) i :
  i ∈ n_id <$> l -> is_Some (foldl register m l !! i).
Proof.
  revert m. induction l as [|a l IH]; intros m Hin; [by apply elem_of_nil in Hin|].
  simpl. destruct (decide (i ∈ n_id <$> l)) as [Hl|Hl]; [by apply IH|].
  rewrite register_absent by done.
  rewrite fmap_cons in Hin. apply elem_of_cons in Hin as [->|Hin]; [|done].
  rewrite lookup_insert_eq. by eexists.
Qed.

Lemma register_present (l : list Node) (m : gmap string Node) n :
  n ∈ l -> is_Some (foldl register m l !! n_id n).
Proof. intros Hin. by apply register_present_id, list_elem_of_fmap_2. Qed.

(** X8: the node dictionary built by [DiagramConverter.__init__] holds
    exactly the ids of the listed nodes, each entry is a listed node filed
    under its own id, and when several nodes share an id the last one
    listed is the one kept. *)
Theorem init_nodes_last_wins (d : Diagram) (layout : option string) :
  (forall i, is_Some (c_nodes (init d layout) !! i) <-> i ∈ n_id <$> d_nodes d)
  /\ (forall i n, c_nodes (init d layout) !! i = Some n -> n ∈ d_nodes d /\ n_id n = i)
  /\ (forall l1 n l2,
        d_nodes d = l1 ++ n :: l2 -> n_id n ∉ n_id <$> l2 ->
        c_nodes (init d layout) !! n_id n = Some n).
Proof.
  unfold init. simpl. split; [|split].
  - intros i. split.
    + intros [n Hn]. apply register_lookup in Hn as [[Hin <-]|Hn].
      * by apply list_elem_of_fmap_2.
      * by rewrite lookup_empty in Hn.
    + by apply register_present_id.
  - intros i n Hn. apply register_lookup in Hn as [?|Hn]; [done|].
    by rewrite lookup_empty in Hn.
  - intros l1 n l2 -> Hout. by apply register_last.
Qed.

Lemma init_nodes_last_wins_witness :
  c_nodes (init repeated_id None) !! n_id second_a = Some second_a.
Proof.
  apply (proj2 (proj2 (init_nodes_last_wins repeated_id None)) [first_a; node_b] second_a []).
  - reflexivity.
  - apply not_elem_of_nil.
Defined.

(** ** Importing, then rendering *)

(** What the three passes establish together. *)
Lemma parse_excalidraw_nodes_go (d : Diagram) (elements : list Element) :
  parse_excalidraw elements = Ok d ->
  Forall complete_node (d_nodes d) /\ Forall (edge_between (d_nodes d)) (d_edges d).
Proof.
  intros Hd. split.
  - rewrite (parse_excalidraw_nodes _ _ Hd), parse_nodes_imported.
    apply imported_nodes_Forall. intros el k Hsk. by apply imported_node_complete.
  - pose proof Hd as H. unfold parse_excalidraw in H.
    apply bind_Ok_inv in H as (edges & Hedges & H).
    apply bind_Ok_inv in H as (frames & Hframes & H). injection H as <-. simpl.
    fold (parse_nodes elements).
    eapply (for_each_invariant _ (Forall (edge_between (parse_nodes elements))));
      [|apply Forall_nil_2|exact Hedges].
    intros acc a acc' Hacc Hstep.
    eapply connector_step_edge_between; [apply first_pass_id_map|done..].
Qed.

Lemma edge_between_endpoints d layout e :
  edge_between (d_nodes d) e ->
  has_endpoints e /\ dangling (init d layout) e = false.
Proof.
  intros (n1 & n2 & H1 & H2 & Hfr & Hto & _).
  split; [split; by eexists|].
  unfold dangling. rewrite Hfr, Hto. simpl.
  rewrite !bool_decide_eq_true_2; [done|by apply register_present..].
Qed.

(** X9: a diagram returned by [parse_excalidraw] renders: none of its
    edges is dangling, so every edge gets its line, and with any layout
    [to_svg] returns a document for it, provided the coordinates and sizes
    of its nodes (ints, as [round] returns them) are below 2^1000 in
    magnitude, where no int is too large for a float. *)
Theorem parse_excalidraw_renders `{FL : Floats} (elements : list Element) (d : Diagram)
    (layout : option string) :
  floats_hold_ints ->
  parse_excalidraw elements = Ok d ->
  Forall small_node (d_nodes d) ->
  succeeds (to_svg (init d layout)) = true
  /\ (forall e, e ∈ d_edges d -> dangling (init d layout) e = false).
Proof.
  intros Hfit Hd Hsmall.
  destruct (parse_excalidraw_nodes_go d elements Hd) as [Hnodes Hedges].
  rewrite Forall_forall in Hnodes. rewrite Forall_forall in Hedges.
  rewrite Forall_forall in Hsmall.
  split.
  - apply to_svg_fits; [done|..].
    + intros i n Hin. apply register_lookup in Hin as [[Hin _]|Hin];
        [by apply Hsmall | by rewrite lookup_empty in Hin].
    + intros i n Hin. apply register_lookup in Hin as [[Hin _]|Hin];
        [|by rewrite lookup_empty in Hin].
      destruct (Hnodes n Hin) as (_ & _ & Hx & Hy & _). by split.
    + intros e He. by apply (edge_between_endpoints d layout), Hedges.
  - intros e He. by apply (edge_between_endpoints d layout), Hedges.
Qed.

Lemma parse_excalidraw_renders_witness :
  exists d, parse_excalidraw framed_file = Ok d
    /\ succeeds (to_svg (FL := exact_floats) (init d None)) = true
    /\ (forall e, e ∈ d_edges d -> dangling (init d None) e = false).
Proof.
  eexists. split; [by vm_compute|].
  apply (parse_excalidraw_renders (FL := exact_floats) framed_file).
  - exact exact_floats_fit.
  - by vm_compute.
  - repeat (constructor; [repeat split; by vm_compute|]). constructor.
Defined.

(** ** html.escape *)

Lemma replace_append c r s1 s2 :
  replace c r (s1 +:+ s2) = replace c r s1 +:+ replace c r s2.
Proof.
  induction s1 as [|a s1 IH]; [done|].
  rewrite append_cons. simpl. rewrite IH.
  destruct (bool_decide (a = c)); [by rewrite append_assoc | by rewrite append_cons].
Qed.

Lemma html_escape_append s1 s2 :
  html_escape (s1 +:+ s2) = html_escape s1 +:+ html_escape s2.
Proof. unfold html_escape. by rewrite !replace_append. Qed.

Lemma html_escape_char c : html_escape (String c EmptyString) = html_entity c.
Proof. destruct c as [[] [] [] [] [] [] [] []]; by vm_compute. Qed.

(** The chain of replacements works character by character. *)
Lemma html_escape_cons c s : html_escape (String c s) = html_entity c +:+ html_escape s.
Proof.
  change (String c s) with (String c EmptyString +:+ s).
  by rewrite html_escape_append, html_escape_char.
Qed.

Lemma html_entity_cases c :
  (c = "&"%char /\ html_entity c = "&amp;")
  \/ (c = "<"%char /\ html_entity c = "&lt;")
  \/ (c = ">"%char /\ html_entity c = "&gt;")
  \/ (c = "034"%char /\ html_entity c = "&quot;")
  \/ (c = "'"%char /\ html_entity c = "&#x27;")
  \/ (is_html_special c = false /\ html_entity c = String c EmptyString).
Proof.
  unfold html_entity, is_html_special, is_markup.
  repeat (case_bool_decide; [subst; auto 10|]). simpl. auto 10.
Qed.

Lemma html_entity_inj a b s t :
  html_entity a +:+ s = html_entity b +:+ t -> a = b /\ s = t.
Proof.
  destruct (html_entity_cases a) as [[-> ->]|[[-> ->]|[[-> ->]|[[-> ->]|[[-> ->]|[Ha ->]]]]]];
  destruct (html_entity_cases b) as [[-> ->]|[[-> ->]|[[-> ->]|[[-> ->]|[[-> ->]|[Hb ->]]]]]];
    rewrite ?append_cons, ?append_empty_l; intros H;
    try (injection H as H; try discriminate; simplify_eq; done);
    try (injection H as <- H; by vm_compute in Hb);
    try (injection H as -> H; by vm_compute in Ha).
Qed.

Lemma html_entity_no_markup c : str_forall (fun a => negb (is_markup a)) (html_entity c) = true.
Proof. destruct c as [[] [] [] [] [] [] [] []]; by vm_compute. Qed.

(** X10: [html.escape] leaves no [<], [>], double quote or single quote in
    its result, returns a text without any of the five special characters
    unchanged, and is injective: two different labels never escape to the
    same text. *)
Theorem html_escape_safe :
  (forall s, str_forall (fun a => negb (is_markup a)) (html_escape s) = true)
  /\ (forall s, str_exists is_html_special s = false -> html_escape s = s)
  /\ (forall s t, html_escape s = html_escape t -> s = t).
Proof.
  split; [|split].
  - induction s as [|c s IH]; [done|].
    by rewrite html_escape_cons, str_forall_append, html_entity_no_markup, IH.
  - induction s as [|c s IH]; [done|]. simpl. intros [Hc Hs]%orb_false_iff.
    rewrite html_escape_cons, (IH Hs).
    destruct (html_entity_cases c)
      as [[-> _]|[[-> _]|[[-> _]|[[-> _]|[[-> _]|[_ ->]]]]]];
      [by vm_compute in Hc..|reflexivity].
  - induction s as [|a s IH]; intros [|b t]; [done|..].
    + rewrite html_escape_cons. intros H.
      destruct (html_entity_cases b)
        as [[_ E]|[[_ E]|[[_ E]|[[_ E]|[[_ E]|[_ E]]]]]]; by rewrite E in H.
    + rewrite html_escape_cons. intros H.
      destruct (html_entity_cases a)
        as [[_ E]|[[_ E]|[[_ E]|[[_ E]|[[_ E]|[_ E]]]]]]; by rewrite E in H.
    + rewrite !html_escape_cons. intros [-> H]%html_entity_inj. f_equal. by apply IH.
Qed.

Lemma html_escape_safe_witness :
  html_escape "a plain label" = "a plain label"
  /\ (html_escape "x" = html_escape "x" -> "x" = "x").
Proof.
  split.
  - apply (proj1 (proj2 html_escape_safe) "a plain label"). reflexivity.
  - apply (proj2 (proj2 html_escape_safe) "x" "x").
Defined.

Example html_escape_label : html_escape "A < B & C" = "A &lt; B &amp; C".
Proof. by vm_compute. Qed.

(** ** Labels of mermaid nodes *)

Lemma replace_char_length c r s :
  String.length (replace c (String r EmptyString) s) = String.length s.
Proof.
  induction s as [|a s IH]; simpl; [done|].
  destruct (bool_decide (a = c)); rewrite ?append_cons, ?append_empty_l; simpl; by rewrite IH.
Qed.

Lemma mermaid_label_clean s :
  let label := replace "]"%char ")" (replace "["%char "(" (replace "034"%char "'" s)) in
  str_forall (fun a => negb (is_mermaid_delimiter a)) label = true
  /\ String.length label = String.length s.
Proof.
  simpl. split; [|by rewrite !replace_char_length].
  induction s as [|a s IH]; [done|].
  change (String a s) with (String a EmptyString +:+ s).
  rewrite !replace_append, str_forall_append, IH, andb_true_r.
  destruct a as [[] [] [] [] [] [] [] []]; by vm_compute.
Qed.

(** The three replacements of [_mermaid_node] do not meet: together they
    rewrite the label character by character. *)
Lemma mermaid_label_chars s :
  replace "]"%char ")" (replace "["%char "(" (replace "034"%char "'" s))
  = map_chars mermaid_char s.
Proof.
  induction s as [|a s IH]; [done|].
  change (String a s) with (String a EmptyString +:+ s).
  rewrite !replace_append, IH.
  change (map_chars mermaid_char (String a EmptyString +:+ s))
    with (String (mermaid_char a) (map_chars mermaid_char s)).
  destruct a as [[] [] [] [] [] [] [] []]; reflexivity.
Qed.

(** X11: the declaration of a mermaid node is four spaces, the id, and the
    label between the delimiters of the shape of the node: braces for a
    diamond, the pairs of [MERMAID_SHAPES] with their double quotes for a
    circle, an ellipse, a cylinder and a parallelogram, and square
    brackets with double quotes for a rectangle, for a node without a type
    and for any other type.  The label is the label of the node (its id
    when it has none) with every double quote turned into a single quote,
    [[] into [(] and []] into [)], and every other character kept: it has
    the same length and none of the three characters. *)
Theorem mermaid_node_declaration (nid : string) (node : Node) :
  let shape := default "rectangle" (n_type node) in
  let label := map_chars mermaid_char (default nid (n_label node)) in
  _mermaid_node nid node
  = "    " +:+ nid
    +:+ (if bool_decide (shape = "diamond") then "{" +:+ label +:+ "}"
         else if bool_decide (shape = "circle")
         then "((" +:+ dq +:+ label +:+ dq +:+ "))"
         else if bool_decide (shape = "ellipse")
         then "([" +:+ dq +:+ label +:+ dq +:+ "])"
         else if bool_decide (shape = "cylinder")
         then "[(" +:+ dq +:+ label +:+ dq +:+ ")]"
         else if bool_decide (shape = "parallelogram")
         then "[/" +:+ dq +:+ label +:+ dq +:+ "/]"
         else "[" +:+ dq +:+ label +:+ dq +:+ "]")
  /\ String.length label = String.length (default nid (n_label node))
  /\ str_forall (fun a => negb (is_mermaid_delimiter a)) label = true.
Proof.
  intros shape label. unfold label.
  rewrite <- (mermaid_label_chars (default nid (n_label node))).
  destruct (mermaid_label_clean (default nid (n_label node))) as [Hclean Hlen].
  split; [|by split].
  unfold _mermaid_node, MERMAID_SHAPES, node_shape, node_label. fold shape.
  repeat case_bool_decide; try congruence; reflexivity.
Qed.

Example mermaid_node_examples :
  _mermaid_node "d" {| n_id := "d"; n_type := Some "diamond";
                       n_label := Some ("a[0] is " +:+ dq +:+ "x" +:+ dq);
                       n_x := None; n_y := None; n_width := None; n_height := None;
                       n_style := None |}
  = "    d{a(0) is 'x'}"
  /\ _mermaid_node "a" node_a = "    a[" +:+ dq +:+ "a" +:+ dq +:+ "]".
Proof. split; by vm_compute. Qed.

(** ** Members of a group *)

(** The listed ids that are nodes, each with its node. *)
Lemma resolved_members c (l : list string) :
  exists resolved : list (string * Node),
    resolved.*1 = filter (fun nid => is_Some (c_nodes c !! nid)) l
    /\ (forall i n, (i, n) ∈ resolved -> c_nodes c !! i = Some n)
    /\ omap (fun nid => (fun node => "    " +:+ _mermaid_node nid node) <$> c_nodes c !! nid) l
       = (fun p => "    " +:+ _mermaid_node p.1 p.2) <$> resolved.
Proof.
  induction l as [|nid l (resolved & Hids & Hnodes & Hlines)].
  { exists []. split; [done|]. split; [|done]. intros i n H. by apply elem_of_nil in H. }
  rewrite filter_cons.
  change (omap ?f (nid :: l))
    with (match f nid with Some b => b :: omap f l | None => omap f l end).
  destruct (c_nodes c !! nid) as [node|] eqn:Hnid; simpl.
  - exists ((nid, node) :: resolved).
    destruct (decide (is_Some (Some node))) as [_|Hn]; [|destruct Hn; by eexists].
    split; [by rewrite fmap_cons, Hids|].
    split; [|rewrite ?Hnid, fmap_cons, Hlines; reflexivity].
    intros i n [[= -> ->]|Hin]%elem_of_cons; [done | by apply Hnodes].
  - exists resolved. rewrite ?Hnid.
    destruct (decide (is_Some (@None Node))) as [[? ?]|_]; done.
Qed.

(** X12: in the text of [to_mermaid] the [subgraph] block of a group
    declares, in ascending order of the ids, the listed ids that are nodes
    of the diagram, and passes over the others; in the text of
    [to_graphviz] the [cluster] block lists every id of the group, whether
    it is a node or not. *)
Theorem group_member_lines (c : DiagramConverter) (g : Group) :
  g ∈ c_groups c ->
  exists ids (resolved : list (string * Node)),
    ids ≡ₚ g_nodeIds g /\ StronglySorted (key_le id) ids
    /\ resolved.*1 = filter (fun nid => is_Some (c_nodes c !! nid)) ids
    /\ (forall i n, (i, n) ∈ resolved -> c_nodes c !! i = Some n)
    /\ block_of ([EmptyString;
                  "    subgraph " +:+ default "group" (g_id g) +:+ "["
                    +:+ str_opt (group_label g) +:+ "]"]
                 ++ ((fun p => "    " +:+ _mermaid_node p.1 p.2) <$> resolved)
                 ++ ["    end"])
                (to_mermaid c)
    /\ block_of ([EmptyString;
                  "    subgraph cluster_" +:+ default EmptyString (g_id g) +:+ " {";
                  "        label=" +:+ dq +:+ str_opt (group_label g) +:+ dq +:+ ";"]
                 ++ ((fun nid => "        " +:+ nid +:+ ";") <$> ids)
                 ++ ["    }"])
                (to_graphviz c).
Proof.
  intros Hg.
  destruct (resolved_members c (sorted id (g_nodeIds g)))
    as (resolved & Hids & Hnodes & Hlines).
  exists (sorted id (g_nodeIds g)), resolved.
  split; [apply sorted_Permutation|]. split; [apply sorted_StronglySorted|].
  split; [done|]. split; [done|]. split.
  - rewrite <- Hlines. by apply mermaid_group_block_of.
  - by apply graphviz_cluster_of.
Qed.

Lemma group_member_lines_witness :
  exists ids (resolved : list (string * Node)),
    ids ≡ₚ ["b"; "ghost"] /\ StronglySorted (key_le id) ids
    /\ resolved.*1 = filter (fun nid => is_Some (c_nodes half_group_diagram !! nid)) ids
    /\ (forall i n, (i, n) ∈ resolved -> c_nodes half_group_diagram !! i = Some n)
    /\ block_of ([EmptyString; "    subgraph h[]"]
                 ++ ((fun p => "    " +:+ _mermaid_node p.1 p.2) <$> resolved)
                 ++ ["    end"])
                (to_mermaid half_group_diagram)
    /\ block_of ([EmptyString; "    subgraph cluster_h {";
                  "        label=" +:+ dq +:+ dq +:+ ";"]
                 ++ ((fun nid => "        " +:+ nid +:+ ";") <$> ids)
                 ++ ["    }"])
                (to_graphviz half_group_diagram).
Proof. apply (group_member_lines half_group_diagram half_group). left. Defined.

Example half_group_members :
  block_of [EmptyString; "    subgraph h[]"; "        b[" +:+ dq +:+ "b" +:+ dq +:+ "]";
            "    end"]
           (to_mermaid half_group_diagram)
  /\ block_of [EmptyString; "    subgraph cluster_h {"; "        label=" +:+ dq +:+ dq +:+ ";";
               "        b;"; "        ghost;"; "    }"]
              (to_graphviz half_group_diagram).
Proof.
  split.
  - apply (mermaid_group_block_of half_group_diagram half_group). left.
  - apply (graphviz_cluster_of half_group_diagram half_group). left.
Qed.

(** ** The keys to_svg needs *)



(** ** Format names and extensions *)

Lemma lower_char_idem c : lower_char (lower_char c) = lower_char c.
Proof. destruct c as [[] [] [] [] [] [] [] []]; by vm_compute. Qed.

Lemma lower_idem s : lower (lower s) = lower s.
Proof. induction s as [|c s IH]; simpl; [done|]. by rewrite lower_char_idem, IH. Qed.

Lemma get_ext_format_names fmt : get_ext fmt <> ".txt" <-> fmt ∈ format_names.
Proof.
  unfold get_ext, format_names. rewrite !elem_of_cons, elem_of_nil.
  repeat case_bool_decide; subst; split; try done; auto 10.
  intros [?|[?|[?|[?|[]]]]]; done.
Qed.

Lemma convert_unknown `{FL : Floats} c fmt :
  lower fmt ∉ format_names -> convert c fmt = Raise (KeyError (lower fmt)).
Proof.
  unfold format_names. rewrite !not_elem_of_cons. intros (H1 & H2 & H3 & H4 & _).
  unfold convert. by rewrite !bool_decide_eq_false_2.
Qed.

Lemma convert_known `{FL : Floats} c fmt :
  lower fmt ∈ format_names -> convert c fmt <> Raise (KeyError (lower fmt)).
Proof.
  unfold format_names. rewrite !elem_of_cons, elem_of_nil. unfold convert.
  intros [E|[E|[E|[E|[]]]]]; rewrite E; simpl; try done.
  intros H. by apply to_svg_raised in H as [?|[[? _]|[[? _]|[[? _]|[? _]]]]].
Qed.

(** X14: [get_ext] gives an extension other than [.txt] exactly for the
    four format names in lower case; it does not fold case, unlike
    [convert].  On the names [main] passes to both (each piece of the
    comma-separated option, stripped and lowercased) they agree: the
    extension is [.txt] exactly when [convert] raises [KeyError] for the
    name. *)
Theorem formats_extension `{FL : Floats} (c : DiagramConverter) :
  (forall fmt, get_ext fmt <> ".txt" <-> fmt ∈ format_names)
  /\ (forall format f, f ∈ parse_formats format ->
        lower f = f
        /\ (get_ext f = ".txt" <-> convert c f = Raise (KeyError f))).
Proof.
  split; [apply get_ext_format_names|].
  intros format f (piece & -> & _)%list_elem_of_fmap.
  set (f := lower (strip isspace piece)).
  assert (Hf : lower f = f) by apply lower_idem.
  split; [done|].
  destruct (decide (f ∈ format_names)) as [Hin|Hout].
  - split.
    + intros Htxt. by apply get_ext_format_names in Hin.
    + intros Hraise. destruct (convert_known c f); by rewrite Hf.
  - split.
    + intros _. rewrite <- Hf at 2. apply convert_unknown. by rewrite Hf.
    + intros _. destruct (decide (get_ext f = ".txt")) as [|Hne]; [done|].
      by apply get_ext_format_names in Hne.
Qed.

Lemma formats_extension_witness :
  lower "svg" = "svg"
  /\ (get_ext "svg" = ".txt"
      <-> convert (FL := exact_floats) structured "svg" = Raise (KeyError "svg")).
Proof.
  apply (proj2 (formats_extension (FL := exact_floats) structured) " Mermaid, SVG" "svg").
  apply (bool_decide_unpack _). by vm_compute.
Defined.

Example formats_of_option :
  parse_formats " Mermaid, SVG ,png" = ["mermaid"; "svg"; "png"]
  /\ get_ext <$> parse_formats " Mermaid, SVG ,png" = [".mmd"; ".svg"; ".txt"]
  /\ get_ext "SVG" = ".txt".
Proof. repeat split; by vm_compute. Qed.

(** ** The order of the statements *)

Lemma occurs_in_join_app sep (l1 l2 : list string) :
  occurs_in (join sep l2) (join sep (l1 ++ l2)).
Proof.
  induction l1 as [|a l1 IH]; [apply occurs_in_refl|].
  destruct (l1 ++ l2) as [|b l] eqn:E.
  - apply app_eq_nil in E as [-> ->]. simpl. exists a, EmptyString.
    by rewrite append_empty_r.
  - change (join sep ((a :: l1) ++ l2)) with (join sep (a :: l1 ++ l2)). rewrite E.
    change (join sep (a :: b :: l)) with (a +:+ sep +:+ join sep (b :: l)).
    by apply occurs_in_app_r, occurs_in_app_r.
Qed.

(** X15: the statements of the edges in the texts of [to_mermaid] and
    [to_graphviz], their cells in the document of [to_drawio], and the
    blocks of the groups in the first two, come in the order of the stable
    sort by id: the list visited has the same elements as the one given,
    ids ascend along it, and elements with the same id (a missing id
    counting as the empty one) keep the order they were given in. *)
Theorem render_visit_order (c : DiagramConverter) :
  exists es gs,
    (es ≡ₚ c_edges c
     /\ StronglySorted (key_le edge_key) es
     /\ forall k, filter (fun e => edge_key e = k) es
                  = filter (fun e => edge_key e = k) (c_edges c))
    /\ (gs ≡ₚ c_groups c
        /\ StronglySorted (key_le group_key) gs
        /\ forall k, filter (fun g => group_key g = k) gs
                     = filter (fun g => group_key g = k) (c_groups c))
    /\ (exists before after,
          to_mermaid c
          = join nl (before ++ concat (mermaid_group_block c <$> gs) ++ [EmptyString]
                     ++ (mermaid_edge_line <$> es) ++ after))
    /\ (exists before,
          to_graphviz c
          = join nl (before ++ [EmptyString] ++ (graphviz_edge_line <$> es)
                     ++ concat (graphviz_cluster <$> gs) ++ ["}"]))
    /\ occurs_in (join nl (drawio_edge_cell <$> es)) (to_drawio c).
Proof.
  exists (sorted_edges c), (sorted_groups c).
  split; [|split; [|split; [|split]]].
  - unfold sorted_edges.
    split; [apply sorted_Permutation|]. split; [apply sorted_StronglySorted|].
    intros k. apply sorted_stable.
  - unfold sorted_groups.
    split; [apply sorted_Permutation|]. split; [apply sorted_StronglySorted|].
    intros k. apply sorted_stable.
  - exists (mermaid_title_lines c ++ ["flowchart " +:+ mermaid_direction c]
              ++ mermaid_top_lines c).
    eexists. unfold to_mermaid, mermaid_lines. f_equal. rewrite <- !app_assoc. reflexivity.
  - exists (graphviz_header c ++ graphviz_node_lines c).
    unfold to_graphviz, graphviz_lines. f_equal. rewrite <- !app_assoc. reflexivity.
  - eapply occurs_in_trans; [apply occurs_in_join_app|].
    unfold to_drawio. fold (drawio_cells c). find_occurrence.
Qed.

Example twins_keep_order :
  containsb ("    a --> b" +:+ nl +:+ "    b --> a") (to_mermaid (init twins_1 None)) = true
  /\ containsb ("    b --> a" +:+ nl +:+ "    a --> b") (to_mermaid (init twins_2 None))
     = true.
Proof. split; by vm_compute. Qed.

(** ** The canvas of to_svg *)

Lemma svg_rect_open_element x y w h fill stroke :
  occurs_in (svg_rect_open x y w h) (svg_rect_element x y w h fill stroke).
Proof.
  exists EmptyString. eexists. rewrite append_empty_l.
  unfold svg_rect_open, svg_rect_element. rewrite !append_assoc. reflexivity.
Qed.

Lemma svg_node_step_rect `{FL : Floats} ox oy nid node nx ny acc acc' :
  n_x node = Some nx -> n_y node = Some ny ->
  svg_node_step ox oy acc (nid, node) = Ok acc' ->
  svg_rect_element (nx + ox) (ny + oy) (default 120 (n_width node))
    (default 60 (n_height node)) (default "#fff" (fillColor (node_style node)))
    (default "#333" (strokeColor (node_style node))) ∈ acc'.
Proof.
  intros Hx Hy. unfold svg_node_step. rewrite Hx, Hy. simpl. intros H.
  apply bind_Ok_inv in H as (tx & _ & H). apply bind_Ok_inv in H as (ty & _ & H).
  injection H as <-. apply elem_of_app. right. left.
Qed.

Lemma node_coordinate_bounds c i n (f : Node -> Z) :
  c_nodes c !! i = Some n ->
  min_list (f <$> node_values c) <= f n <= max_list (f <$> node_values c).
Proof.
  intros Hin.
  assert (Hv : f n ∈ f <$> node_values c).
  { apply list_elem_of_fmap_2, elem_of_node_values. by exists i. }
  assert (Hne : f <$> node_values c <> []).
  { intros E. rewrite E in Hv. by apply elem_of_nil in Hv. }
  split; [by apply min_list_spec | by apply max_list_spec].
Qed.

(** X16: in the document of [to_svg] every node box lies inside the
    canvas, at least the padding of 50 away from each side: for a node
    with the int coordinates [x], [y] and the int size [w], [h] (120 and
    60 when absent), the document opens with a canvas of some size W by H
    and holds the [rect] of the node at a position X, Y with 50 <= X,
    X + w <= W - 50, 50 <= Y and Y + h <= H - 50. *)
Theorem svg_boxes_inside_canvas `{FL : Floats} (c : DiagramConverter) (i : string)
    (n : Node) (out : string) :
  to_svg c = Ok out -> c_nodes c !! i = Some n ->
  let w := default 120 (n_width n) in
  let h := default 60 (n_height n) in
  exists X Y W H rest,
    out = svg_open W H +:+ rest
    /\ occurs_in (svg_rect_open X Y w h) out
    /\ 50 <= X /\ X + w <= W - 50 /\ 50 <= Y /\ Y + h <= H - 50.
Proof.
  intros Hout Hin w h.
  assert (Hne : c_nodes c <> ∅).
  { intros E. rewrite E in Hin. by rewrite lookup_empty in Hin. }
  destruct (to_svg_elements c out Hne Hout) as (elements & Hels & Hocc).
  destruct (proj1 (to_svg_Ok_inv c out Hne Hout) i n Hin) as [[nx Hx] [ny Hy]].
  set (rect := svg_rect_element (nx + (- svg_min_x c + 50)) (ny + (- svg_min_y c + 50))
                 w h (default "#fff" (fillColor (node_style n)))
                 (default "#333" (strokeColor (node_style n)))).
  assert (Hmem : rect ∈ elements).
  { unfold svg_elements in Hels. apply bind_Ok_inv in Hels as (els & _ & Hnodes).
    eapply (for_each_contributes _ (svg_node_step_grows _ _) _ _ _ (i, n));
      [exact Hnodes | by apply elem_of_sorted_nodes |].
    intros acc0 acc1. by apply svg_node_step_rect. }
  exists (nx + (- svg_min_x c + 50)), (ny + (- svg_min_y c + 50)),
         (svg_max_x c - svg_min_x c + 50 * 2), (svg_max_y c - svg_min_y c + 50 * 2).
  unfold to_svg in Hout. rewrite (bool_decide_eq_false_2 _ Hne) in Hout.
  apply bind_Ok_inv in Hout as (elements' & _ & Hout). injection Hout as <-.
  eexists. split; [unfold svg_open; rewrite !append_assoc; reflexivity|].
  split.
  { eapply occurs_in_trans; [apply svg_rect_open_element|]. by apply Hocc. }
  pose proof (node_coordinate_bounds c i n (fun n => default 0 (n_x n)) Hin) as Bx.
  pose proof (node_coordinate_bounds c i n (fun n => default 0 (n_y n)) Hin) as By.
  pose proof (node_coordinate_bounds c i n
                (fun n => default 0 (n_x n) + default 120 (n_width n)) Hin) as Bw.
  pose proof (node_coordinate_bounds c i n
                (fun n => default 0 (n_y n) + default 60 (n_height n)) Hin) as Bh.
  cbv beta in Bx, By, Bw, Bh.
  rewrite Hx in Bx, Bw. rewrite Hy in By, Bh. simpl in Bx, By, Bw, Bh.
  unfold svg_min_x, svg_min_y, svg_max_x, svg_max_y, node_xs, node_ys, w, h. lia.
Qed.

Lemma svg_boxes_inside_canvas_witness :
  exists out, to_svg (FL := exact_floats) positioned = Ok out
    /\ exists X Y W H rest,
         out = svg_open W H +:+ rest
         /\ occurs_in (svg_rect_open X Y (default 120 (n_width node_b))
                                     (default 60 (n_height node_b))) out
         /\ 50 <= X /\ X + default 120 (n_width node_b) <= W - 50
         /\ 50 <= Y /\ Y + default 60 (n_height node_b) <= H - 50.
Proof.
  eexists. split; [by vm_compute|].
  apply (svg_boxes_inside_canvas (FL := exact_floats) positioned "b" node_b);
    by vm_compute.
Defined.

(** ** Sanitizing twice *)

Lemma ident_char_facts c :
  (is_ident_char c = true -> lower_char c = c)
  /\ (is_ident_char c = true -> spec_outside c = is_underscore c)
  /\ (is_underscore c = true -> c = "_"%char)
  /\ (is_underscore c = true -> spec_outside c = true)
  /\ (is_underscore c = true -> isdigit c = false).
Proof.
  destruct c as [[] [] [] [] [] [] [] []]; vm_compute;
    repeat split; intros; solve [reflexivity | discriminate].
Qed.

Lemma lower_ident s : str_forall is_ident_char s = true -> lower s = s.
Proof.
  induction s as [|c s IH]; simpl; [done|]. intros [Hc Hs]%andb_true_iff.
  by rewrite (proj1 (ident_char_facts c) Hc), IH.
Qed.

(** On a tidy string [re.sub] of the runs of underscores changes nothing. *)
Lemma re_sub_go_tidy_id (cls : ascii -> bool) b s :
  str_forall (fun c => bool_decide (cls c = is_underscore c)) s = true ->
  tidy b s = true -> re_sub_go cls "_" b s = s.
Proof.
  revert b. induction s as [|c s IH]; intros b; simpl; [done|].
  intros [Hc Hs]%andb_true_iff. apply bool_decide_eq_true in Hc. rewrite Hc.
  destruct (is_underscore c) eqn:Hu.
  - intros [Hb Ht]%andb_true_iff. apply negb_true_iff in Hb. subst b.
    rewrite (IH true Hs Ht).
    by rewrite (proj1 (proj2 (proj2 (ident_char_facts c))) Hu).
  - intros Ht. by rewrite (IH false Hs Ht).
Qed.

(** What [re.sub] returns is tidy. *)
Lemma re_sub_go_tidy (cls : ascii -> bool) b s :
  (forall c, is_underscore c = true -> cls c = true) ->
  tidy b (re_sub_go cls "_" b s) = true.
Proof.
  intros Hcls. revert b. induction s as [|c s IH]; intros b; simpl; [done|].
  destruct (cls c) eqn:Hc.
  - destruct b; [apply IH|].
    change ("_" +:+ re_sub_go cls "_" true s)
      with (String "_"%char (re_sub_go cls "_" true s)).
    simpl. apply IH.
  - simpl. destruct (is_underscore c) eqn:Hu; [by rewrite (Hcls c Hu) in Hc|]. apply IH.
Qed.

Lemma tidy_weaken s : tidy true s = true -> tidy false s = true.
Proof. destruct s as [|c s]; simpl; [done|]. by destruct (is_underscore c). Qed.

Lemma lstrip_tidy b s : tidy b s = true -> tidy false (lstrip is_underscore s) = true.
Proof.
  revert b. induction s as [|c s IH]; intros b; simpl; [done|].
  destruct (is_underscore c) eqn:Hu.
  - intros [_ Ht]%andb_true_iff. by apply (IH true).
  - intros Ht. simpl. by rewrite Hu.
Qed.

Lemma rstrip_tidy b s : tidy b s = true -> tidy b (rstrip is_underscore s) = true.
Proof.
  revert b. induction s as [|c s IH]; intros b; simpl; [done|].
  destruct (is_underscore c) eqn:Hu; simpl.
  - intros [Hb Ht]%andb_true_iff.
    destruct (is_empty (rstrip is_underscore s)); [done|].
    simpl. rewrite Hu, Hb. by apply IH.
  - intros Ht. simpl. rewrite Hu. by apply IH.
Qed.

Lemma rstrip_idem cls s : rstrip cls (rstrip cls s) = rstrip cls s.
Proof.
  induction s as [|c s IH]; simpl; [done|].
  destruct (cls c && is_empty (rstrip cls s)) eqn:E; [done|].
  simpl. by rewrite IH, E.
Qed.

Lemma lstrip_head_id cls s :
  (forall c, head_char s = Some c -> cls c = false) -> lstrip cls s = s.
Proof. destruct s as [|c s]; simpl; [done|]. intros H. by rewrite (H c eq_refl). Qed.

Lemma strip_idem cls s : strip cls (strip cls s) = strip cls s.
Proof.
  unfold strip. rewrite (lstrip_head_id cls (rstrip cls (lstrip cls s))).
  - apply rstrip_idem.
  - intros c Hc%rstrip_head. by apply lstrip_head in Hc.
Qed.

Lemma rstrip_append_fixed cls s1 s2 :
  rstrip cls s2 = s2 -> is_empty s2 = false -> rstrip cls (s1 +:+ s2) = s1 +:+ s2.
Proof.
  intros Hfix Hne. induction s1 as [|c s1 IH]; [done|].
  rewrite append_cons. simpl. rewrite IH.
  destruct (s1 +:+ s2) eqn:E; [|by rewrite andb_false_r].
  destruct s1; [|done]. rewrite append_empty_l in E. by rewrite E in Hne.
Qed.

Lemma cleaned_tidy text : tidy false (cleaned text) = true.
Proof.
  unfold cleaned, strip, re_sub. apply rstrip_tidy. eapply lstrip_tidy.
  by apply re_sub_go_tidy.
Qed.

Lemma ident_classes s (cls : ascii -> bool) :
  (forall c, is_ident_char c = true -> cls c = is_underscore c) ->
  str_forall is_ident_char s = true ->
  str_forall (fun c => bool_decide (cls c = is_underscore c)) s = true.
Proof.
  intros Hcls. apply str_forall_impl. intros c Hc. by apply bool_decide_eq_true, Hcls.
Qed.

(** A string that is made of identifier characters, tidy and already
    stripped is left alone by the cleaning steps. *)
Lemma cleaned_fixed w :
  str_forall is_ident_char w = true -> tidy false w = true ->
  strip is_underscore w = w -> cleaned w = w.
Proof.
  intros Hid Ht Hs. unfold cleaned, re_sub.
  rewrite (lower_ident _ Hid).
  rewrite (re_sub_go_tidy_id spec_outside false w); [|apply ident_classes|]; try done.
  { by rewrite re_sub_go_tidy_id; [| apply ident_classes |]. }
  intros c Hc. by apply ident_char_facts.
Qed.

Lemma cleaned_idem text : cleaned (cleaned text) = cleaned text.
Proof.
  apply cleaned_fixed; [apply cleaned_chars | apply cleaned_tidy |].
  unfold cleaned. apply strip_idem.
Qed.

Lemma sanitize_base_of_cleaned c rest :
  cleaned (String c rest) = String c rest -> isdigit c = false ->
  sanitize_base (String c rest) = String c rest.
Proof.
  intros Hcl Hd. rewrite sanitize_base_cleaned by done. rewrite Hcl. simpl. by rewrite Hd.
Qed.

Lemma sanitize_base_twice (text : string) :
  sanitize_base (sanitize_base text) =
    if is_empty text || has_alnum text then sanitize_base text else "node".
Proof.
  destruct (is_empty text) eqn:Hne.
  { destruct text; [by vm_compute | done]. }
  simpl. destruct (has_alnum text) eqn:Hal.
  - rewrite (sanitize_base_cleaned _ Hne).
    pose proof (cleaned_idem text) as Hidem.
    pose proof (cleaned_chars text) as Hchars.
    pose proof (cleaned_tidy text) as Htidy.
    pose proof (cleaned_head text) as Hhead.
    destruct (cleaned_alnum _ Hal) as (c & rest & Hcl & _).
    rewrite Hcl in *. simpl. specialize (Hhead c eq_refl).
    destruct (isdigit c) eqn:Hd.
    + assert (Hfix : cleaned ("node_" +:+ String c rest) = "node_" +:+ String c rest).
      { apply cleaned_fixed.
        - by rewrite str_forall_append, Hchars.
        - change (tidy false ("node_" +:+ String c rest))
            with (tidy true (String c rest)).
          simpl in Htidy |- *. rewrite Hhead in Htidy |- *. exact Htidy.
        - unfold strip. change (lstrip is_underscore ("node_" +:+ String c rest))
            with ("node_" +:+ String c rest).
          apply rstrip_append_fixed; [|done].
          rewrite <- Hcl. unfold cleaned, strip. apply rstrip_idem. }
      change ("node_" +:+ String c rest) with (String "n"%char ("ode_" +:+ String c rest)).
      apply sanitize_base_of_cleaned; [exact Hfix | done].
    + by apply sanitize_base_of_cleaned.
  - rewrite (sanitize_base_cleaned _ Hne), (cleaned_no_alnum _ Hal). by vm_compute.
Qed.

(** The name [node_] is returned for the texts that clean to nothing, and
    for no other. *)
Lemma sanitize_base_node_ (text : string) :
  sanitize_base text = "node_" <-> is_empty text || has_alnum text = false.
Proof.
  destruct (is_empty text) eqn:Hne.
  { destruct text; [by vm_compute | done]. }
  rewrite (sanitize_base_cleaned _ Hne). simpl.
  destruct (has_alnum text) eqn:Hal.
  - assert (Hstripped : rstrip is_underscore (cleaned text) = cleaned text).
    { unfold cleaned, strip. apply rstrip_idem. }
    destruct (cleaned_alnum _ Hal) as (c & rest & Hcl & _). rewrite Hcl in *. simpl.
    split; [|done]. destruct (isdigit c).
    + change ("node_" +:+ String c rest) with (("node_" +:+ String c EmptyString) +:+ rest).
      by intros [= ].
    + intros E. rewrite E in Hstripped. by vm_compute in Hstripped.
  - by rewrite (cleaned_no_alnum _ Hal).
Qed.

(** X17: sanitizing an identifier that [sanitize_id] returned gives it
    back; the one exception is the name [node_], returned for a non-empty
    text of which the cleaning leaves nothing, which sanitizes to
    [node]. *)
Theorem sanitize_id_twice (text : string) :
  let name := fst (sanitize_id text None) in
  fst (sanitize_id name None) = if bool_decide (name = "node_") then "node" else name.
Proof.
  simpl. rewrite sanitize_base_twice.
  destruct (is_empty text || has_alnum text) eqn:E.
  - rewrite bool_decide_eq_false_2; [done|].
    intros H%sanitize_base_node_. congruence.
  - rewrite bool_decide_eq_true_2; [done|]. by apply sanitize_base_node_.
Qed.

Example sanitize_twice_examples :
  fst (sanitize_id "Hello World" None) = "hello_world"
  /\ fst (sanitize_id "hello_world" None) = "hello_world"
  /\ fst (sanitize_id "@@@" None) = "node_"
  /\ fst (sanitize_id "node_" None) = "node".
Proof. repeat split; by vm_compute. Qed.

(** ** Deleted text elements *)

Section Reflag.
Variable flag : Element -> bool.

Lemma reflag_text_cases el :
  (el_type el = Some "text" /\ el_type (reflag_text flag el) = Some "text")
  \/ (el_type el <> Some "text" /\ reflag_text flag el = el).
Proof.
  unfold reflag_text. destruct (bool_decide (el_type el = Some "text")) eqn:E.
  - apply bool_decide_eq_true in E. by left.
  - apply bool_decide_eq_false in E. by right.
Qed.

Lemma reflag_text_fields el :
  el_id (reflag_text flag el) = el_id el
  /\ el_type (reflag_text flag el) = el_type el
  /\ el_text (reflag_text flag el) = el_text el
  /\ el_containerId (reflag_text flag el) = el_containerId el
  /\ el_frameId (reflag_text flag el) = el_frameId el.
Proof. unfold reflag_text. by destruct (bool_decide (el_type el = Some "text")). Qed.

Lemma find_bound_text_cons eid el rest :
  find_bound_text eid (el :: rest) =
    if bool_decide (el_type el = Some "text") && bool_decide (el_containerId el = eid)
    then default "" (el_text el)
    else find_bound_text eid rest.
Proof. reflexivity. Qed.

Lemma find_bound_text_reflag eid elements :
  find_bound_text eid (reflag_texts flag elements) = find_bound_text eid elements.
Proof.
  induction elements as [|el rest IH]; [done|].
  change (reflag_texts flag (el :: rest))
    with (reflag_text flag el :: reflag_texts flag rest).
  rewrite !find_bound_text_cons, IH.
  destruct (reflag_text_fields el) as (_ & -> & -> & -> & _). done.
Qed.

Lemma shape_step_reflag elements st el :
  shape_step (reflag_texts flag elements) st (reflag_text flag el)
  = shape_step elements st el.
Proof.
  destruct (reflag_text_cases el) as [[Ht Ht']|[_ ->]].
  - unfold shape_step, skipped. rewrite Ht, Ht'.
    rewrite (bool_decide_eq_true_2 (Some "text" = Some "text")) by done.
    by rewrite !orb_true_r.
  - unfold shape_step, shape_label. by rewrite find_bound_text_reflag.
Qed.

Lemma first_pass_reflag elements :
  first_pass (reflag_texts flag elements) = first_pass elements.
Proof.
  unfold first_pass. generalize ({| id_map := ∅; existing := ∅; nodes := [] |}).
  generalize elements at 1 3. intros all.
  unfold reflag_texts at 2.
  induction elements as [|el rest IH]; intros st; [done|].
  rewrite fmap_cons. simpl. rewrite shape_step_reflag. apply IH.
Qed.

Lemma connector_step_reflag elements m edges el :
  connector_step (reflag_texts flag elements) m edges (reflag_text flag el)
  = connector_step elements m edges el.
Proof.
  destruct (reflag_text_cases el) as [[Ht Ht']|[_ ->]].
  - unfold connector_step. rewrite Ht, Ht'.
    rewrite (bool_decide_eq_false_2 (Some "text" = Some "arrow")) by done.
    by rewrite (bool_decide_eq_false_2 (Some "text" = Some "line")) by done.
  - unfold connector_step. by rewrite find_bound_text_reflag.
Qed.

Lemma contained_in_cons fid m e rest :
  contained_in fid m (e :: rest) =
    if bool_decide (el_frameId e = fid) && bool_decide (is_Some (m !! el_id e))
    then
      eid ← index "id" (el_id e);
      nid ← index eid (m !! Some eid);
      more ← contained_in fid m rest;
      Ok (nid :: more)
    else contained_in fid m rest.
Proof. reflexivity. Qed.

Lemma contained_in_reflag fid m elements :
  contained_in fid m (reflag_texts flag elements) = contained_in fid m elements.
Proof.
  induction elements as [|el rest IH]; [done|].
  change (reflag_texts flag (el :: rest))
    with (reflag_text flag el :: reflag_texts flag rest).
  rewrite !contained_in_cons, IH.
  destruct (reflag_text_fields el) as (-> & _ & _ & _ & ->). done.
Qed.

Lemma frame_step_reflag elements m st el :
  frame_step (reflag_texts flag elements) m st (reflag_text flag el)
  = frame_step elements m st el.
Proof.
  destruct (reflag_text_cases el) as [[Ht Ht']|[_ ->]].
  - unfold frame_step. destruct st as [ex gs]. rewrite Ht, Ht'.
    by rewrite (bool_decide_eq_false_2 (Some "text" = Some "frame")) by done.
  - unfold frame_step. destruct st as [ex gs]. by rewrite contained_in_reflag.
Qed.

Lemma for_each_reflag {S} (body body' : S -> Element -> result S) elements :
  (forall acc el, body' acc (reflag_text flag el) = body acc el) ->
  forall acc, for_each body' acc (reflag_texts flag elements) = for_each body acc elements.
Proof.
  intros Hbody. induction elements as [|el rest IH]; intros acc; [done|].
  change (reflag_texts flag (el :: rest))
    with (reflag_text flag el :: reflag_texts flag rest).
  rewrite !for_each_cons, Hbody. destruct (body acc el); [apply IH | done].
Qed.

End Reflag.

(** X18: the importer never reads the [isDeleted] key of a text element.
    Deleting or restoring text elements of a file changes nothing of what
    [parse_excalidraw] returns or raises; a deleted text element still
    labels the shape or connector it is bound to. *)
Theorem parse_excalidraw_deleted_text (flag : Element -> bool)
    (elements : list Element) :
  parse_excalidraw (reflag_texts flag elements) = parse_excalidraw elements.
Proof.
  unfold parse_excalidraw. rewrite first_pass_reflag.
  rewrite (for_each_reflag flag
             (connector_step elements (id_map (first_pass elements))))
    by (intros; apply connector_step_reflag).
  by rewrite (for_each_reflag flag
                (frame_step elements (id_map (first_pass elements))))
    by (intros; apply frame_step_reflag).
Qed.
